(** * Commerce-Minorista ingestion benchmark: model and properties

    A shallow embedding of [ingest_benchmark.py], [json/generator.py] and
    [sql/generator.py].

    - Python dictionaries are [gmap]s, lists are [list]s, Python integers
      that only count (ids, line numbers) are [nat], integer payloads are
      [Z], strings are [string].
    - Prices, amounts and clock readings are Python floats.  Their
      arithmetic is kept abstract in the class [NumOps]; nothing below
      depends on how a float is rounded.
    - Calls into psycopg2 and pymongo are recorded as [event]s.  A function
      that talks to a database is a computation in the monad [M], which
      collects the calls the function issues, in order, together with its
      outcome; [exec] then runs these calls against a client library that may
      refuse any of them.  A COPY is recorded with its rows; [copy_buffer]
      is the text that [copy_rows] writes for them.  Leaving a [with] block
      issues no call of its own; the commit that psycopg2 performs there is
      part of [commits_of_run].  Console output is not recorded.
    - [random], [numpy.random] and [Faker] are oracles: every draw is taken
      from an arbitrary sequence, so a property proved here holds for every
      seed. *)

From Stdlib Require Import Ascii String ZArith.
From stdpp Require Import gmap strings list fin_maps pretty.
From Equations.Prop Require Import Equations Logic.

#[local] Set Warnings "-clear-no-such-hyp,-abstract-large-number".

Open Scope string_scope.
Open Scope list_scope.
Open Scope nat_scope.
Open Scope stdpp_scope.

(** ** Python exceptions *)

Inductive exn :=
| KeyError (key : string)
| IndexError
| ValueError
| ZeroDivisionError
| ClientError (msg : string).

(** ** Floats *)

Class NumOps (num : Type) := {
  num_zero : num;                      (* 0.0 *)
  num_add : num → num → num;           (* float + float *)
  num_sub : num → num → num;           (* float - float *)
  num_mul_int : num → Z → num;         (* float * int *)
  round2 : num → num;                  (* round(x, 2) *)
  uniform : Z → Z → nat → num;         (* random.uniform(a, b) from a raw draw *)
}.

(** Amounts in cents: an instance to evaluate the model on concrete data. *)
#[export] Instance cents : NumOps Z := {|
  num_zero := 0%Z;
  num_add := Z.add;
  num_sub := Z.sub;
  num_mul_int := Z.mul;
  round2 := λ x, x;
  uniform := λ a b r, (100 * a + Z.of_nat r `mod` (100 * (b - a) + 1))%Z;
|}.

(** ** Outcomes *)

Definition result (A : Type) : Type := exn + A.

#[export] Instance result_ret : MRet result := λ A x, inr x.
#[export] Instance result_bind : MBind result := λ A B f m,
  match m with
  | inl e => inl e
  | inr a => f a
  end.

(** [d[key]] on a dictionary. *)
Definition getitem `{Countable K} {V} (what : string) (d : gmap K V) (key : K) : result V :=
  match d !! key with
  | Some v => inr v
  | None => inl (KeyError what)
  end.

(** [seq[i]] on a list, for an index within [0, len). *)
Definition getindex {A} (l : list A) (i : nat) : result A :=
  match l !! i with
  | Some v => inr v
  | None => inl IndexError
  end.

(** [str.replace(old, new)] for a one-character [old]. *)
Fixpoint replace_char (old : ascii) (new : string) (s : string) : string :=
  match s with
  | EmptyString => EmptyString
  | String c rest =>
      if Ascii.eqb c old then new +:+ replace_char old new rest
      else String c (replace_char old new rest)
  end.

(** [str.lower()] on ASCII letters. *)
Definition lower_ascii (c : ascii) : ascii :=
  let n := nat_of_ascii c in
  if (65 <=? n) && (n <=? 90) then ascii_of_nat (n + 32) else c.

Fixpoint lower (s : string) : string :=
  match s with
  | EmptyString => EmptyString
  | String c rest => String (lower_ascii c) (lower rest)
  end.

(** [range(0, n, step)], for [step > 0]. *)
Definition range_step (n step : nat) : list nat :=
  (λ k, k * step) <$> seq 0 ((n + step - 1) / step).

(** [chunks(iterable, size)] of both generators: the batches the generator
    yields over a list.  Every round takes [islice(it, size)] from what
    is left; the first empty batch ends the loop. *)
Equations chunks {A} (it : list A) (size : nat) : list (list A) by wf (length it) lt :=
  chunks it size with inspect (take size it) := {
    | exist _ nil _ => nil
    | exist _ (cons x batch) _ => (cons x batch) :: chunks (drop size it) size }.
Next Obligation.
  intros. rewrite length_drop. destruct size; [done|]. destruct it; [done|]. simpl. lia.
Qed.

(** The characters written between the fields and the lines of a text. *)
Definition tab : string := String "009" "".
Definition nl : string := String "010" "".

(** [s.split(sep)] for a one-character [sep]. *)
Fixpoint split (sep : ascii) (s : string) : list string :=
  match s with
  | EmptyString => [EmptyString]
  | String c rest =>
      if Ascii.eqb c sep then EmptyString :: split sep rest
      else match split sep rest with
           | [] => [String c EmptyString]
           | field :: fields => String c field :: fields
           end
  end.

(** The character [c] occurs in [s]. *)
Definition occurs (c : ascii) (s : string) : Prop := c ∈ list_ascii_of_string s.

(** The names of a list in the order in which each is first met. *)
Definition first_seen {A} `{EqDecision A} (l : list A) : list A :=
  foldl (λ acc x, if decide (x ∈ acc) then acc else acc ++ [x]) [] l.

(** ** The JSON documents *)

Section Documents.
Context {num : Type}.

(** ["product": {"name", "category", "price"}] *)
Record product_doc := {
  pd_name : string;
  pd_category : string;
  pd_price : num;
}.

(** An entry of a store's ["inventory"]. *)
Record inventory_doc := {
  inv_product : product_doc;
  inv_quantity : Z;
}.

(** An entry of a store's ["employees"]; ["position"] may be absent. *)
Record employee_doc := {
  ed_first_name : string;
  ed_last_name : string;
  ed_position : option string;
}.

(** A document of [stores_catalog.json]; the keys read with [.get] may
    be absent. *)
Record store_doc := {
  sd_store_name : string;
  sd_address : option string;
  sd_employees : option (list employee_doc);
  sd_inventory : option (list inventory_doc);
}.

Record customer_doc := {
  cd_first_name : string;
  cd_last_name : string;
  cd_email : string;
}.

(** An entry of a sale's ["lines"]. *)
Record line_doc := {
  ld_product : product_doc;
  ld_quantity : Z;
  ld_line_total : num;
}.

(** ["timestamp"]: Extended JSON [{"$date": s}] or a plain string. *)
Inductive timestamp :=
| TsDate (s : string)
| TsPlain (s : string).

(** A document of [sales_docs.json]. *)
Record sale_doc := {
  sl_timestamp : timestamp;
  sl_store_name : string;
  sl_emp_first_name : string;
  sl_emp_last_name : string;
  sl_customer : customer_doc;
  sl_lines : list line_doc;
  sl_total_amount : num;
}.

(** ** Client-library calls *)

(** A value of a row handed to COPY. *)
Inductive pyval :=
| VInt (z : Z)
| VStr (s : string)
| VNum (x : num).

Definition VId (n : nat) : pyval := VInt (Z.of_nat n).

Inductive pg_target :=
| SqlDb     (* PG_PORT, database PG_DB_SQL *)
| JsonDb.   (* PG_PORT_JSON, database PG_DB_JSON *)

Inductive mongo_docs :=
| CatalogDocs (docs : list store_doc)
| SalesDocs (docs : list sale_doc).

Inductive event :=
| PgConnect (target : pg_target)
| PgExecute (script : string)
| PgCopy (table : string) (columns : list string) (rows : list (list pyval))
| PgCommit
| MongoClient
| MongoDrop (coll : string)
| MongoInsertMany (coll : string) (docs : mongo_docs)
| MongoClose.

(** ** Computations that issue client-library calls *)

(** The calls issued, oldest first, and the outcome.  An exception ends
    the computation after the calls issued before it. *)
Definition M (A : Type) : Type := list event * result A.

Definition M_ret {A} (x : A) : M A := ([], inr x).

Definition M_bind {A B} (f : A → M B) (m : M A) : M B :=
  match m with
  | (es, inl e) => (es, inl e)
  | (es, inr a) => (es ++ (f a).1, (f a).2)
  end.

Definition call (ev : event) : M unit := ([ev], inr tt).

Definition raise_from {A} (r : result A) : M A := ([], r).
End Documents.

Arguments product_doc : clear implicits.
Arguments inventory_doc : clear implicits.
Arguments store_doc : clear implicits.
Arguments line_doc : clear implicits.
Arguments sale_doc : clear implicits.
Arguments pyval : clear implicits.
Arguments mongo_docs : clear implicits.
Arguments event : clear implicits.
Arguments M : clear implicits.

#[export] Instance M_mret {num} : MRet (M num) := @M_ret num.
#[export] Instance M_mbind {num} : MBind (M num) := @M_bind num.

(** A [for] loop that threads the variables it assigns. *)
Fixpoint foldM `{MBind F, MRet F} {A S} (f : S → A → F S) (s : S) (l : list A) : F S :=
  match l with
  | [] => mret s
  | x :: rest => s' ← f s x; foldM f s' rest
  end.

Section Model.
Context `{NumOps num}.

#[local] Abbreviation product_doc := (product_doc num).
#[local] Abbreviation inventory_doc := (inventory_doc num).
#[local] Abbreviation store_doc := (store_doc num).
#[local] Abbreviation line_doc := (line_doc num).
#[local] Abbreviation sale_doc := (sale_doc num).
#[local] Abbreviation pyval := (pyval num).
#[local] Abbreviation event := (event num).
#[local] Abbreviation M := (M num).

(** * ingest_benchmark.py *)

(** [copy_rows(cur, table, columns, rows)].  The COPY command names the
    lower-cased table and the columns; its input is one tab-separated
    line of [str(v)] per row, which the event keeps as the rows
    themselves. *)
Definition copy_rows (table : string) (columns : list string)
    (rows : list (list pyval)) : M unit :=
  match rows with
  | [] => mret tt
  | _ :: _ => call (PgCopy (lower table) columns rows)
  end.

(** [load_postgres_sql], given the text of [SQL_FILE]. *)
Definition load_postgres_sql (sql_file : string) : M unit :=
  call (PgConnect SqlDb);;
  call (PgExecute sql_file);;
  call PgCommit.

(** The dictionaries and counters of the catalog loop. *)
Record catalog_vars := {
  category_map : gmap string nat;
  product_map : gmap string nat;
  store_map : gmap string nat;
  employee_map : gmap (string * string * nat) nat;
  next_cat : nat;
  next_prod : nat;
  next_emp : nat;
}.

Definition catalog_vars_init : catalog_vars := {|
  category_map := ∅; product_map := ∅; store_map := ∅; employee_map := ∅;
  next_cat := 1; next_prod := 1; next_emp := 1;
|}.

(** [for emp in store_doc.get("employees", [])] *)
Definition ingest_employee (s_id : nat) (v : catalog_vars) (emp : employee_doc)
    : M catalog_vars :=
  let eid := next_emp v in
  let v := {|
    category_map := category_map v; product_map := product_map v;
    store_map := store_map v;
    employee_map :=
      <[(ed_first_name emp, ed_last_name emp, s_id) := eid]> (employee_map v);
    next_cat := next_cat v; next_prod := next_prod v; next_emp := eid + 1;
  |} in
  copy_rows "employee"
    ["employee_id"; "first_name"; "last_name"; "position"; "store_id"]
    [[VId eid; VStr (ed_first_name emp); VStr (ed_last_name emp);
      VStr (default "" (ed_position emp)); VId s_id]];;
  mret v.

(** [if cat_name not in category_map: ...] *)
Definition ingest_category (v : catalog_vars) (cat_name : string) : M catalog_vars :=
  match category_map v !! cat_name with
  | Some _ => mret v
  | None =>
      let v := {|
        category_map := <[cat_name := next_cat v]> (category_map v);
        product_map := product_map v; store_map := store_map v;
        employee_map := employee_map v;
        next_cat := next_cat v + 1; next_prod := next_prod v;
        next_emp := next_emp v;
      |} in
      cid ← raise_from (getitem "category_map" (category_map v) cat_name);
      copy_rows "category" ["category_id"; "name"] [[VId cid; VStr cat_name]];;
      mret v
  end.

(** [if prod["name"] not in product_map: ...] *)
Definition ingest_product (v : catalog_vars) (prod : product_doc) : M catalog_vars :=
  match product_map v !! pd_name prod with
  | Some _ => mret v
  | None =>
      let pid := next_prod v in
      let v := {|
        category_map := category_map v;
        product_map := <[pd_name prod := pid]> (product_map v);
        store_map := store_map v; employee_map := employee_map v;
        next_cat := next_cat v; next_prod := pid + 1; next_emp := next_emp v;
      |} in
      cid ← raise_from (getitem "category_map" (category_map v) (pd_category prod));
      copy_rows "product" ["product_id"; "name"; "price"; "category_id"]
        [[VId pid; VStr (pd_name prod); VNum (pd_price prod); VId cid]];;
      mret v
  end.

(** [for inv in store_doc.get("inventory", [])] *)
Definition ingest_inventory (s_id : nat) (v : catalog_vars) (inv : inventory_doc)
    : M catalog_vars :=
  let prod := inv_product inv in
  v ← ingest_category v (pd_category prod);
  v ← ingest_product v prod;
  pid ← raise_from (getitem "product_map" (product_map v) (pd_name prod));
  copy_rows "inventory" ["store_id"; "product_id"; "quantity"]
    [[VId s_id; VId pid; VInt (inv_quantity inv)]];;
  mret v.

(** [for store_doc in catalog] *)
Definition ingest_store (v : catalog_vars) (doc : store_doc) : M catalog_vars :=
  let s_id := size (store_map v) + 1 in
  let v := {|
    category_map := category_map v; product_map := product_map v;
    store_map := <[sd_store_name doc := s_id]> (store_map v);
    employee_map := employee_map v;
    next_cat := next_cat v; next_prod := next_prod v; next_emp := next_emp v;
  |} in
  copy_rows "store" ["store_id"; "name"; "address"]
    [[VId s_id; VStr (sd_store_name doc); VStr (default "" (sd_address doc))]];;
  v ← foldM (ingest_employee s_id) v (default [] (sd_employees doc));
  foldM (ingest_inventory s_id) v (default [] (sd_inventory doc)).

(** The dictionary and counters of the sales loop. *)
Record sales_vars := {
  customers_map : gmap string nat;
  next_cust : nat;
  next_sale : nat;
}.

Definition sales_vars_init : sales_vars :=
  {| customers_map := ∅; next_cust := 1; next_sale := 1 |}.

(** [extract_ts]: drops every [Z] of an Extended-JSON date. *)
Definition extract_ts (ts : timestamp) : string :=
  match ts with
  | TsDate s => replace_char "Z" "" s
  | TsPlain s => s
  end.

(** [if cust_email not in customers_map: ...] *)
Definition ingest_customer (sv : sales_vars) (c : customer_doc) : M sales_vars :=
  match customers_map sv !! cd_email c with
  | Some _ => mret sv
  | None =>
      let cid := next_cust sv in
      let sv := {|
        customers_map := <[cd_email c := cid]> (customers_map sv);
        next_cust := cid + 1; next_sale := next_sale sv;
      |} in
      copy_rows "customer" ["customer_id"; "first_name"; "last_name"; "email"]
        [[VId cid; VStr (cd_first_name c); VStr (cd_last_name c); VStr (cd_email c)]];;
      mret sv
  end.

(** [for ln in sale["lines"]]; the loop variable is [line_no]. *)
Definition ingest_line (v : catalog_vars) (sale_id : nat) (line_no : nat)
    (ln : line_doc) : M nat :=
  match product_map v !! pd_name (ld_product ln) with
  | None => mret line_no
  | Some prod_id =>
      copy_rows "saleline"
        ["sale_id"; "line_number"; "product_id"; "quantity"; "unit_price"; "line_total"]
        [[VId sale_id; VId line_no; VId prod_id; VInt (ld_quantity ln);
          VNum (pd_price (ld_product ln)); VNum (ld_line_total ln)]];;
      mret (line_no + 1)
  end.

(** [for sale in tqdm(sales_docs, ...)] *)
Definition ingest_sale (v : catalog_vars) (sv : sales_vars) (sale : sale_doc)
    : M sales_vars :=
  let cust_email := cd_email (sl_customer sale) in
  sv ← ingest_customer sv (sl_customer sale);
  store_id ← raise_from (getitem "store_map" (store_map v) (sl_store_name sale));
  employee_id ← raise_from (getitem "employee_map" (employee_map v)
                  (sl_emp_first_name sale, sl_emp_last_name sale, store_id));
  let sale_id := next_sale sv in
  let sv := {|
    customers_map := customers_map sv; next_cust := next_cust sv;
    next_sale := sale_id + 1;
  |} in
  let ts_value := extract_ts (sl_timestamp sale) in
  cid ← raise_from (getitem "customers_map" (customers_map sv) cust_email);
  copy_rows "sale"
    ["sale_id"; "sale_timestamp"; "customer_id"; "store_id"; "employee_id"; "total_amount"]
    [[VId sale_id; VStr ts_value; VId cid; VId store_id; VId employee_id;
      VNum (sl_total_amount sale)]];;
  foldM (ingest_line v sale_id) 1 (sl_lines sale);;
  mret sv.

(** [load_postgres_from_json], given the text of [DDL_FILE] and the
    parsed contents of [CATALOG_JSON] and [SALES_JSON]. *)
Definition load_postgres_from_json (ddl_file : string) (catalog : list store_doc)
    (sales_docs : list sale_doc) : M unit :=
  call (PgConnect JsonDb);;
  call (PgExecute ddl_file);;
  v ← foldM ingest_store catalog_vars_init catalog;
  foldM (ingest_sale v) sales_vars_init sales_docs;;
  call PgCommit.

(** [load_mongo_catalog] *)
Definition load_mongo_catalog (catalog : list store_doc) : M unit :=
  call MongoClient;;
  call (MongoDrop "stores");;
  call (MongoInsertMany "stores" (CatalogDocs catalog));;
  call MongoClose.

(** [load_mongo_sales]; [CHUNK = 2000]. *)
Definition CHUNK : nat := 2000.

Definition load_mongo_sales (docs : list sale_doc) : M unit :=
  call MongoClient;;
  call (MongoDrop "sales");;
  foldM (λ _ chunk, call (MongoInsertMany "sales" (SalesDocs chunk))) tt
    ((λ i, take CHUNK (drop i docs)) <$> range_step (length docs) CHUNK);;
  call MongoClose.

(** ** Running the calls against the client libraries *)

(** The client libraries are an oracle: given the calls already served and
    the next call, it either serves the call or raises an error. *)
Definition client := list event → event → option string.

Fixpoint exec_calls (fails : client) (served todo : list event)
    : list event * option string :=
  match todo with
  | [] => (served, None)
  | ev :: rest =>
      match fails served ev with
      | Some msg => (served, Some msg)
      | None => exec_calls fails (served ++ [ev]) rest
      end
  end.

(** Nothing in the scripts catches an exception: the first call that is
    refused ends the computation with the client's error. *)
Definition exec {A} (fails : client) (served : list event) (m : M A)
    : list event * result A :=
  match exec_calls fails served m.1 with
  | (served', Some msg) => (served', inl (ClientError msg))
  | (served', None) => (served', m.2)
  end.

(** The files the benchmark reads. *)
Record files := {
  SQL_FILE : string;
  DDL_FILE : string;
  CATALOG_JSON : list store_doc;
  SALES_JSON : list sale_doc;
}.

(** What the process sees: its input files, the client libraries, the
    clock, the calls served so far and the output file (a list of CSV
    rows once it has been written).  What the clock shows depends on how
    many readings have been taken and on the calls that the clients have
    served by then. *)
Record world := {
  inputs : files;
  client_fails : client;
  clock : nat → list event → num;
  ticks : nat;
  served : list event;
  OUT_CSV : option (list (list pyval));
}.

Definition W (A : Type) : Type := world → world * result A.

#[export] Instance W_ret : MRet W := λ A x w, (w, inr x).
#[export] Instance W_bind : MBind W := λ A B f m w,
  match m w with
  | (w', inl e) => (w', inl e)
  | (w', inr a) => f a w'
  end.

(** [time.perf_counter()] *)
Definition perf_counter : W num := λ w,
  ({| inputs := inputs w; client_fails := client_fails w; clock := clock w;
      ticks := ticks w + 1; served := served w; OUT_CSV := OUT_CSV w |},
   inr (clock w (ticks w) (served w))).

(** Runs a function of the input files against the world's clients. *)
Definition perform {A} (fn : files → M A) : W A := λ w,
  let '(served', r) := exec (client_fails w) (served w) (fn (inputs w)) in
  ({| inputs := inputs w; client_fails := client_fails w; clock := clock w;
      ticks := ticks w; served := served'; OUT_CSV := OUT_CSV w |},
   r).

(** [csv.writer(f).writerow(...)] and [writerows(...)] on [OUT_CSV] opened
    with mode ["w"]. *)
Definition write_csv (rows : list (list pyval)) : W unit := λ w,
  ({| inputs := inputs w; client_fails := client_fails w; clock := clock w;
      ticks := ticks w; served := served w; OUT_CSV := Some rows |},
   inr tt).

(** The decorator [timed(label)]. *)
Definition timed {A} (label : string) (fn : W A) : W (num * A) :=
  t0 ← perf_counter;
  result ← fn;
  t1 ← perf_counter;
  let dt := num_sub t1 t0 in
  mret (dt, result).

(** The four decorated functions, as [main] calls them. *)
Definition timed_load_postgres_sql : W (num * unit) :=
  timed "PostgreSQL load - SQL script"
    (perform (λ f, load_postgres_sql (SQL_FILE f))).

Definition timed_load_postgres_from_json : W (num * unit) :=
  timed "PostgreSQL load – JSON"
    (perform (λ f,
       load_postgres_from_json (DDL_FILE f) (CATALOG_JSON f) (SALES_JSON f))).

Definition timed_load_mongo_catalog : W (num * unit) :=
  timed "MongoDB load - catalog" (perform (λ f, load_mongo_catalog (CATALOG_JSON f))).

Definition timed_load_mongo_sales : W (num * unit) :=
  timed "MongoDB load – sales" (perform (λ f, load_mongo_sales (SALES_JSON f))).

(** [main] *)
Definition main : W unit :=
  let results := [] in
  '(dt_pg_sql, _) ← timed_load_postgres_sql;
  let results := results ++ [[VStr "postgres_sql"; VNum dt_pg_sql]] in
  '(dt_pg_json, _) ← timed_load_postgres_from_json;
  let results := results ++ [[VStr "postgres_json"; VNum dt_pg_json]] in
  '(dt_cat, _) ← timed_load_mongo_catalog;
  '(dt_sales, _) ← timed_load_mongo_sales;
  let results := results ++ [[VStr "mongo_catalog"; VNum dt_cat];
                             [VStr "mongo_sales"; VNum dt_sales]] in
  write_csv ([VStr "step"; VStr "duration_seconds"] :: results).

(** * json/generator.py and sql/generator.py *)

(** The configurable constants. *)
Record config := {
  CATEGORIES : nat;
  PRODUCTS : nat;
  STORES : nat;
  EMPLOYEES : nat;
  CUSTOMERS : nat;
  SALES : nat;
  MIN_LINES : nat;
  MAX_LINES : nat;
}.

Definition constants : config := {|
  CATEGORIES := 10; PRODUCTS := 100; STORES := 5; EMPLOYEES := 25;
  CUSTOMERS := 1000; SALES := 20000; MIN_LINES := 1; MAX_LINES := 10;
|}.

(** [int((END_DATE - START_DATE).total_seconds())]: 730 days.  A datetime
    is its distance in seconds from [START_DATE]. *)
Definition PERIOD : Z := 63072000.

(** ** The relational base data *)

Record product := {
  product_id : nat;
  p_name : string;
  p_price : num;
  p_category_id : nat;
}.

Record store := {
  store_id : nat;
  s_name : string;
  s_address : string;
}.

Record employee := {
  employee_id : nat;
  e_first_name : string;
  e_last_name : string;
  e_position : string;
  e_store_id : nat;
}.

Record customer := {
  customer_id : nat;
  c_first_name : string;
  c_last_name : string;
  c_email : string;
}.

Record inventory_row := {
  i_store_id : nat;
  i_product_id : nat;
  i_quantity : Z;
}.

Record sale_hdr := {
  h_sale_id : nat;
  h_timestamp : Z;
  h_customer_id : nat;
  h_store_id : nat;
  h_employee_id : nat;
  h_total_amount : num;
}.

Record sale_line := {
  l_sale_id : nat;
  l_line_number : nat;
  l_product_id : nat;
  l_quantity : Z;
  l_unit_price : num;
  l_line_total : num;
}.

Record base_data := {
  categories : list (nat * string);
  products : list product;
  stores : list store;
  employees : list employee;
  customers : list customer;
  inventory : list inventory_row;
  sales_hdr : list sale_hdr;
  sale_lines : list sale_line;
}.

(** ** Sources of randomness *)

(** The module [random]: an arbitrary sequence of raw draws and the number
    of draws taken. *)
Record rng := {
  draws : nat → nat;
  drawn : nat;
}.

Definition R (A : Type) : Type := rng → result (A * rng).

#[export] Instance R_ret : MRet R := λ A x g, inr (x, g).
#[export] Instance R_bind : MBind R := λ A B f m g,
  match m g with
  | inl e => inl e
  | inr (a, g') => f a g'
  end.

Definition draw : R nat := λ g,
  inr (draws g (drawn g), {| draws := draws g; drawn := S (drawn g) |}).

Definition raise {A} (e : exn) : R A := λ _, inl e.

Definition lift {A} (r : result A) : R A := λ g,
  match r with
  | inl e => inl e
  | inr a => inr (a, g)
  end.

(** [random.choice(seq)] *)
Definition choice {A} (l : list A) : R A :=
  match l with
  | [] => raise IndexError
  | _ :: _ => d ← draw; lift (getindex l (d mod length l))
  end.

(** [random.randint(a, b)] *)
Definition randint (a b : Z) : R Z :=
  if (b <? a)%Z then raise ValueError
  else d ← draw; mret (a + Z.of_nat d `mod` (b - a + 1))%Z.

(** [random.uniform(a, b)] *)
Definition random_uniform (a b : Z) : R num :=
  d ← draw; mret (uniform a b d).

(** [random.sample(population, k)]: [k] elements at distinct positions. *)
Fixpoint sample_from {A} (pool : list A) (k : nat) : R (list A) :=
  match k with
  | 0 => mret []
  | S k' =>
      d ← draw;
      let j := d mod length pool in
      x ← lift (getindex pool j);
      rest ← sample_from (delete j pool) k';
      mret (x :: rest)
  end.

Definition sample {A} (population : list A) (k : nat) : R (list A) :=
  if length population <? k then raise ValueError
  else sample_from population k.

(** [Faker("es_MX")]: the n-th value returned by each provider method;
    [unique_word_title n] is the n-th [fake.unique.word().title()]. *)
Record faker := {
  unique_word_title : nat → string;
  unique_catch_phrase : nat → string;
  company : nat → string;
  address : nat → string;
  first_name : nat → string;
  last_name : nat → string;
  email : nat → string;
}.

(** [a % b] on non-negative integers. *)
Definition pymod (a b : nat) : result nat :=
  match b with
  | 0 => inl ZeroDivisionError
  | S _ => inr (a mod b)
  end.

Section Generators.
Variable cfg : config.
Variable fake : faker.
(** [numpy.random.zipf(a=2.0, size=SALES)]: the i-th sample. *)
Variable zipf : nat → nat.

(** ** Catalog generation, the same statements in both generators *)

Definition gen_categories : list (nat * string) :=
  (λ i, (i + 1, unique_word_title fake i)) <$> seq 0 (CATEGORIES cfg).

Definition gen_products (categories : list (nat * string)) : R (list product) :=
  mapM (λ i,
    price ← random_uniform 5 1000;
    cat ← choice categories;
    mret {| product_id := i + 1; p_name := unique_catch_phrase fake i;
            p_price := round2 price; p_category_id := cat.1 |})
    (seq 0 (PRODUCTS cfg)).

Definition gen_stores : list store :=
  (λ i, {| store_id := i + 1; s_name := company fake i;
           s_address := replace_char "010" ", " (address fake i) |})
    <$> seq 0 (STORES cfg).

Definition positions : list string := ["Cajero"; "Vendedor"; "Gerente"].

Definition gen_employees : R (list employee) :=
  mapM (λ i,
    position ← choice positions;
    r ← lift (pymod (i + 1) (STORES cfg));
    mret {| employee_id := i + 1; e_first_name := first_name fake i;
            e_last_name := last_name fake i; e_position := position;
            e_store_id := r + 1 |})
    (seq 0 (EMPLOYEES cfg)).

(** The customers are generated after the employees, so their names are
    the next values of [fake.first_name()] and [fake.last_name()]. *)
Definition gen_customers : list customer :=
  (λ i, {| customer_id := i + 1;
           c_first_name := first_name fake (EMPLOYEES cfg + i);
           c_last_name := last_name fake (EMPLOYEES cfg + i);
           c_email := email fake i |})
    <$> seq 0 (CUSTOMERS cfg).

Definition gen_inventory (stores : list store) (products : list product)
    : R (list inventory_row) :=
  foldM (λ inventory st,
    chosen ← sample products (PRODUCTS cfg / 2);
    rows ← mapM (λ prod,
      quantity ← randint 0 200;
      mret {| i_store_id := store_id st; i_product_id := product_id prod;
              i_quantity := quantity |}) chosen;
    mret (inventory ++ rows)) [] stores.

(** [rand_dt] / [random_date] *)
Definition rand_dt : R Z := randint 0 PERIOD.

(** [zipf(a=2.0, size=SALES) % CUSTOMERS] at index [i]. *)
Definition zipf_ids (i : nat) : nat := zipf i mod CUSTOMERS cfg.

(** The lines of one sale: [for line_num, prod in enumerate(chosen, start=1)]. *)
Definition gen_line (sale_id : nat) (acc : list sale_line * num)
    (item : nat * product) : R (list sale_line * num) :=
  let '(lines, total) := acc in
  let '(line_num, prod) := item in
  qty ← randint 1 5;
  let line_total := round2 (num_mul_int (p_price prod) qty) in
  mret (lines ++ [{| l_sale_id := sale_id; l_line_number := line_num;
                     l_product_id := product_id prod; l_quantity := qty;
                     l_unit_price := p_price prod; l_line_total := line_total |}],
        num_add total line_total).

Definition gen_lines (sale_id : nat) (sale_lines : list sale_line)
    (chosen : list product) : R (list sale_line * num) :=
  foldM (gen_line sale_id) (sale_lines, num_zero)
    (zip (seq 1 (length chosen)) chosen).

(** ** The sales loop of json/generator.py *)

Definition json_gen_sale (b : base_data) (acc : list sale_hdr * list sale_line)
    (sale_id : nat) : R (list sale_hdr * list sale_line) :=
  let '(sales_hdr, sale_lines) := acc in
  st ← choice (stores b);
  emp ← choice (filter (λ e, e_store_id e = store_id st) (employees b));
  cust ← lift (getindex (customers b) (zipf_ids (sale_id - 1)));
  n_lines ← randint (Z.of_nat (MIN_LINES cfg)) (Z.of_nat (MAX_LINES cfg));
  chosen ← sample (products b) (Z.to_nat n_lines);
  '(sale_lines, total) ← gen_lines sale_id sale_lines chosen;
  ts ← rand_dt;
  mret (sales_hdr ++ [{| h_sale_id := sale_id; h_timestamp := ts;
                         h_customer_id := customer_id cust;
                         h_store_id := store_id st;
                         h_employee_id := employee_id emp;
                         h_total_amount := round2 total |}],
        sale_lines).

(** ** The sales loop of sql/generator.py *)

Definition sql_gen_sale (b : base_data) (acc : nat * list sale_hdr * list sale_line)
    (i : nat) : R (nat * list sale_hdr * list sale_line) :=
  let '(next_sale_id, sales, sale_lines) := acc in
  let sale_id := next_sale_id in
  let next_sale_id := next_sale_id + 1 in
  sale_timestamp ← rand_dt;
  st ← choice (stores b);
  let employees_in_store := filter (λ e, e_store_id e = store_id st) (employees b) in
  emp ← choice employees_in_store;
  cust ← lift (getindex (customers b) (zipf_ids i));
  n_lines ← randint (Z.of_nat (MIN_LINES cfg)) (Z.of_nat (MAX_LINES cfg));
  products_in_sale ← sample (products b) (Z.to_nat n_lines);
  '(sale_lines, total_amount) ← gen_lines sale_id sale_lines products_in_sale;
  let total_amount := round2 total_amount in
  mret (next_sale_id,
        sales ++ [{| h_sale_id := sale_id; h_timestamp := sale_timestamp;
                     h_customer_id := customer_id cust;
                     h_store_id := store_id st;
                     h_employee_id := employee_id emp;
                     h_total_amount := total_amount |}],
        sale_lines).

(** ** The two generators, up to the data they hold before writing files *)

Definition gen_catalog : R base_data :=
  let categories := gen_categories in
  products ← gen_products categories;
  let stores := gen_stores in
  employees ← gen_employees;
  let customers := gen_customers in
  inventory ← gen_inventory stores products;
  mret {| categories := categories; products := products; stores := stores;
          employees := employees; customers := customers;
          inventory := inventory; sales_hdr := []; sale_lines := [] |}.

Definition with_sales (b : base_data) (hdr : list sale_hdr) (lines : list sale_line)
    : base_data :=
  {| categories := categories b; products := products b; stores := stores b;
     employees := employees b; customers := customers b;
     inventory := inventory b; sales_hdr := hdr; sale_lines := lines |}.

Definition json_generator : R base_data :=
  b ← gen_catalog;
  '(hdr, lines) ← foldM (json_gen_sale b) ([], []) (seq 1 (SALES cfg));
  mret (with_sales b hdr lines).

Definition sql_generator : R base_data :=
  b ← gen_catalog;
  '(_, hdr, lines) ← foldM (sql_gen_sale b) (1, [], []) (seq 0 (SALES cfg));
  mret (with_sales b hdr lines).

End Generators.

(** ** Building the documents (json/generator.py) *)

(** A dict comprehension [{k: v for ...}]: a later pair replaces an
    earlier one with the same key. *)
Definition dict_of `{Countable K} {V} (pairs : list (K * V)) : gmap K V :=
  foldl (λ d kv, <[kv.1 := kv.2]> d) ∅ pairs.

(** [lines_by_sale.setdefault(line["sale_id"], []).append(line)] *)
Definition group_lines (sale_lines : list sale_line) : gmap nat (list sale_line) :=
  foldl (λ d line,
    <[l_sale_id line := default [] (d !! l_sale_id line) ++ [line]]> d) ∅ sale_lines.

Section Build_documents.
(** [dt.strftime("%Y-%m-%dT%H:%M:%SZ")] *)
Variable strftime : Z → string.
Variable b : base_data.

Definition mongo_date (dt : Z) : timestamp := TsDate (strftime dt).

Definition cat_by_id : gmap nat string := dict_of (categories b).
Definition prod_by_id : gmap nat product :=
  dict_of ((λ p, (product_id p, p)) <$> products b).
Definition emp_by_id : gmap nat employee :=
  dict_of ((λ e, (employee_id e, e)) <$> employees b).
Definition store_by_id : gmap nat store :=
  dict_of ((λ s, (store_id s, s)) <$> stores b).
Definition cust_by_id : gmap nat customer :=
  dict_of ((λ c, (customer_id c, c)) <$> customers b).
Definition lines_by_sale : gmap nat (list sale_line) := group_lines (sale_lines b).

(** The embedded ["product"] of an inventory entry or of a sale line. *)
Definition embed_product (pid : nat) : result product_doc :=
  pr ← getitem "prod_by_id" prod_by_id pid;
  category ← getitem "cat_by_id" cat_by_id (p_category_id pr);
  mret {| pd_name := p_name pr; pd_category := category; pd_price := p_price pr |}.

Definition build_store_doc (st : store) : result store_doc :=
  inv_embedded ← mapM (λ inv,
      prod ← embed_product (i_product_id inv);
      mret {| inv_product := prod; inv_quantity := i_quantity inv |})
    (filter (λ i, i_store_id i = store_id st) (inventory b));
  let emp_embedded :=
    (λ e, {| ed_first_name := e_first_name e; ed_last_name := e_last_name e;
             ed_position := Some (e_position e) |})
      <$> filter (λ e, e_store_id e = store_id st) (employees b) in
  mret {| sd_store_name := s_name st; sd_address := Some (s_address st);
          sd_employees := Some emp_embedded; sd_inventory := Some inv_embedded |}.

Definition store_docs : result (list store_doc) := mapM build_store_doc (stores b).

Definition build_sale_doc (sh : sale_hdr) : result sale_doc :=
  st ← getitem "store_by_id" store_by_id (h_store_id sh);
  emp ← getitem "emp_by_id" emp_by_id (h_employee_id sh);
  cust ← getitem "cust_by_id" cust_by_id (h_customer_id sh);
  lines ← getitem "lines_by_sale" lines_by_sale (h_sale_id sh);
  embedded_lines ← mapM (λ ln,
      prod ← embed_product (l_product_id ln);
      mret {| ld_product := prod; ld_quantity := l_quantity ln;
              ld_line_total := l_line_total ln |}) lines;
  mret {| sl_timestamp := mongo_date (h_timestamp sh);
          sl_store_name := s_name st;
          sl_emp_first_name := e_first_name emp;
          sl_emp_last_name := e_last_name emp;
          sl_customer := {| cd_first_name := c_first_name cust;
                            cd_last_name := c_last_name cust;
                            cd_email := c_email cust |};
          sl_lines := embedded_lines;
          sl_total_amount := h_total_amount sh |}.

Definition sale_docs : result (list sale_doc) := mapM build_sale_doc (sales_hdr b).


End Build_documents.

(** ** Reading the rows issued to PostgreSQL *)

(** The rows copied into [table], oldest first. *)
Definition rows_of (table : string) (calls : list event) : list (list pyval) :=
  flat_map (λ ev,
    match ev with
    | PgCopy t _ rows => if decide (t = table) then rows else []
    | _ => []
    end) calls.

(** The value a row carries in one of the columns of its COPY. *)
Fixpoint field (columns : list string) (row : list pyval) (column : string)
    : option pyval :=
  match columns, row with
  | c :: columns', v :: row' =>
      if decide (c = column) then Some v else field columns' row' column
  | _, _ => None
  end.

(** The values of [column] over the rows copied into [table]. *)
Definition inserted (table column : string) (calls : list event) : list pyval :=
  flat_map (λ ev,
    match ev with
    | PgCopy t columns rows =>
        if decide (t = table)
        then omap (λ row, field columns row column) rows
        else []
    | _ => []
    end) calls.

(** Every row that a call copies into [table] carries in [column] a value
    that [earlier] calls inserted into [rtable] as [rcolumn]. *)
Definition references (table column rtable rcolumn : string)
    (earlier : list event) (ev : event) : Prop :=
  match ev with
  | PgCopy t columns rows =>
      t = table →
      ∀ row, row ∈ rows →
        ∃ v, field columns row column = Some v ∧ v ∈ inserted rtable rcolumn earlier
  | _ => True
  end.

(** The references of the sale lines and of the sales. *)
Definition refs_ok (earlier : list event) (ev : event) : Prop :=
  references "saleline" "product_id" "product" "product_id" earlier ev ∧
  references "sale" "customer_id" "customer" "customer_id" earlier ev ∧
  references "sale" "store_id" "store" "store_id" earlier ev ∧
  references "sale" "employee_id" "employee" "employee_id" earlier ev.

(** Referential integrity of a sequence of calls: each call only refers to
    rows inserted by the calls before it. *)
Definition integral (calls : list event) : Prop :=
  ∀ earlier ev later, calls = earlier ++ ev :: later → refs_ok earlier ev.

(** Every id held by the dictionaries of the catalog loop has been
    inserted as the key of a row of its table. *)
Definition maps_inserted (v : catalog_vars) (h : list event) : Prop :=
  (∀ n p, product_map v !! n = Some p → VId p ∈ inserted "product" "product_id" h) ∧
  (∀ n s, store_map v !! n = Some s → VId s ∈ inserted "store" "store_id" h) ∧
  (∀ k e, employee_map v !! k = Some e → VId e ∈ inserted "employee" "employee_id" h).

Definition customers_inserted (sv : sales_vars) (h : list event) : Prop :=
  ∀ em c, customers_map sv !! em = Some c →
    VId c ∈ inserted "customer" "customer_id" h.


(** ** What the catalog loop is expected to insert *)

(** The entries of a list in the order in which each key is first met. *)
Definition first_by {A} (key : A → string) (l : list A) : list A :=
  foldl (λ acc x, if decide (key x ∈ key <$> acc) then acc else acc ++ [x]) [] l.

(** The number given to the k-th name of a list is [k], counting from 1. *)
Fixpoint number_of {A} `{EqDecision A} (names : list A) (n : A) : nat :=
  match names with
  | [] => 0
  | x :: rest => if decide (x = n) then 1 else S (number_of rest n)
  end.

(** A dictionary that numbers [names] in order. *)
Definition numbers (m : gmap string nat) (names : list string) : Prop :=
  ∀ n, m !! n = if decide (n ∈ names) then Some (number_of names n) else None.

(** The store_id of the document that follows the documents [ds]: one
    more than the number of distinct store names among them. *)
Definition store_id_at (ds : list store_doc) : nat :=
  size (list_to_set (sd_store_name <$> ds) : gset string) + 1.

(** Every document with the store_id it receives. *)
Definition tagged (ds : list store_doc) : list (nat * store_doc) :=
  imap (λ k d, (store_id_at (take k ds), d)) ds.

Definition all_employees (tds : list (nat * store_doc)) : list (nat * employee_doc) :=
  flat_map (λ td, (λ e, (td.1, e)) <$> default [] (sd_employees td.2)) tds.

Definition all_inventory (tds : list (nat * store_doc)) : list (nat * inventory_doc) :=
  flat_map (λ td, (λ i, (td.1, i)) <$> default [] (sd_inventory td.2)) tds.

(** The embedded products of inventory entries, in order. *)
Definition products_in (tis : list (nat * inventory_doc)) : list product_doc :=
  (λ ti, inv_product ti.2) <$> tis.

Definition category_names (prods : list product_doc) : list string :=
  first_seen (pd_category <$> prods).

Definition first_products (prods : list product_doc) : list product_doc :=
  first_by pd_name prods.

Definition store_row (td : nat * store_doc) : list pyval :=
  [VId td.1; VStr (sd_store_name td.2); VStr (default "" (sd_address td.2))].

Definition employee_row (i : nat) (te : nat * employee_doc) : list pyval :=
  [VId (S i); VStr (ed_first_name te.2); VStr (ed_last_name te.2);
   VStr (default "" (ed_position te.2)); VId te.1].

Definition category_row (k : nat) (n : string) : list pyval :=
  [VId (S k); VStr n].

Definition product_row (cats : list string) (k : nat) (p : product_doc) : list pyval :=
  [VId (S k); VStr (pd_name p); VNum (pd_price p); VId (number_of cats (pd_category p))].

Definition inventory_row_of (prods : list string) (ti : nat * inventory_doc)
    : list pyval :=
  [VId ti.1; VId (number_of prods (pd_name (inv_product ti.2)));
   VInt (inv_quantity ti.2)].

Definition customer_row (k : nat) (c : customer_doc) : list pyval :=
  [VId (S k); VStr (cd_first_name c); VStr (cd_last_name c); VStr (cd_email c)].

(** The state of the catalog loop: the rows issued so far and the
    variables, once the loop has inserted the stores [tds], the employees
    [tes] and the inventory entries [tis] (each with the store_id of its
    document), has looked up the categories of the products [pc] and the
    names of the products [pp]. *)
Record catalog_inv (tds : list (nat * store_doc)) (tes : list (nat * employee_doc))
    (pc pp : list product_doc) (tis : list (nat * inventory_doc))
    (h : list event) (v : catalog_vars) : Prop := {
  ci_pp_pc : pp ⊆ pc;
  ci_tis_pp : products_in tis ⊆ pp;
  ci_store_rows : rows_of "store" h = store_row <$> tds;
  ci_store_map : store_map v = dict_of ((λ td, (sd_store_name td.2, td.1)) <$> tds);
  ci_employee_rows : rows_of "employee" h = imap employee_row tes;
  ci_next_emp : next_emp v = S (length tes);
  ci_employee_map :
    employee_map v =
      dict_of (imap (λ i te, ((ed_first_name te.2, ed_last_name te.2, te.1), S i)) tes);
  ci_category_rows : rows_of "category" h = imap category_row (category_names pc);
  ci_next_cat : next_cat v = S (length (category_names pc));
  ci_category_map : numbers (category_map v) (category_names pc);
  ci_product_rows :
    rows_of "product" h = imap (product_row (category_names pc)) (first_products pp);
  ci_next_prod : next_prod v = S (length (first_products pp));
  ci_product_map : numbers (product_map v) (pd_name <$> first_products pp);
  ci_inventory_rows :
    rows_of "inventory" h = inventory_row_of (pd_name <$> first_products pp) <$> tis;
  ci_no_customer : rows_of "customer" h = [];
  ci_no_sale : rows_of "sale" h = [];
  ci_no_saleline : rows_of "saleline" h = [];
}.

(** The state of the catalog loop between two documents. *)
Definition catalog_done (ds : list store_doc) (h : list event) (v : catalog_vars)
    : Prop :=
  catalog_inv (tagged ds) (all_employees (tagged ds))
    (products_in (all_inventory (tagged ds)))
    (products_in (all_inventory (tagged ds)))
    (all_inventory (tagged ds)) h v.

(** ** What the sales loop is expected to insert *)

(** The sale can resolve its store and its employee in the dictionaries
    of the catalog loop. *)
Definition resolvable (v : catalog_vars) (sale : sale_doc) : Prop :=
  ∃ store_id employee_id,
    store_map v !! sl_store_name sale = Some store_id ∧
    employee_map v !! (sl_emp_first_name sale, sl_emp_last_name sale, store_id)
      = Some employee_id.

(** The lines whose product name has an entry in [product_map]. *)
Definition known_lines (v : catalog_vars) (lns : list line_doc) : list line_doc :=
  filter (λ ln, is_Some (product_map v !! pd_name (ld_product ln))) lns.

Definition first_customers (cs : list customer_doc) : list customer_doc :=
  first_by cd_email cs.

(** The state of the sales loop, which starts after the calls [h0]: the
    rows issued so far and the variables, once the loop has looked up the
    customers [cs], inserted the sales [ss] and gone through the lines
    [lns]. *)
Record sales_inv (v : catalog_vars) (h0 : list event) (cs : list customer_doc)
    (ss : list sale_doc) (lns : list line_doc) (h : list event) (sv : sales_vars)
    : Prop := {
  si_customer_rows : rows_of "customer" h = imap customer_row (first_customers cs);
  si_next_cust : next_cust sv = S (length (first_customers cs));
  si_customers_map : numbers (customers_map sv) (cd_email <$> first_customers cs);
  si_next_sale : next_sale sv = S (length ss);
  si_sale_rows : length (rows_of "sale" h) = length ss;
  si_saleline_rows : length (rows_of "saleline" h) = length (known_lines v lns);
  si_store_rows : rows_of "store" h = rows_of "store" h0;
  si_employee_rows : rows_of "employee" h = rows_of "employee" h0;
  si_category_rows : rows_of "category" h = rows_of "category" h0;
  si_product_rows : rows_of "product" h = rows_of "product" h0;
  si_inventory_rows : rows_of "inventory" h = rows_of "inventory" h0;
}.

(** The state of the sales loop between two sales. *)
Definition sales_done (v : catalog_vars) (h0 : list event) (ss : list sale_doc)
    (h : list event) (sv : sales_vars) : Prop :=
  sales_inv v h0 (sl_customer <$> ss) ss (flat_map sl_lines ss) h sv.

(** How the sales loop can end in an exception: at a sale that does not
    resolve, after its customer has been looked up. *)
Definition sales_stopped (v : catalog_vars) (h0 : list event)
    (sales_docs : list sale_doc) (h : list event) : Prop :=
  ∃ seen sale rest sv,
    sales_docs = seen ++ sale :: rest ∧
    ¬ resolvable v sale ∧
    sales_inv v h0 (sl_customer <$> (seen ++ [sale])) seen (flat_map sl_lines seen) h sv.

(** The embedded products of a catalog, in document order. *)
Definition catalog_products (catalog : list store_doc) : list product_doc :=
  flat_map (λ d, inv_product <$> default [] (sd_inventory d)) catalog.

(** The four paths in the order in which [main] runs them. *)
Definition all_paths (f : files) : M unit :=
  load_postgres_sql (SQL_FILE f);;
  load_postgres_from_json (DDL_FILE f) (CATALOG_JSON f) (SALES_JSON f);;
  load_mongo_catalog (CATALOG_JSON f);;
  load_mongo_sales (SALES_JSON f).

(** The sale lines whose product name occurs in the catalog. *)
Definition lines_in_catalog (catalog : list store_doc) (sales_docs : list sale_doc)
    : list line_doc :=
  filter (λ ln, pd_name (ld_product ln) ∈ pd_name <$> catalog_products catalog)
    (flat_map sl_lines sales_docs).

(** ** What the generators are expected to produce *)

(** The constants leave no store without an employee and allow every
    draw: there are categories, stores and customers to choose from and
    no sale asks for more lines than there are products. *)
Definition config_ok (cfg : config) : Prop :=
  0 < CATEGORIES cfg ∧ 0 < STORES cfg ∧ 0 < CUSTOMERS cfg ∧
  MIN_LINES cfg ≤ MAX_LINES cfg ∧ MAX_LINES cfg ≤ PRODUCTS cfg ∧
  Forall (λ s, s ∈ (λ i, (i + 1) mod STORES cfg + 1) <$> seq 0 (EMPLOYEES cfg))
    (seq 1 (STORES cfg)).

(** The employee of a sale works in the store of the sale. *)
Definition sold_by_store_employee (b : base_data) (h : sale_hdr) : Prop :=
  (∃ e, e ∈ employees b ∧ employee_id e = h_employee_id h) ∧
  ∀ e, e ∈ employees b → employee_id e = h_employee_id h →
    e_store_id e = h_store_id h.

(** The lines of a sale among [lines]. *)
Definition lines_of (lines : list sale_line) (h : sale_hdr) : list sale_line :=
  filter (λ l, l_sale_id l = h_sale_id h) lines.

(** [total = 0.0] followed by [total += line_total] for every line. *)
Definition running_total (lines : list sale_line) : num :=
  foldl num_add num_zero (l_line_total <$> lines).

(** A line holds the rounded product of its price and quantity. *)
Definition line_ok (sale_id : nat) (l : sale_line) : Prop :=
  l_sale_id l = sale_id ∧
  l_line_total l = round2 (num_mul_int (l_unit_price l) (l_quantity l)).

(** The amounts and the lines of a sale agree. *)
Definition well_totalled (cfg : config) (lines : list sale_line) (h : sale_hdr)
    : Prop :=
  h_total_amount h = round2 (running_total (lines_of lines h)) ∧
  Forall (line_ok (h_sale_id h)) (lines_of lines h) ∧
  MIN_LINES cfg ≤ length (lines_of lines h) ≤ MAX_LINES cfg ∧
  NoDup (l_product_id <$> lines_of lines h).

(** A computation that draws random numbers returns, whatever the
    draws, a value that satisfies [P]. *)
Definition yields {A} (m : R A) (P : A → Prop) : Prop :=
  ∀ g, ∃ a g', m g = inr (a, g') ∧ P a.

(** What the sales loops rely on in the catalog data. *)
Definition catalog_ok (cfg : config) (b : base_data) : Prop :=
  stores b ≠ [] ∧
  (∀ st, st ∈ stores b → filter (λ e, e_store_id e = store_id st) (employees b) ≠ []) ∧
  length (customers b) = CUSTOMERS cfg ∧
  length (products b) = PRODUCTS cfg ∧
  NoDup (product_id <$> products b) ∧
  NoDup (employee_id <$> employees b).

(** The state of a sales loop once it has generated the sales numbered
    [ids]: the headers carry these numbers, in order, every line belongs
    to one of them, and every sale generated so far is consistent. *)
Definition sales_ok (cfg : config) (b : base_data) (ids : list nat)
    (hdr : list sale_hdr) (lines : list sale_line) : Prop :=
  h_sale_id <$> hdr = ids ∧
  (∀ l, l ∈ lines → l_sale_id l ∈ ids) ∧
  ∀ h, h ∈ hdr →
    sold_by_store_employee b h ∧ well_totalled cfg lines h.

(** ** What renormalizing the base data is expected to give *)

(** Relational base data: the ids of a table are distinct, every
    reference resolves, every sale has lines and is made by an employee of
    its store. *)
Record base_ok (b : base_data) : Prop := {
  bo_categories : NoDup (categories b).*1;
  bo_products : NoDup (product_id <$> products b);
  bo_stores : NoDup (store_id <$> stores b);
  bo_employees : NoDup (employee_id <$> employees b);
  bo_customers : NoDup (customer_id <$> customers b);
  bo_product_category :
    ∀ p, p ∈ products b → p_category_id p ∈ (categories b).*1;
  bo_employee_store :
    ∀ e, e ∈ employees b → e_store_id e ∈ store_id <$> stores b;
  bo_inventory_store :
    ∀ i, i ∈ inventory b → i_store_id i ∈ store_id <$> stores b;
  bo_inventory_product :
    ∀ i, i ∈ inventory b → i_product_id i ∈ product_id <$> products b;
  bo_sale_store :
    ∀ h, h ∈ sales_hdr b → h_store_id h ∈ store_id <$> stores b;
  bo_sale_employee : ∀ h, h ∈ sales_hdr b → sold_by_store_employee b h;
  bo_sale_customer :
    ∀ h, h ∈ sales_hdr b → h_customer_id h ∈ customer_id <$> customers b;
  bo_sale_lines : ∀ h, h ∈ sales_hdr b → lines_of (sale_lines b) h ≠ [];
  bo_line_product :
    ∀ l, l ∈ sale_lines b → l_product_id l ∈ product_id <$> products b;
}.





Definition category_name (b : base_data) (cid : nat) : string :=
  default "" (cat_by_id b !! cid).

Definition product_name (b : base_data) (pid : nat) : string :=
  default "" (p_name <$> prod_by_id b !! pid).

(** A product as the documents embed it. *)
Definition product_doc_of (b : base_data) (p : product) : product_doc :=
  {| pd_name := p_name p; pd_category := category_name b (p_category_id p);
     pd_price := p_price p |}.

Definition product_doc_at (b : base_data) (pid : nat) : product_doc :=
  {| pd_name := product_name b pid;
     pd_category :=
       default "" (pr ← prod_by_id b !! pid; cat_by_id b !! p_category_id pr);
     pd_price := default num_zero (p_price <$> prod_by_id b !! pid) |}.

Definition customer_doc_of (c : customer) : customer_doc :=
  {| cd_first_name := c_first_name c; cd_last_name := c_last_name c;
     cd_email := c_email c |}.

Definition employee_doc_of (e : employee) : employee_doc :=
  {| ed_first_name := e_first_name e; ed_last_name := e_last_name e;
     ed_position := Some (e_position e) |}.

Definition inventory_doc_of (b : base_data) (i : inventory_row) : inventory_doc :=
  {| inv_product := product_doc_at b (i_product_id i);
     inv_quantity := i_quantity i |}.

(** The document of a store when all its lookups succeed. *)
Definition store_doc_of (b : base_data) (st : store) : store_doc :=
  {| sd_store_name := s_name st; sd_address := Some (s_address st);
     sd_employees :=
       Some (employee_doc_of
               <$> filter (λ e, e_store_id e = store_id st) (employees b));
     sd_inventory :=
       Some (inventory_doc_of b
               <$> filter (λ i, i_store_id i = store_id st) (inventory b)) |}.



(** A sale document carries the names of the store, the employee and the
    customer that its header refers to. *)
Definition sale_doc_for (b : base_data) (h : sale_hdr) (d : sale_doc) : Prop :=
  ∃ st e c,
    st ∈ stores b ∧ store_id st = h_store_id h ∧
    e ∈ employees b ∧ employee_id e = h_employee_id h ∧
    c ∈ customers b ∧ customer_id c = h_customer_id h ∧
    sl_store_name d = s_name st ∧
    sl_emp_first_name d = e_first_name e ∧
    sl_emp_last_name d = e_last_name e ∧
    sl_customer d = customer_doc_of c.

(** ** The calls issued to MongoDB *)

(** The documents that the collection [stores] holds after [calls]:
    [coll.drop()] empties the collection and [coll.insert_many(docs)] adds
    the documents after those it holds. *)
Definition stores_collection (calls : list event) : list store_doc :=
  foldl (λ held ev,
    match ev with
    | MongoDrop coll => if decide (coll = "stores") then [] else held
    | MongoInsertMany coll (CatalogDocs docs) =>
        if decide (coll = "stores") then held ++ docs else held
    | _ => held
    end) [] calls.

(** The documents that the collection [sales] holds after [calls]. *)
Definition sales_collection (calls : list event) : list sale_doc :=
  foldl (λ held ev,
    match ev with
    | MongoDrop coll => if decide (coll = "sales") then [] else held
    | MongoInsertMany coll (SalesDocs docs) =>
        if decide (coll = "sales") then held ++ docs else held
    | _ => held
    end) [] calls.


(** ** The text written by [copy_rows] and by sql/generator.py *)

Section Text.
(** [str(x)] of a float. *)
Variable str_float : num → string.
(** [value.strftime("%Y-%m-%d %H:%M:%S")] *)
Variable strftime_sql : Z → string.

(** [str(v)] of a value of a row. *)
Definition str (v : pyval) : string :=
  match v with
  | VInt z => pretty z
  | VStr s => s
  | VNum x => str_float x
  end.

(** The contents of [buffer] when [copy_rows] hands it to [copy_expert]:
    one [buffer.write("\t".join(str(v) for v in row) + "\n")] per row. *)
Definition copy_buffer (rows : list (list pyval)) : string :=
  foldl (λ buffer row, buffer +:+ String.concat tab (str <$> row) +:+ nl) "" rows.

(** Reading the buffer back: its lines without the empty text after the
    last newline, each split at the tabs. *)
Definition read_buffer (buffer : string) : list (list string) :=
  split "009" <$> removelast (split "010" buffer).

(** A value of a row of sql/generator.py. *)
Inductive sqlval :=
| SqlNone
| SqlStr (s : string)
| SqlDatetime (dt : Z)
| SqlInt (z : Z)
| SqlFloat (x : num).

(** [fmt_value(value)] *)
Definition fmt_value (value : sqlval) : string :=
  match value with
  | SqlNone => "NULL"
  | SqlStr s => "'" +:+ replace_char "'" "''" s +:+ "'"
  | SqlDatetime dt => "'" +:+ strftime_sql dt +:+ "'"
  | SqlInt z => pretty z
  | SqlFloat x => str_float x
  end.

(** [build_insert(table, columns, rows)] *)
Definition build_insert (table : string) (columns : list string)
    (rows : list (list sqlval)) : string :=
  let col_list := String.concat ", " columns in
  let values_parts :=
    (λ row, "(" +:+ String.concat ", " (fmt_value <$> row) +:+ ")") <$> rows in
  let values_block := String.concat ("," +:+ nl +:+ "    ") values_parts in
  "INSERT INTO " +:+ table +:+ " (" +:+ col_list +:+ ")" +:+ nl +:+ "VALUES" +:+ nl
    +:+ "    " +:+ values_block +:+ ";" +:+ nl.

(** [BATCH_SIZE] of sql/generator.py. *)
Definition BATCH_SIZE : nat := 1000.

(** [write_batches(data, table, columns)]: the texts written to the file,
    in order. *)
Definition write_batches (data : list (list sqlval)) (table : string)
    (columns : list string) : list string :=
  build_insert table columns <$> chunks data BATCH_SIZE.

End Text.

(** Reading a string literal the way PostgreSQL does with
    standard-conforming strings: after the opening quote two quotes stand
    for one quote and a single quote ends the literal.  Returns the string
    and the text that follows the literal. *)
Fixpoint read_literal_body (s : string) : option (string * string) :=
  match s with
  | EmptyString => None
  | String c rest =>
      if Ascii.eqb c "'" then
        match rest with
        | String c' rest' =>
            if Ascii.eqb c' "'"
            then (λ r, (String "'" r.1, r.2)) <$> read_literal_body rest'
            else Some (EmptyString, rest)
        | EmptyString => Some (EmptyString, EmptyString)
        end
      else (λ r, (String c r.1, r.2)) <$> read_literal_body rest
  end.

Definition read_literal (s : string) : option (string * string) :=
  match s with
  | String c rest => if Ascii.eqb c "'" then read_literal_body rest else None
  | EmptyString => None
  end.

(** ** The calls of [load_postgres_from_json], one by one *)

(** The tables with the columns that [load_postgres_from_json] names in
    its calls of [copy_rows]. *)
Definition table_columns : list (string * list string) :=
  [("store", ["store_id"; "name"; "address"]);
   ("employee", ["employee_id"; "first_name"; "last_name"; "position"; "store_id"]);
   ("category", ["category_id"; "name"]);
   ("product", ["product_id"; "name"; "price"; "category_id"]);
   ("inventory", ["store_id"; "product_id"; "quantity"]);
   ("customer", ["customer_id"; "first_name"; "last_name"; "email"]);
   ("sale", ["sale_id"; "sale_timestamp"; "customer_id"; "store_id"; "employee_id";
             "total_amount"]);
   ("saleline", ["sale_id"; "line_number"; "product_id"; "quantity"; "unit_price";
                 "line_total"])].

(** A COPY of a single row into one of these tables, with one value for
    every column. *)
Definition copies_one_row (ev : event) : Prop :=
  match ev with
  | PgCopy table columns [row] =>
      (table, columns) ∈ table_columns ∧ length row = length columns
  | _ => False
  end.

(** The sale names a store of the catalog and an employee that the
    document of this store lists. *)
Definition employed (catalog : list store_doc) (sale : sale_doc) : Prop :=
  ∃ d e,
    d ∈ catalog ∧ sd_store_name d = sl_store_name sale ∧
    e ∈ default [] (sd_employees d) ∧
    ed_first_name e = sl_emp_first_name sale ∧
    ed_last_name e = sl_emp_last_name sale.

(** ** The rows of the sales loop *)

(** The ids under which the catalog loop leaves the stores and the
    employees in [store_map] and [employee_map]: the id of the last
    document with a given store name, and the id of the last employee with
    a given name and store_id. *)
Definition store_ids (catalog : list store_doc) : gmap string nat :=
  dict_of ((λ td, (sd_store_name td.2, td.1)) <$> tagged catalog).

Definition employee_ids (catalog : list store_doc) : gmap (string * string * nat) nat :=
  dict_of (imap (λ i te, ((ed_first_name te.2, ed_last_name te.2, te.1), S i))
             (all_employees (tagged catalog))).

(** The product names of a catalog and the customer emails of a list of
    sales, each in the order of first occurrence. *)
Definition product_names (catalog : list store_doc) : list string :=
  pd_name <$> first_products (catalog_products catalog).

Definition customer_emails (sales : list sale_doc) : list string :=
  cd_email <$> first_customers (sl_customer <$> sales).

(** The sale finds its store and its employee in the dictionaries. *)
Definition resolves (stores : gmap string nat) (emps : gmap (string * string * nat) nat)
    (sale : sale_doc) : Prop :=
  ∃ store_id employee_id,
    stores !! sl_store_name sale = Some store_id ∧
    emps !! (sl_emp_first_name sale, sl_emp_last_name sale, store_id) = Some employee_id.

(** The row of the k-th sale, counting from 0. *)
Definition sale_row (stores : gmap string nat) (emps : gmap (string * string * nat) nat)
    (emails : list string) (k : nat) (sale : sale_doc) : list pyval :=
  let store_id := default 0 (stores !! sl_store_name sale) in
  [VId (S k); VStr (extract_ts (sl_timestamp sale));
   VId (number_of emails (cd_email (sl_customer sale)));
   VId store_id;
   VId (default 0 (emps !! (sl_emp_first_name sale, sl_emp_last_name sale, store_id)));
   VNum (sl_total_amount sale)].

(** The row of the j-th line, counting from 0, among the lines of a sale
    whose product is one of [prods]. *)
Definition saleline_row (prods : list string) (sale_id j : nat) (ln : line_doc)
    : list pyval :=
  [VId sale_id; VId (S j); VId (number_of prods (pd_name (ld_product ln)));
   VInt (ld_quantity ln); VNum (pd_price (ld_product ln)); VNum (ld_line_total ln)].

Definition saleline_rows (prods : list string) (k : nat) (sale : sale_doc)
    : list (list pyval) :=
  imap (saleline_row prods (S k))
    (filter (λ ln, pd_name (ld_product ln) ∈ prods) (sl_lines sale)).

(** The rows of sale and saleline once the sales loop has gone through
    the sales [ss]. *)
Record sale_rows_inv (v : catalog_vars) (prods : list string) (ss : list sale_doc)
    (h : list event) : Prop := {
  sr_resolved : Forall (resolvable v) ss;
  sr_sale_rows :
    rows_of "sale" h
      = imap (sale_row (store_map v) (employee_map v) (customer_emails ss)) ss;
  sr_saleline_rows : rows_of "saleline" h = concat (imap (saleline_rows prods) ss);
}.

(** ** What the generators give beyond consistent sales *)

(** The constants allow the catalog to be generated: products have a
    category to choose from and employees a store to be assigned to. *)
Definition catalog_config_ok (cfg : config) : Prop :=
  (PRODUCTS cfg = 0 ∨ 0 < CATEGORIES cfg) ∧ (EMPLOYEES cfg = 0 ∨ 0 < STORES cfg).

(** The keys of the catalog tables: every table numbers its rows from 1
    and every reference is the key of a row. *)
Record catalog_keys (cfg : config) (b : base_data) : Prop := {
  ck_categories : (categories b).*1 = seq 1 (CATEGORIES cfg);
  ck_products : product_id <$> products b = seq 1 (PRODUCTS cfg);
  ck_stores : store_id <$> stores b = seq 1 (STORES cfg);
  ck_employees : employee_id <$> employees b = seq 1 (EMPLOYEES cfg);
  ck_customers : customer_id <$> customers b = seq 1 (CUSTOMERS cfg);
  ck_product_category :
    ∀ p, p ∈ products b → p_category_id p ∈ (categories b).*1;
  ck_employee_store :
    ∀ e, e ∈ employees b → e_store_id e ∈ store_id <$> stores b;
  ck_employee_position : ∀ e, e ∈ employees b → e_position e ∈ positions;
  ck_inventory_store :
    ∀ i, i ∈ inventory b → i_store_id i ∈ store_id <$> stores b;
  ck_inventory_product :
    ∀ i, i ∈ inventory b → i_product_id i ∈ product_id <$> products b;
}.

(** The inventory: no store stocks a product twice, every store stocks
    half of the products and quantities lie between 0 and 200. *)
Record inventory_ok (cfg : config) (b : base_data) : Prop := {
  io_key : NoDup ((λ i, (i_store_id i, i_product_id i)) <$> inventory b);
  io_length : length (inventory b) = STORES cfg * (PRODUCTS cfg / 2);
  io_per_store :
    ∀ st, st ∈ stores b →
      length (filter (λ i, i_store_id i = store_id st) (inventory b))
        = PRODUCTS cfg / 2;
  io_quantity : ∀ i, i ∈ inventory b → (0 ≤ i_quantity i ≤ 200)%Z;
}.

(** A sale header lies in the period between [START_DATE] and
    [END_DATE], names a store, and carries the customer found at the
    index that the Zipf sample of the sale gives. *)
Definition header_ok (cfg : config) (zipf : nat → nat) (b : base_data) (h : sale_hdr)
    : Prop :=
  (0 ≤ h_timestamp h ≤ PERIOD)%Z ∧
  h_store_id h ∈ store_id <$> stores b ∧
  ∃ c, customers b !! zipf_ids cfg zipf (h_sale_id h - 1) = Some c ∧
       customer_id c = h_customer_id h.

(** A sale line sells between 1 and 5 units of a product at the price of
    the product. *)
Definition line_shape (b : base_data) (l : sale_line) : Prop :=
  (1 ≤ l_quantity l ≤ 5)%Z ∧
  ∃ p, p ∈ products b ∧ product_id p = l_product_id l ∧ p_price p = l_unit_price l.

(** The state of a sales loop once it has generated the sales numbered
    [ids]: beyond [sales_ok], the headers and the lines are well formed, no
    two lines share a sale_id and a line_number, and the lines of every
    sale are numbered from 1. *)
Definition sales_shape (cfg : config) (zipf : nat → nat) (b : base_data)
    (ids : list nat) (hdr : list sale_hdr) (lines : list sale_line) : Prop :=
  h_sale_id <$> hdr = ids ∧
  (∀ l, l ∈ lines → l_sale_id l ∈ ids) ∧
  Forall (header_ok cfg zipf b) hdr ∧
  Forall (line_shape b) lines ∧
  NoDup ((λ l, (l_sale_id l, l_line_number l)) <$> lines) ∧
  ∀ h, h ∈ hdr →
    l_line_number <$> lines_of lines h = seq 1 (length (lines_of lines h)).

(** Relational data: beyond [base_ok], no two inventory entries share a
    store and a product, no two sales share a sale_id, no two sale lines
    share a sale_id and a line_number, and every sale line belongs to a
    sale. *)
Record relational (b : base_data) : Prop := {
  rel_base : base_ok b;
  rel_inventory_key : NoDup ((λ i, (i_store_id i, i_product_id i)) <$> inventory b);
  rel_sale_key : NoDup (h_sale_id <$> sales_hdr b);
  rel_line_key : NoDup ((λ l, (l_sale_id l, l_line_number l)) <$> sale_lines b);
  rel_line_sale :
    ∀ l, l ∈ sale_lines b → l_sale_id l ∈ h_sale_id <$> sales_hdr b;
}.

(** ** Building the documents from any base data *)

(** The product can be embedded: [prod_by_id] has it and [cat_by_id] has
    its category. *)
Definition embeddable (b : base_data) (pid : nat) : Prop :=
  ∃ pr, prod_by_id b !! pid = Some pr ∧ is_Some (cat_by_id b !! p_category_id pr).

(** The lookups that the document of a sale makes all succeed. *)
Definition sale_embeddable (b : base_data) (h : sale_hdr) : Prop :=
  is_Some (store_by_id b !! h_store_id h) ∧
  is_Some (emp_by_id b !! h_employee_id h) ∧
  is_Some (cust_by_id b !! h_customer_id h) ∧
  lines_of (sale_lines b) h ≠ [] ∧
  ∀ ln, ln ∈ lines_of (sale_lines b) h → embeddable b (l_product_id ln).

(** The line of a sale as its document embeds it. *)
Definition line_doc_of (b : base_data) (ln : sale_line) : line_doc :=
  {| ld_product := product_doc_at b (l_product_id ln);
     ld_quantity := l_quantity ln; ld_line_total := l_line_total ln |}.

(** json/generator.py as a whole: the documents written to
    [CATALOG_FILE] and to [SALES_FILE]. *)
Definition json_main (cfg : config) (fake : faker) (zipf : nat → nat)
    (strftime : Z → string) : R (list store_doc * list sale_doc) :=
  b ← json_generator cfg fake zipf;
  store_docs ← lift (store_docs b);
  sale_docs ← lift (sale_docs strftime b);
  mret (store_docs, sale_docs).

(** The document of a sale when its lookups succeed. *)
Definition sale_doc_of_hdr (strftime : Z → string) (b : base_data) (h : sale_hdr)
    (d : sale_doc) : Prop :=
  ∃ st emp cust,
    store_by_id b !! h_store_id h = Some st ∧
    emp_by_id b !! h_employee_id h = Some emp ∧
    cust_by_id b !! h_customer_id h = Some cust ∧
    d = {| sl_timestamp := mongo_date strftime (h_timestamp h);
           sl_store_name := s_name st;
           sl_emp_first_name := e_first_name emp;
           sl_emp_last_name := e_last_name emp;
           sl_customer := customer_doc_of cust;
           sl_lines := line_doc_of b <$> lines_of (sale_lines b) h;
           sl_total_amount := h_total_amount h |}.

(** The [KeyError]s that building the sale documents can raise. *)
Definition sale_docs_errors : list exn :=
  [KeyError "store_by_id"; KeyError "emp_by_id"; KeyError "cust_by_id";
   KeyError "lines_by_sale"; KeyError "prod_by_id"; KeyError "cat_by_id"].

(** ** The script written by sql/generator.py *)

(** [DDL] *)
Definition DDL : string := "
-- ====================== DDL SECTION (PostgreSQL) =====================
CREATE TABLE Category (
    category_id INT PRIMARY KEY,
    name VARCHAR(100)
);

CREATE TABLE Product (
    product_id INT PRIMARY KEY,
    name VARCHAR(100),
    price DECIMAL(10,2),
    category_id INT REFERENCES Category(category_id)
);

CREATE TABLE Store (
    store_id INT PRIMARY KEY,
    name VARCHAR(100),
    address VARCHAR(200)
);

CREATE TABLE Employee (
    employee_id INT PRIMARY KEY,
    first_name VARCHAR(50),
    last_name VARCHAR(50),
    position VARCHAR(50),
    store_id INT REFERENCES Store(store_id)
);

CREATE TABLE Customer (
    customer_id INT PRIMARY KEY,
    first_name VARCHAR(50),
    last_name VARCHAR(50),
    email VARCHAR(100)
);

CREATE TABLE Inventory (
    store_id INT REFERENCES Store(store_id),
    product_id INT REFERENCES Product(product_id),
    quantity INT,
    PRIMARY KEY (store_id, product_id)
);

CREATE TABLE Sale (
    sale_id INT PRIMARY KEY,
    sale_timestamp TIMESTAMP,
    customer_id INT REFERENCES Customer(customer_id),
    store_id INT REFERENCES Store(store_id),
    employee_id INT REFERENCES Employee(employee_id),
    total_amount DECIMAL(12,2)
);

CREATE TABLE SaleLine (
    sale_id INT REFERENCES Sale(sale_id),
    line_number INT,
    product_id INT REFERENCES Product(product_id),
    quantity INT,
    unit_price DECIMAL(10,2),
    line_total DECIMAL(12,2),
    PRIMARY KEY (sale_id, line_number)
);

-- Simple performance indices
CREATE INDEX idx_sale_timestamp ON Sale(sale_timestamp);
CREATE INDEX idx_product_category ON Product(category_id);
-- ====================================================================
".

Section Sql_script.
Variable str_float : num → string.
Variable strftime_sql : Z → string.

(** The tuples of the eight tables as [write_batches] receives them. *)
Definition category_tuple (c : nat * string) : list sqlval :=
  [SqlInt (Z.of_nat c.1); SqlStr c.2].

Definition product_tuple (p : product) : list sqlval :=
  [SqlInt (Z.of_nat (product_id p)); SqlStr (p_name p); SqlFloat (p_price p);
   SqlInt (Z.of_nat (p_category_id p))].

Definition store_tuple (s : store) : list sqlval :=
  [SqlInt (Z.of_nat (store_id s)); SqlStr (s_name s); SqlStr (s_address s)].

Definition employee_tuple (e : employee) : list sqlval :=
  [SqlInt (Z.of_nat (employee_id e)); SqlStr (e_first_name e); SqlStr (e_last_name e);
   SqlStr (e_position e); SqlInt (Z.of_nat (e_store_id e))].

Definition customer_tuple (c : customer) : list sqlval :=
  [SqlInt (Z.of_nat (customer_id c)); SqlStr (c_first_name c); SqlStr (c_last_name c);
   SqlStr (c_email c)].

Definition inventory_tuple (i : inventory_row) : list sqlval :=
  [SqlInt (Z.of_nat (i_store_id i)); SqlInt (Z.of_nat (i_product_id i));
   SqlInt (i_quantity i)].

Definition sale_tuple (h : sale_hdr) : list sqlval :=
  [SqlInt (Z.of_nat (h_sale_id h)); SqlDatetime (h_timestamp h);
   SqlInt (Z.of_nat (h_customer_id h)); SqlInt (Z.of_nat (h_store_id h));
   SqlInt (Z.of_nat (h_employee_id h)); SqlFloat (h_total_amount h)].

Definition sale_line_tuple (l : sale_line) : list sqlval :=
  [SqlInt (Z.of_nat (l_sale_id l)); SqlInt (Z.of_nat (l_line_number l));
   SqlInt (Z.of_nat (l_product_id l)); SqlInt (l_quantity l);
   SqlFloat (l_unit_price l); SqlFloat (l_line_total l)].

(** The INSERT statements of the eight tables, in the order of the
    [write_batches] calls. *)
Definition sql_inserts (b : base_data) : list string :=
  let write_batches := write_batches str_float strftime_sql in
  write_batches (category_tuple <$> categories b) "Category" ["category_id"; "name"]
  ++ write_batches (product_tuple <$> products b) "Product"
       ["product_id"; "name"; "price"; "category_id"]
  ++ write_batches (store_tuple <$> stores b) "Store" ["store_id"; "name"; "address"]
  ++ write_batches (employee_tuple <$> employees b) "Employee"
       ["employee_id"; "first_name"; "last_name"; "position"; "store_id"]
  ++ write_batches (customer_tuple <$> customers b) "Customer"
       ["customer_id"; "first_name"; "last_name"; "email"]
  ++ write_batches (inventory_tuple <$> inventory b) "Inventory"
       ["store_id"; "product_id"; "quantity"]
  ++ write_batches (sale_tuple <$> sales_hdr b) "Sale"
       ["sale_id"; "sale_timestamp"; "customer_id"; "store_id"; "employee_id";
        "total_amount"]
  ++ write_batches (sale_line_tuple <$> sale_lines b) "SaleLine"
       ["sale_id"; "line_number"; "product_id"; "quantity"; "unit_price"; "line_total"].

(** The texts written to [SQL_FILE], in order. *)
Definition sql_file (b : base_data) : list string :=
  [DDL] ++ sql_inserts b ++ ["COMMIT;" +:+ nl].

(** sql/generator.py as a whole. *)
Definition sql_main (cfg : config) (fake : faker) (zipf : nat → nat)
    : R (list string) :=
  b ← sql_generator cfg fake zipf;
  mret (sql_file b).

End Sql_script.

(** The number of batches of [BATCH_SIZE] rows that [n] rows make. *)
Definition batches_of (n : nat) : nat := (n + 999) / 1000.

(** ** Transactions *)


Section Commits.
(** Whether a text that [cur.execute] runs holds a COMMIT statement, as
    PostgreSQL reads it. *)
Variable holds_commit : string → bool.



End Commits.



(** ** What COPY reads from the buffer *)








(** The [KeyError] of a product that cannot be embedded: that of
    [prod_by_id] when the product is missing, that of [cat_by_id] when
    the product is there and its category is missing. *)
Definition product_error (b : base_data) (pid : nat) (e : exn) : Prop :=
  (prod_by_id b !! pid = None ∧ e = KeyError "prod_by_id") ∨
  (∃ pr, prod_by_id b !! pid = Some pr ∧
         cat_by_id b !! p_category_id pr = None ∧ e = KeyError "cat_by_id").

(** The [KeyError] with which the document of the sale [h] fails: that
    of the first lookup that finds nothing, in the order of the source:
    the store, the employee, the customer, the lines of the sale and then,
    line by line, the product and its category. *)
Definition sale_error (b : base_data) (h : sale_hdr) (e : exn) : Prop :=
  match store_by_id b !! h_store_id h, emp_by_id b !! h_employee_id h,
        cust_by_id b !! h_customer_id h with
  | None, _, _ => e = KeyError "store_by_id"
  | Some _, None, _ => e = KeyError "emp_by_id"
  | Some _, Some _, None => e = KeyError "cust_by_id"
  | Some _, Some _, Some _ =>
      (lines_of (sale_lines b) h = [] ∧ e = KeyError "lines_by_sale") ∨
      ∃ before ln after,
        lines_of (sale_lines b) h = before ++ ln :: after ∧
        Forall (λ l, embeddable b (l_product_id l)) before ∧
        product_error b (l_product_id ln) e
  end.

(** ** Reasoning about computations *)

(** After the calls [h], the computation [m] either returns [a] with [Q]
    holding of the calls issued by then, or raises with [E] holding. *)
Definition after {A} (h : list event) (m : M A)
    (Q : list event → A → Prop) (E : list event → Prop) : Prop :=
  match m.2 with
  | inr a => Q (h ++ m.1) a
  | inl _ => E (h ++ m.1)
  end.

End Model.

(** ** Concrete data *)

(** A client that serves every call. *)
Definition never_fails : client (num:=Z) := λ _ _, None.

(** A client that refuses every COPY into store. *)
Definition refuses_stores : client (num:=Z) := λ _ ev,
  match ev with
  | PgCopy t _ _ => if decide (t = "store") then Some "duplicate key" else None
  | _ => None
  end.

Definition pen : product_doc Z :=
  {| pd_name := "pen"; pd_category := "office"; pd_price := 150%Z |}.

Definition ink : product_doc Z :=
  {| pd_name := "ink"; pd_category := "office"; pd_price := 990%Z |}.

(** A store with one employee that stocks pens. *)
Definition shop (name : string) : store_doc Z := {|
  sd_store_name := name;
  sd_address := Some "Calle 1";
  sd_employees :=
    Some [{| ed_first_name := "Ana"; ed_last_name := "Paz"; ed_position := None |}];
  sd_inventory := Some [{| inv_product := pen; inv_quantity := 3%Z |}];
|}.

(** A store document with only a name. *)
Definition bare (name : string) : store_doc Z := {|
  sd_store_name := name; sd_address := None;
  sd_employees := None; sd_inventory := None;
|}.

Definition catalog_repeated_name : list (store_doc Z) :=
  [bare "A"; bare "A"; bare "B"].

(** A sale of ink, which no store stocks, and of pens. *)
Definition sale_of_ink_and_pens : sale_doc Z := {|
  sl_timestamp := TsDate "2024-01-01T00:00:00Z";
  sl_store_name := "A";
  sl_emp_first_name := "Ana"; sl_emp_last_name := "Paz";
  sl_customer :=
    {| cd_first_name := "Luz"; cd_last_name := "Gil"; cd_email := "luz@example.org" |};
  sl_lines := [{| ld_product := ink; ld_quantity := 1%Z; ld_line_total := 990%Z |};
               {| ld_product := pen; ld_quantity := 2%Z; ld_line_total := 300%Z |}];
  sl_total_amount := 1290%Z;
|}.

Definition example_files : files := {|
  SQL_FILE := "CREATE TABLE Category (category_id INT PRIMARY KEY); COMMIT;";
  DDL_FILE := "CREATE TABLE Category (category_id INT PRIMARY KEY);";
  CATALOG_JSON := [shop "A"];
  SALES_JSON := [sale_of_ink_and_pens];
|}.

(** A world whose clock advances by one with every call served. *)
Definition example_world (fails : client) : world := {|
  inputs := example_files;
  client_fails := fails;
  clock := λ _ calls, Z.of_nat (length calls);
  ticks := 0;
  served := [];
  OUT_CSV := None;
|}.


(** Sources of names and of random numbers to run the generators on. *)
Definition example_faker : faker := {|
  unique_word_title := λ i, String (ascii_of_nat (65 + i)) "";
  unique_catch_phrase := λ i, String (ascii_of_nat (97 + i)) "";
  company := λ i, String (ascii_of_nat (65 + i)) " SA";
  address := λ _, "Calle 1";
  first_name := λ _, "Ana";
  last_name := λ _, "Paz";
  email := λ i, String (ascii_of_nat (97 + i)) "@example.org";
|}.

Definition example_zipf : nat → nat := λ i, i + 1.

Definition example_rng : rng := {| draws := λ i, 7 * i + 3; drawn := 0 |}.


(** A rendering of dates that ignores the instant. *)
Definition example_strftime : Z → string := λ _, "2024-01-01T00:00:00Z".


(** Amounts in cents are written as integers; dates are written as one
    fixed instant. *)
Definition example_str_float : Z → string := pretty.

Definition example_strftime_sql : Z → string := λ _, "2024-01-01 00:00:00".




(** * Properties *)

Section Properties.
Context `{NumOps num}.

#[local] Abbreviation product_doc := (product_doc num).
#[local] Abbreviation inventory_doc := (inventory_doc num).
#[local] Abbreviation store_doc := (store_doc num).
#[local] Abbreviation line_doc := (line_doc num).
#[local] Abbreviation sale_doc := (sale_doc num).
#[local] Abbreviation pyval := (pyval num).
#[local] Abbreviation event := (event num).
#[local] Abbreviation M := (M num).
#[local] Abbreviation client := (@client num).
#[local] Abbreviation files := (@files num).
#[local] Abbreviation world := (@world num).
#[local] Abbreviation product := (@product num).
#[local] Abbreviation sale_hdr := (@sale_hdr num).
#[local] Abbreviation sale_line := (@sale_line num).
#[local] Abbreviation base_data := (@base_data num).

Lemma after_ret {A} h (a : A) (Q : list event → A → Prop) E :
  Q h a → after h (mret a) Q E.
Proof. unfold after; simpl. by rewrite app_nil_r. Qed.

Lemma after_bind {A B} h (m : M A) (f : A → M B) Q E :
  after h m (λ h' a, after h' (f a) Q E) E → after h (m ≫= f) Q E.
Proof.
  destruct m as [es [e|a]]; unfold after; simpl; [done|].
  by rewrite app_assoc.
Qed.

Lemma after_call h ev (Q : list event → unit → Prop) E :
  Q (h ++ [ev]) tt → after h (call ev) Q E.
Proof. done. Qed.

Lemma after_raise_from {A} h (r : result A) (Q : list event → A → Prop) (E : list event → Prop) :
  match r with inr a => Q h a | inl _ => E h end → after h (raise_from r) Q E.
Proof. unfold after; simpl. rewrite app_nil_r. by destruct r. Qed.

Lemma after_mono {A} h (m : M A) (Q Q' : list event → A → Prop) (E E' : list event → Prop) :
  after h m Q E → (∀ h' a, Q h' a → Q' h' a) → (∀ h', E h' → E' h') →
  after h m Q' E'.
Proof. unfold after. destruct (m.2); eauto. Qed.

Lemma after_foldM {A S} (f : S → A → M S) (I : list A → list event → S → Prop) E l :
  (∀ seen a s h, I seen h s → after h (f s a) (I (seen ++ [a])) E) →
  ∀ seen s h, I seen h s → after h (foldM f s l) (I (seen ++ l)) E.
Proof.
  intros Hstep. induction l as [|a l IH]; intros seen s h HI; simpl.
  - apply after_ret. by rewrite app_nil_r.
  - apply after_bind. eapply after_mono; [by apply Hstep| |done].
    intros h' s' HI'. simpl. rewrite (cons_middle a seen l), app_assoc.
    by apply IH.
Qed.

Lemma copy_rows_one table columns (row : list pyval) :
  copy_rows table columns [row] = call (PgCopy (lower table) columns [row]).
Proof. done. Qed.

(** ** Executing calls *)

Lemma exec_calls_prefix (fails : client) todo :
  ∀ served0, ∃ done rest,
    todo = done ++ rest ∧
    (exec_calls fails served0 todo).1 = served0 ++ done ∧
    match (exec_calls fails served0 todo).2 with
    | None => rest = []
    | Some msg => ∃ ev rest', rest = ev :: rest' ∧ fails (served0 ++ done) ev = Some msg
    end.
Proof.
  induction todo as [|ev todo IH]; intros served0; simpl.
  - exists [], []. simpl. by rewrite app_nil_r.
  - destruct (fails served0 ev) as [msg|] eqn:Hf; simpl.
    + exists [], (ev :: todo). rewrite app_nil_r. split_and!; eauto.
    + destruct (IH (served0 ++ [ev])) as (done & rest & -> & Hd & Hr).
      exists (ev :: done), rest. rewrite Hd, <- app_assoc. split_and!; [done..|].
      destruct (exec_calls fails (served0 ++ [ev]) (done ++ rest)).2; [|done].
      by rewrite <- app_assoc in Hr.
Qed.

Lemma exec_prefix {A} (fails : client) served0 (m : M A) :
  ∃ done rest,
    m.1 = done ++ rest ∧
    (exec fails served0 m).1 = served0 ++ done ∧
    match (exec fails served0 m).2 with
    | inl (ClientError msg) =>
        (rest = [] ∧ m.2 = inl (ClientError msg)) ∨
        (∃ ev rest', rest = ev :: rest' ∧ fails (served0 ++ done) ev = Some msg)
    | r => rest = [] ∧ m.2 = r
    end.
Proof.
  destruct (exec_calls_prefix fails m.1 served0) as (done & rest & Hm & Hd & Hr).
  exists done, rest. unfold exec.
  destruct (exec_calls fails served0 m.1) as [served' [msg|]]; simpl in *.
  - split_and!; [done..|]. by right.
  - split_and!; [done..|]. destruct m.2 as [[]|]; auto.
Qed.

Lemma exec_all {A} (fails : client) served0 (m : M A) :
  (∀ earlier ev later, m.1 = earlier ++ ev :: later → fails (served0 ++ earlier) ev = None) →
  exec fails served0 m = (served0 ++ m.1, m.2).
Proof.
  intros Hok. unfold exec.
  destruct (exec_calls_prefix fails m.1 served0) as (done & rest & Hm & Hd & Hr).
  destruct (exec_calls fails served0 m.1) as [served' [msg|]]; simpl in *.
  - destruct Hr as (ev & rest' & -> & Hf). by rewrite (Hok _ _ _ Hm) in Hf.
  - subst rest. rewrite app_nil_r in Hm. by rewrite Hd, Hm.
Qed.

(** ** Rows and references *)

Lemma rows_of_app table (h h' : list event) :
  rows_of table (h ++ h') = rows_of table h ++ rows_of table h'.
Proof. unfold rows_of. by rewrite flat_map_app. Qed.

Lemma inserted_app table column (h h' : list event) :
  inserted table column (h ++ h') = inserted table column h ++ inserted table column h'.
Proof. unfold inserted. by rewrite flat_map_app. Qed.

Lemma inserted_mono table column (h h' : list event) v :
  v ∈ inserted table column h → v ∈ inserted table column (h ++ h').
Proof. rewrite inserted_app, elem_of_app. by left. Qed.

Lemma integral_nil : integral ([] : list event).
Proof. intros earlier ev later Heq. by destruct earlier. Qed.

Lemma integral_prefix (h h' : list event) : integral (h ++ h') → integral h.
Proof.
  intros Hi earlier ev later ->. apply (Hi earlier ev (later ++ h')).
  by rewrite <- app_assoc.
Qed.

Lemma integral_snoc (h : list event) ev :
  integral h → refs_ok h ev → integral (h ++ [ev]).
Proof.
  intros Hi Hev earlier ev' later Heq.
  destruct later as [|x later _] using rev_ind.
  - apply app_inj_tail in Heq as [-> ->]. done.
  - rewrite app_comm_cons, app_assoc in Heq.
    apply app_inj_tail in Heq as [-> _]. by apply (Hi earlier ev' later).
Qed.

Lemma maps_inserted_mono v (h h' : list event) :
  maps_inserted v h → maps_inserted v (h ++ h').
Proof.
  intros (Hp & Hs & He). split_and!; intros; apply inserted_mono; eauto.
Qed.

Lemma customers_inserted_mono sv (h h' : list event) :
  customers_inserted sv h → customers_inserted sv (h ++ h').
Proof. intros Hc em c Hl. apply inserted_mono. eauto. Qed.

(** ** Referential integrity of the JSON ingestion *)

Lemma refs_ok_other (h : list event) table columns rows :
  table ≠ "saleline" → table ≠ "sale" → refs_ok h (PgCopy table columns rows).
Proof. intros ??. repeat split; intros ?; congruence. Qed.

Lemma ingest_employee_integral s_id v emp (h : list event) :
  integral h → maps_inserted v h →
  after h (ingest_employee s_id v emp)
    (λ h' v', integral h' ∧ maps_inserted v' h') integral.
Proof.
  intros Hi (Hp & Hs & He). unfold ingest_employee.
  apply after_bind, after_call, after_ret. split.
  - apply integral_snoc; [done|]. by apply refs_ok_other.
  - split_and!; simpl.
    + intros. apply inserted_mono. eauto.
    + intros. apply inserted_mono. eauto.
    + intros k e [[<- <-]|[_ Hl]]%lookup_insert_Some.
      * rewrite inserted_app, elem_of_app. right. set_solver.
      * apply inserted_mono. eauto.
Qed.

Lemma ingest_category_integral v cat_name (h : list event) :
  integral h → maps_inserted v h →
  after h (ingest_category v cat_name)
    (λ h' v', integral h' ∧ maps_inserted v' h') integral.
Proof.
  intros Hi Hm. unfold ingest_category.
  destruct (category_map v !! cat_name); [by apply after_ret|].
  apply after_bind, after_raise_from.
  destruct (getitem _ _ _) as [e|cid]; [done|].
  apply after_bind, after_call, after_ret. split.
  - apply integral_snoc; [done|]. by apply refs_ok_other.
  - by apply (maps_inserted_mono v).
Qed.

Lemma ingest_product_integral v prod (h : list event) :
  integral h → maps_inserted v h →
  after h (ingest_product v prod)
    (λ h' v', integral h' ∧ maps_inserted v' h') integral.
Proof.
  intros Hi (Hp & Hs & He). unfold ingest_product.
  destruct (product_map v !! pd_name prod) eqn:Hl; [by apply after_ret|].
  apply after_bind, after_raise_from.
  destruct (getitem _ _ _) as [e|cid]; [done|].
  apply after_bind, after_call, after_ret. split.
  - apply integral_snoc; [done|]. by apply refs_ok_other.
  - split_and!; simpl.
    + intros n p [[<- <-]|[_ Hn]]%lookup_insert_Some.
      * rewrite inserted_app, elem_of_app. right. set_solver.
      * apply inserted_mono. eauto.
    + intros. apply inserted_mono. eauto.
    + intros. apply inserted_mono. eauto.
Qed.

Lemma ingest_inventory_integral s_id v inv (h : list event) :
  integral h → maps_inserted v h →
  after h (ingest_inventory s_id v inv)
    (λ h' v', integral h' ∧ maps_inserted v' h') integral.
Proof.
  intros Hi Hm. unfold ingest_inventory.
  apply after_bind. eapply after_mono; [by apply ingest_category_integral| |done].
  intros h1 v1 [Hi1 Hm1]. cbv beta.
  apply after_bind. eapply after_mono; [by apply ingest_product_integral| |done].
  intros h2 v2 [Hi2 Hm2]. cbv beta.
  apply after_bind, after_raise_from.
  destruct (getitem _ _ _) as [e|pid]; [done|].
  apply after_bind, after_call, after_ret. split.
  - apply integral_snoc; [done|]. by apply refs_ok_other.
  - by apply maps_inserted_mono.
Qed.

Lemma ingest_store_integral v doc (h : list event) :
  integral h → maps_inserted v h →
  after h (ingest_store v doc)
    (λ h' v', integral h' ∧ maps_inserted v' h') integral.
Proof.
  intros Hi (Hp & Hs & He). unfold ingest_store.
  apply after_bind, after_call, after_bind.
  eapply after_mono;
    [apply (after_foldM _ (λ _ h' v', integral h' ∧ maps_inserted v' h') integral) with (seen := [])| |done].
  - intros _ emp v' h' [??]. by apply ingest_employee_integral.
  - split.
    + apply integral_snoc; [done|]. by apply refs_ok_other.
    + split_and!; simpl.
      * intros. apply inserted_mono. eauto.
      * intros n s [[<- <-]|[_ Hn]]%lookup_insert_Some.
        -- rewrite inserted_app, elem_of_app. right. set_solver.
        -- apply inserted_mono. eauto.
      * intros. apply inserted_mono. eauto.
  - intros h1 v1 [Hi1 Hm1]. cbv beta.
    eapply after_mono;
      [apply (after_foldM _ (λ _ h' v', integral h' ∧ maps_inserted v' h') integral) with (seen := [])| |];
      [|done|done..].
    intros _ inv v' h' [??]. by apply ingest_inventory_integral.
Qed.

Lemma ingest_customer_integral sv c (h : list event) :
  integral h → customers_inserted sv h →
  after h (ingest_customer sv c)
    (λ h' sv', (integral h' ∧ customers_inserted sv' h' ∧
                is_Some (customers_map sv' !! cd_email c) ∧
                next_sale sv' = next_sale sv) ∧ ∃ es, h' = h ++ es) integral.
Proof.
  intros Hi Hc. unfold ingest_customer.
  destruct (customers_map sv !! cd_email c) eqn:Hl.
  { apply after_ret. split_and!; eauto. exists []. by rewrite app_nil_r. }
  apply after_bind, after_call, after_ret. split; [split_and!|by eexists].
  - apply integral_snoc; [done|]. by apply refs_ok_other.
  - intros em k. simpl. intros [[<- <-]|[_ Hn]]%lookup_insert_Some.
    + rewrite inserted_app, elem_of_app. right. set_solver.
    + apply inserted_mono. eauto.
  - simpl. rewrite lookup_insert_eq. eauto.
  - done.
Qed.

Lemma ingest_line_integral v sv sale_id line_no ln (h : list event) :
  integral h → maps_inserted v h → customers_inserted sv h →
  after h (ingest_line v sale_id line_no ln)
    (λ h' _, integral h' ∧ maps_inserted v h' ∧ customers_inserted sv h') integral.
Proof.
  intros Hi Hm Hc. unfold ingest_line.
  destruct (product_map v !! pd_name (ld_product ln)) as [prod_id|] eqn:Hl;
    [|by apply after_ret].
  apply after_bind, after_call, after_ret.
  split_and!; [|by apply maps_inserted_mono|by apply customers_inserted_mono].
  apply integral_snoc; [done|]. destruct Hm as (Hp & _).
  repeat split; intros Ht; try discriminate Ht.
  intros row ->%list_elem_of_singleton. eexists. split; [done|]. eauto.
Qed.

Lemma getitem_inr `{Countable K} {V} what (d : gmap K V) key v :
  getitem what d key = inr v ↔ d !! key = Some v.
Proof. unfold getitem. destruct (d !! key); split; congruence. Qed.

Lemma ingest_sale_integral v sv sale (h : list event) :
  integral h → maps_inserted v h → customers_inserted sv h →
  after h (ingest_sale v sv sale)
    (λ h' sv', integral h' ∧ maps_inserted v h' ∧ customers_inserted sv' h') integral.
Proof.
  intros Hi Hm Hc. unfold ingest_sale.
  apply after_bind. eapply after_mono; [by apply ingest_customer_integral| |done].
  intros h1 sv1 [(Hi1 & Hc1 & _ & _) [es ->]]. cbv beta.
  apply (maps_inserted_mono _ _ es) in Hm.
  apply after_bind, after_raise_from.
  destruct (getitem _ (store_map v) _) as [e|store_id] eqn:Hst; [done|].
  apply after_bind, after_raise_from.
  destruct (getitem _ (employee_map v) _) as [e|employee_id] eqn:Hemp; [done|].
  apply after_bind, after_raise_from.
  destruct (getitem "customers_map" _ _) as [e|cid] eqn:Hcid; [done|].
  apply getitem_inr in Hst, Hemp, Hcid. simpl in Hcid.
  apply after_bind, after_call, after_bind.
  assert (integral ((h ++ es) ++
    [PgCopy (lower "sale")
       ["sale_id"; "sale_timestamp"; "customer_id"; "store_id"; "employee_id"; "total_amount"]
       [[VId (next_sale sv1); VStr (extract_ts (sl_timestamp sale)); VId cid;
         VId store_id; VId employee_id; VNum (sl_total_amount sale)]]])) as Hi2.
  { apply integral_snoc; [done|]. destruct Hm as (Hp & Hs & He).
    repeat split; intros Ht; try discriminate Ht;
      intros row ->%list_elem_of_singleton; (eexists; split; [done|]); eauto. }
  eapply after_mono;
    [apply (after_foldM _
       (λ _ h' _, integral h' ∧ maps_inserted v h' ∧ customers_inserted sv1 h') integral)
       with (seen := [])| |done].
  - intros _ ln line_no h' (? & ? & ?). by apply ingest_line_integral.
  - split_and!; [done|by apply maps_inserted_mono|by apply customers_inserted_mono].
  - intros h2 _ (Hi3 & Hm3 & Hc3). cbv beta. by apply after_ret.
Qed.

Lemma after_calls {A} h (m : M A) (P : list event → Prop) :
  after h m (λ h' _, P h') P → P (h ++ m.1).
Proof. unfold after. by destruct m.2. Qed.

Lemma load_postgres_from_json_integral ddl_file (catalog : list store_doc)
    (sales_docs : list sale_doc) :
  integral (load_postgres_from_json ddl_file catalog sales_docs).1.
Proof.
  apply (after_calls [] _ integral). unfold load_postgres_from_json.
  apply after_bind, after_call, after_bind, after_call, after_bind.
  eapply after_mono;
    [apply (after_foldM _ (λ _ h' v', integral h' ∧ maps_inserted v' h') integral)
       with (seen := [])| |done].
  - intros _ doc v h [??]. by apply ingest_store_integral.
  - split.
    + do 2 (apply integral_snoc; [|done]). apply integral_nil.
    + split_and!; intros ?? Hl; simpl in Hl; by rewrite lookup_empty in Hl.
  - intros h1 v [Hi Hm]. cbv beta. apply after_bind.
    eapply after_mono;
      [apply (after_foldM _
         (λ _ h' sv', integral h' ∧ maps_inserted v h' ∧ customers_inserted sv' h')
         integral) with (seen := [])| |done].
    + intros _ sale sv h (? & ? & ?). by apply ingest_sale_integral.
    + split_and!; [done..|]. intros ?? Hl; simpl in Hl; by rewrite lookup_empty in Hl.
    + intros h2 sv (Hi2 & _ & _). cbv beta. apply after_call.
      apply integral_snoc; [done|]. done.
Qed.

(** C1. Whatever the client libraries do, the calls that
    [load_postgres_from_json] gets served keep referential integrity:
    every row copied into saleline carries a product_id that an earlier call
    of the run inserted into product, every row copied into sale carries a
    customer_id, store_id and employee_id that earlier calls inserted into
    customer, store and employee; and a sale line whose product name has
    no entry in [product_map] issues no call at all. *)
Theorem load_postgres_from_json_referential_integrity
    (fails : client) (served0 : list event) ddl_file (catalog : list store_doc)
    (sales_docs : list sale_doc) :
  (∃ issued,
     (exec fails served0 (load_postgres_from_json ddl_file catalog sales_docs)).1
       = served0 ++ issued ∧
     integral issued) ∧
  (∀ v sale_id line_no (ln : line_doc),
     product_map v !! pd_name (ld_product ln) = None →
     ingest_line v sale_id line_no ln = ([], inr line_no)).
Proof.
  split.
  - destruct (exec_prefix fails served0
      (load_postgres_from_json ddl_file catalog sales_docs)) as (done & rest & Hm & Hd & _).
    exists done. split; [done|].
    apply (integral_prefix done rest). rewrite <- Hm.
    apply load_postgres_from_json_integral.
  - intros v sale_id line_no ln Hl. unfold ingest_line. by rewrite Hl.
Qed.

(** ** The calls of a path *)

Lemma bind_calls {A B} (m : M A) (f : A → M B) :
  (m ≫= f).1 = m.1 ++ match m.2 with inr a => (f a).1 | inl _ => [] end.
Proof. destruct m as [es [e|a]]; simpl; [by rewrite app_nil_r|done]. Qed.

Lemma bind_outcome {A B} (m : M A) (f : A → M B) :
  (m ≫= f).2 = match m.2 with inr a => (f a).2 | inl e => inl e end.
Proof. by destruct m as [es [e|a]]. Qed.

Lemma Forall_bind {A B} (P : event → Prop) (m : M A) (f : A → M B) :
  Forall P m.1 → (∀ a, Forall P (f a).1) → Forall P (m ≫= f).1.
Proof.
  intros Hm Hf. rewrite bind_calls. apply Forall_app. split; [done|].
  destruct m.2; [constructor|apply Hf].
Qed.

Lemma Forall_foldM {A S} (P : event → Prop) (f : S → A → M S) l :
  (∀ s a, Forall P (f s a).1) → ∀ s, Forall P (foldM f s l).1.
Proof.
  intros Hf. induction l as [|a l IH]; intros s; simpl; [constructor|].
  by apply Forall_bind.
Qed.

Lemma Forall_raise_from {A} (P : event → Prop) (r : result A) :
  Forall P (raise_from (num:=num) r).1.
Proof. constructor. Qed.

Lemma Forall_ret {A} (P : event → Prop) (a : A) : Forall P (mret (M:=M) a).1.
Proof. constructor. Qed.

(** C10. [copy_rows] with no rows issues no COPY and returns: the calls
    served by the client are the same before and after. *)
Theorem copy_rows_empty_is_noop (fails : client) (served0 : list event) table columns :
  copy_rows (num:=num) table columns [] = ([], inr tt) ∧
  exec fails served0 (copy_rows table columns []) = (served0, inr tt).
Proof. done. Qed.

(** ** The benchmark driver *)

Lemma timed_perform_returns {A} label (fn : files → M A) w w' dt (r : A) :
  timed label (perform fn) w = (w', inr (dt, r)) →
  dt = num_sub (clock w (ticks w + 1) (served w ++ (fn (inputs w)).1))
               (clock w (ticks w) (served w)) ∧
  served w' = served w ++ (fn (inputs w)).1 ∧
  ticks w' = ticks w + 2 ∧
  clock w' = clock w ∧ client_fails w' = client_fails w ∧
  inputs w' = inputs w ∧ OUT_CSV w' = OUT_CSV w.
Proof.
  unfold timed, perform, perf_counter, mbind, W_bind, mret, W_ret. simpl.
  destruct (exec_prefix (client_fails w) (served w) (fn (inputs w)))
    as (done & rest & Hm & Hd & Hr).
  destruct (exec (client_fails w) (served w) (fn (inputs w))) as [served' [e|a]];
    [done|].
  simpl in *. intros [= <- <- <-]. simpl. destruct Hr as [-> _].
  rewrite app_nil_r in Hm. rewrite Hm, Hd.
  split_and!; try done. lia.
Qed.

(** C6. A run of [main] that reaches its end has run the four timed
    steps in order (SQL script to PostgreSQL, JSON to PostgreSQL, catalog
    and sales to MongoDB), every call of every step being served, and has
    written [ingest_times.csv]: the header row followed by one row per
    step, in execution order.  The duration of a step is the clock reading
    taken once all the calls of the step have been served minus the
    reading taken when none of them had been issued yet: the two readings
    bracket the step, and nothing but the step lies between them. *)
Theorem main_records_every_step w w' :
  main w = (w', inr tt) →
  let t := ticks w in
  let f := inputs w in
  let s0 := served w in
  let s1 := s0 ++ (load_postgres_sql (SQL_FILE f)).1 in
  let s2 :=
    s1 ++ (load_postgres_from_json (DDL_FILE f) (CATALOG_JSON f) (SALES_JSON f)).1 in
  let s3 := s2 ++ (load_mongo_catalog (CATALOG_JSON f)).1 in
  let s4 := s3 ++ (load_mongo_sales (SALES_JSON f)).1 in
  OUT_CSV w' = Some
    [ [VStr "step"; VStr "duration_seconds"];
      [VStr "postgres_sql"; VNum (num_sub (clock w (t + 1) s1) (clock w t s0))];
      [VStr "postgres_json"; VNum (num_sub (clock w (t + 3) s2) (clock w (t + 2) s1))];
      [VStr "mongo_catalog"; VNum (num_sub (clock w (t + 5) s3) (clock w (t + 4) s2))];
      [VStr "mongo_sales"; VNum (num_sub (clock w (t + 7) s4) (clock w (t + 6) s3))] ] ∧
  served w' = s4 ∧ ticks w' = t + 8.
Proof.
  unfold main. unfold mbind at 1, W_bind at 1.
  destruct (timed_load_postgres_sql w) as [w1 [e|[dt1 []]]] eqn:H1; [done|].
  unfold mbind at 1, W_bind at 1.
  destruct (timed_load_postgres_from_json w1) as [w2 [e|[dt2 []]]] eqn:H2; [done|].
  unfold mbind at 1, W_bind at 1.
  destruct (timed_load_mongo_catalog w2) as [w3 [e|[dt3 []]]] eqn:H3; [done|].
  unfold mbind at 1, W_bind at 1.
  destruct (timed_load_mongo_sales w3) as [w4 [e|[dt4 []]]] eqn:H4; [done|].
  unfold timed_load_postgres_sql, timed_load_postgres_from_json,
    timed_load_mongo_catalog, timed_load_mongo_sales in *.
  apply timed_perform_returns in H1 as (-> & Hs1 & Ht1 & Hc1 & _ & Hf1 & _).
  apply timed_perform_returns in H2 as (-> & Hs2 & Ht2 & Hc2 & _ & Hf2 & _).
  apply timed_perform_returns in H3 as (-> & Hs3 & Ht3 & Hc3 & _ & Hf3 & _).
  apply timed_perform_returns in H4 as (-> & Hs4 & Ht4 & Hc4 & _ & Hf4 & _).
  unfold write_csv. intros [= <-]. cbn [OUT_CSV served ticks].
  rewrite Hs4, Hs3, Hs2, Hs1, Hf3, Hf2, Hf1, Hc3, Hc2, Hc1, Ht4, Ht3, Ht2, Ht1.
  rewrite <- !Nat.add_assoc. done.
Qed.

(** ** First occurrences and numbering *)

Lemma first_seen_snoc {A} `{EqDecision A} (l : list A) x :
  first_seen (l ++ [x]) =
    if decide (x ∈ first_seen l) then first_seen l else first_seen l ++ [x].
Proof. unfold first_seen. by rewrite foldl_snoc. Qed.

Lemma first_seen_elem_of {A} `{EqDecision A} (l : list A) x :
  x ∈ first_seen l ↔ x ∈ l.
Proof.
  induction l as [|y l IH] using rev_ind; [done|].
  rewrite first_seen_snoc. case_decide; set_solver.
Qed.


Lemma first_seen_NoDup_id {A} `{EqDecision A} (l : list A) :
  NoDup l → first_seen l = l.
Proof.
  induction l as [|y l IH] using rev_ind; [done|].
  rewrite NoDup_app. intros (Hl & Hy & _). rewrite first_seen_snoc, IH by done.
  case_decide; [|done]. set_solver.
Qed.

Lemma first_by_snoc {A} (key : A → string) (l : list A) x :
  first_by key (l ++ [x]) =
    if decide (key x ∈ key <$> first_by key l) then first_by key l
    else first_by key l ++ [x].
Proof. unfold first_by. by rewrite foldl_snoc. Qed.

Lemma first_by_keys {A} (key : A → string) (l : list A) :
  key <$> first_by key l = first_seen (key <$> l).
Proof.
  induction l as [|y l IH] using rev_ind; [done|].
  rewrite fmap_app. simpl. rewrite first_seen_snoc, first_by_snoc, <- IH.
  case_decide; [done|]. by rewrite fmap_app.
Qed.

Lemma first_by_subseteq {A} (key : A → string) (l : list A) : first_by key l ⊆ l.
Proof.
  induction l as [|y l IH] using rev_ind; [done|].
  rewrite first_by_snoc. case_decide; set_solver.
Qed.

Lemma first_by_NoDup_id {A} (key : A → string) (l : list A) :
  NoDup (key <$> l) → first_by key l = l.
Proof.
  induction l as [|y l IH] using rev_ind; [done|].
  rewrite fmap_app, NoDup_app. intros (Hl & Hy & _).
  rewrite first_by_snoc, IH by done. case_decide; [|done].
  exfalso. apply (Hy (key y)); [done|]. simpl. set_solver.
Qed.

Lemma number_of_app {A} `{EqDecision A} (names l : list A) n :
  n ∈ names → number_of (names ++ l) n = number_of names n.
Proof.
  induction names as [|x names IH]; [by intros ?%elem_of_nil|].
  intros Hn. simpl. case_decide; [done|]. f_equal. apply IH. set_solver.
Qed.

Lemma number_of_snoc {A} `{EqDecision A} (names : list A) n :
  n ∉ names → number_of (names ++ [n]) n = S (length names).
Proof.
  induction names as [|x names IH]; intros Hn; simpl.
  - by rewrite decide_True.
  - rewrite decide_False by set_solver. f_equal. apply IH. set_solver.
Qed.


Lemma numbers_empty : numbers ∅ [].
Proof. intros n. rewrite lookup_empty. by rewrite decide_False by set_solver. Qed.

Lemma numbers_None m names x : numbers m names → m !! x = None ↔ x ∉ names.
Proof. intros Hm. rewrite (Hm x). case_decide; split; done. Qed.

Lemma numbers_Some m names x :
  numbers m names → x ∈ names → m !! x = Some (number_of names x).
Proof. intros Hm Hx. rewrite (Hm x). by rewrite decide_True. Qed.

Lemma numbers_insert m names x :
  numbers m names → x ∉ names →
  numbers (<[x := S (length names)]> m) (names ++ [x]).
Proof.
  intros Hm Hx n. destruct (decide (x = n)) as [->|Hne].
  - rewrite lookup_insert_eq, decide_True by set_solver. by rewrite number_of_snoc.
  - rewrite lookup_insert_ne, (Hm n) by done.
    destruct (decide (n ∈ names)) as [Hn|Hn].
    + rewrite decide_True by set_solver. by rewrite number_of_app.
    + rewrite decide_False by set_solver. done.
Qed.

Lemma dict_of_snoc `{Countable K} {V} (pairs : list (K * V)) k v :
  dict_of (pairs ++ [(k, v)]) = <[k := v]> (dict_of pairs).
Proof. unfold dict_of. by rewrite foldl_snoc. Qed.

Lemma dom_dict_of `{Countable K} {V} (pairs : list (K * V)) :
  dom (dict_of pairs) = (list_to_set pairs.*1 : gset K).
Proof.
  induction pairs as [|[k v] pairs IH] using rev_ind; [apply dom_empty_L|].
  rewrite dict_of_snoc, dom_insert_L, IH, fmap_app, list_to_set_app_L. simpl.
  set_solver.
Qed.

Lemma imap_snoc {A B} (f : nat → A → B) (l : list A) x :
  imap f (l ++ [x]) = imap f l ++ [f (length l) x].
Proof. rewrite imap_app. simpl. by rewrite Nat.add_0_r. Qed.

Lemma rows_of_snoc table (h : list event) t columns rows :
  rows_of table (h ++ [PgCopy t columns rows]) =
    rows_of table h ++ (if decide (t = table) then rows else []).
Proof. rewrite rows_of_app. simpl. by rewrite app_nil_r. Qed.

(** ** What the catalog loop inserts *)

Ltac lower_tables :=
  repeat match goal with
  | |- context [lower ?s] =>
      let t := eval vm_compute in (lower s) in change (lower s) with t
  end.

Ltac tables :=
  lower_tables; rewrite ?rows_of_snoc;
  repeat first [rewrite decide_True by reflexivity | rewrite decide_False by discriminate];
  rewrite ?app_nil_r.

Lemma ingest_employee_inv s_id v emp tds tes pc pp tis (h : list event) :
  catalog_inv tds tes pc pp tis h v →
  after h (ingest_employee s_id v emp)
    (λ h' v', catalog_inv tds (tes ++ [(s_id, emp)]) pc pp tis h' v') (λ _, False).
Proof.
  intros []. unfold ingest_employee.
  apply after_bind, after_call, after_ret.
  constructor; simpl; tables; try done.
  - rewrite imap_snoc, ci_employee_rows0, ci_next_emp0. done.
  - rewrite length_app, ci_next_emp0. simpl. lia.
  - rewrite imap_snoc, dict_of_snoc, ci_employee_map0, ci_next_emp0. done.
Qed.

Lemma category_names_snoc (pc : list product_doc) p :
  category_names (pc ++ [p]) =
    if decide (pd_category p ∈ category_names pc) then category_names pc
    else category_names pc ++ [pd_category p].
Proof. unfold category_names. rewrite fmap_app. simpl. apply first_seen_snoc. Qed.

Lemma category_names_elem_of (pc : list product_doc) p :
  p ∈ pc → pd_category p ∈ category_names pc.
Proof.
  intros Hp. apply first_seen_elem_of, list_elem_of_fmap. eauto.
Qed.

Lemma first_products_snoc (pp : list product_doc) p :
  first_products (pp ++ [p]) =
    if decide (pd_name p ∈ pd_name <$> first_products pp) then first_products pp
    else first_products pp ++ [p].
Proof. apply first_by_snoc. Qed.

Lemma first_products_elem_of (pp : list product_doc) p :
  p ∈ pp → pd_name p ∈ pd_name <$> first_products pp.
Proof.
  intros Hp. unfold first_products. rewrite first_by_keys.
  apply first_seen_elem_of, list_elem_of_fmap. eauto.
Qed.

Lemma product_rows_more_categories (pc pp : list product_doc) (l : list string) :
  pp ⊆ pc →
  imap (product_row (category_names pc ++ l)) (first_products pp) =
  imap (product_row (category_names pc)) (first_products pp).
Proof.
  intros Hsub. apply imap_ext. intros i p Hp%list_elem_of_lookup_2.
  unfold product_row. rewrite number_of_app; [done|].
  apply category_names_elem_of, Hsub. by apply (first_by_subseteq pd_name).
Qed.

Lemma ingest_category_inv v p tds tes pc pp tis (h : list event) :
  catalog_inv tds tes pc pp tis h v →
  after h (ingest_category v (pd_category p))
    (λ h' v', catalog_inv tds tes (pc ++ [p]) pp tis h' v') (λ _, False).
Proof.
  intros []. unfold ingest_category.
  destruct (category_map v !! pd_category p) as [cid|] eqn:Hl.
  - assert (pd_category p ∈ category_names pc) as Hin.
    { destruct (decide (pd_category p ∈ category_names pc)) as [|Hn]; [done|].
      apply (numbers_None _ _ _ ci_category_map0) in Hn. congruence. }
    apply after_ret.
    constructor; rewrite ?category_names_snoc, ?decide_True by done; try done.
    set_solver.
  - apply (numbers_None _ _ _ ci_category_map0) in Hl.
    apply after_bind, after_raise_from. unfold getitem. cbn [category_map].
    rewrite lookup_insert_eq.
    apply after_bind, after_call, after_ret.
    constructor; rewrite ?category_names_snoc, ?decide_False by done;
      simpl; tables; try done.
    + set_solver.
    + rewrite imap_snoc, ci_category_rows0, ci_next_cat0. done.
    + rewrite length_app, ci_next_cat0. simpl. lia.
    + rewrite ci_next_cat0. by apply numbers_insert.
    + by rewrite product_rows_more_categories.
Qed.

Lemma inventory_rows_more_products (pp : list product_doc)
    (tis : list (nat * inventory_doc)) (l : list string) :
  products_in tis ⊆ pp →
  inventory_row_of ((pd_name <$> first_products pp) ++ l) <$> tis =
  inventory_row_of (pd_name <$> first_products pp) <$> tis.
Proof.
  intros Hsub. apply list_fmap_ext. intros i ti Hti%list_elem_of_lookup_2.
  unfold inventory_row_of. rewrite number_of_app; [done|].
  apply first_products_elem_of, Hsub. unfold products_in.
  apply list_elem_of_fmap. eauto.
Qed.

Lemma ingest_product_inv v p tds tes pc pp tis (h : list event) :
  catalog_inv tds tes pc pp tis h v → p ∈ pc →
  after h (ingest_product v p)
    (λ h' v', catalog_inv tds tes pc (pp ++ [p]) tis h' v') (λ _, False).
Proof.
  intros [] Hp. unfold ingest_product.
  destruct (product_map v !! pd_name p) as [pid|] eqn:Hl.
  - assert (pd_name p ∈ pd_name <$> first_products pp) as Hin.
    { destruct (decide (pd_name p ∈ pd_name <$> first_products pp)) as [|Hn]; [done|].
      apply (numbers_None _ _ _ ci_product_map0) in Hn. congruence. }
    apply after_ret.
    constructor; rewrite ?first_products_snoc, ?decide_True by done; try done;
      set_solver.
  - apply (numbers_None _ _ _ ci_product_map0) in Hl.
    apply after_bind, after_raise_from. unfold getitem. cbn [category_map].
    rewrite (numbers_Some _ _ _ ci_category_map0) by by apply category_names_elem_of.
    apply after_bind, after_call, after_ret.
    constructor; rewrite ?first_products_snoc, ?decide_False by done;
      rewrite ?fmap_app; simpl; tables; try done.
    + set_solver.
    + set_solver.
    + rewrite imap_snoc, ci_product_rows0, ci_next_prod0. done.
    + rewrite length_app, ci_next_prod0. simpl. lia.
    + rewrite ci_next_prod0, <- (length_fmap pd_name). by apply numbers_insert.
    + by rewrite inventory_rows_more_products.
Qed.

Lemma products_in_snoc (tis : list (nat * inventory_doc)) ti :
  products_in (tis ++ [ti]) = products_in tis ++ [inv_product ti.2].
Proof. unfold products_in. by rewrite fmap_app. Qed.

Lemma ingest_inventory_inv s_id v inv tds tes tis (h : list event) :
  catalog_inv tds tes (products_in tis) (products_in tis) tis h v →
  after h (ingest_inventory s_id v inv)
    (λ h' v',
       catalog_inv tds tes (products_in (tis ++ [(s_id, inv)]))
         (products_in (tis ++ [(s_id, inv)])) (tis ++ [(s_id, inv)]) h' v')
    (λ _, False).
Proof.
  intros Hinv. unfold ingest_inventory. rewrite products_in_snoc.
  cbn [snd]. apply after_bind.
  eapply after_mono; [by apply (ingest_category_inv _ (inv_product inv))| |done].
  intros h1 v1 Hinv1. cbv beta. apply after_bind.
  eapply after_mono; [apply (ingest_product_inv _ (inv_product inv)); [done|set_solver]| |done].
  intros h2 v2 []. cbv beta.
  apply after_bind, after_raise_from. unfold getitem.
  rewrite (numbers_Some _ _ _ ci_product_map0)
    by (apply first_products_elem_of; set_solver).
  apply after_bind, after_call, after_ret.
  constructor; tables; try done.
  - rewrite products_in_snoc. set_solver.
  - by rewrite fmap_app, ci_inventory_rows0.
Qed.

Lemma tagged_snoc (ds : list store_doc) d :
  tagged (ds ++ [d]) = tagged ds ++ [(store_id_at ds, d)].
Proof.
  unfold tagged. rewrite imap_app. simpl. f_equal.
  - apply imap_ext. intros i x Hi%lookup_lt_Some.
    by rewrite take_app_le by lia.
  - by rewrite Nat.add_0_r, take_app_length.
Qed.

Lemma tagged_docs (ds : list store_doc) : (tagged ds).*2 = ds.
Proof.
  induction ds as [|d ds IH] using rev_ind; [done|].
  by rewrite tagged_snoc, fmap_app, IH.
Qed.

Lemma all_employees_snoc (tds : list (nat * store_doc)) td :
  all_employees (tds ++ [td]) =
    all_employees tds ++ ((λ e, (td.1, e)) <$> default [] (sd_employees td.2)).
Proof. unfold all_employees. rewrite flat_map_app. simpl. by rewrite app_nil_r. Qed.

Lemma all_inventory_snoc (tds : list (nat * store_doc)) td :
  all_inventory (tds ++ [td]) =
    all_inventory tds ++ ((λ i, (td.1, i)) <$> default [] (sd_inventory td.2)).
Proof. unfold all_inventory. rewrite flat_map_app. simpl. by rewrite app_nil_r. Qed.

Lemma store_map_size (ds : list store_doc) v :
  store_map v = dict_of ((λ td, (sd_store_name td.2, td.1)) <$> tagged ds) →
  size (store_map v) + 1 = store_id_at ds.
Proof.
  intros ->. unfold store_id_at. f_equal.
  rewrite <- size_dom, dom_dict_of. do 2 f_equal.
  rewrite <- list_fmap_compose. rewrite <- (tagged_docs ds) at 2.
  by rewrite <- list_fmap_compose.
Qed.

Lemma ingest_store_inv v doc ds (h : list event) :
  catalog_done ds h v →
  after h (ingest_store v doc) (λ h' v', catalog_done (ds ++ [doc]) h' v') (λ _, False).
Proof.
  intros Hinv. unfold ingest_store, catalog_done.
  rewrite tagged_snoc, all_employees_snoc, all_inventory_snoc. cbn [fst snd].
  rewrite (store_map_size ds) by by destruct Hinv.
  set (s_id := store_id_at ds).
  apply after_bind, after_call, after_bind.
  eapply after_mono;
    [apply (after_foldM _ (λ seen h' v',
       catalog_inv (tagged ds ++ [(s_id, doc)])
         (all_employees (tagged ds) ++ ((λ e, (s_id, e)) <$> seen))
         (products_in (all_inventory (tagged ds)))
         (products_in (all_inventory (tagged ds)))
         (all_inventory (tagged ds)) h' v') (λ _, False)) with (seen := [])| |done].
  - intros seen emp v' h' Hinv'. rewrite fmap_app, app_assoc.
    by apply ingest_employee_inv.
  - destruct Hinv. rewrite app_nil_r.
    constructor;
      cbn [store_map category_map product_map employee_map next_cat next_prod next_emp];
      tables; try done.
    + by rewrite fmap_app, ci_store_rows0.
    + by rewrite fmap_app, ci_store_map0, <- dict_of_snoc.
  - intros h1 v1 Hinv1. cbv beta.
    eapply after_mono;
      [apply (after_foldM _ (λ seen h' v',
         catalog_inv (tagged ds ++ [(s_id, doc)])
           (all_employees (tagged ds)
              ++ ((λ e, (s_id, e)) <$> default [] (sd_employees doc)))
           (products_in (all_inventory (tagged ds) ++ ((λ i, (s_id, i)) <$> seen)))
           (products_in (all_inventory (tagged ds) ++ ((λ i, (s_id, i)) <$> seen)))
           (all_inventory (tagged ds) ++ ((λ i, (s_id, i)) <$> seen)) h' v')
         (λ _, False)) with (seen := [])| |done].
    + intros seen inv v' h' Hinv'. rewrite fmap_app, app_assoc.
      by apply ingest_inventory_inv.
    + by rewrite app_nil_r.
    + done.
Qed.

Lemma ingest_catalog_spec ddl_file (catalog : list store_doc) :
  ∃ es v,
    foldM ingest_store catalog_vars_init catalog = (es, inr v) ∧
    catalog_done catalog ([PgConnect JsonDb; PgExecute ddl_file] ++ es) v.
Proof.
  pose proof (after_foldM ingest_store
    (λ seen h' v', catalog_done seen h' v') (λ _, False) catalog) as Hfold.
  specialize (Hfold (λ seen a s h, ingest_store_inv s a seen h) []
    catalog_vars_init [PgConnect JsonDb; PgExecute ddl_file]).
  unfold after in Hfold.
  destruct (foldM ingest_store catalog_vars_init catalog) as [es [e|v]].
  - exfalso. apply Hfold. constructor; try done; apply numbers_empty.
  - exists es, v. split; [done|]. apply Hfold.
    constructor; try done; apply numbers_empty.
Qed.

(** ** What the sales loop inserts *)

Lemma after_foldM_within {A S} (f : S → A → M S)
    (I : list A → list event → S → Prop) E l :
  (∀ seen a rest s h, l = seen ++ a :: rest → I seen h s →
     after h (f s a) (I (seen ++ [a])) E) →
  ∀ s h, I [] h s → after h (foldM f s l) (I l) E.
Proof.
  intros Hstep.
  assert (∀ rest seen s h, l = seen ++ rest → I seen h s →
            after h (foldM f s rest) (I l) E) as Hgen.
  { induction rest as [|a rest IH]; intros seen s h Hl HI; simpl.
    - apply after_ret. by rewrite Hl, app_nil_r.
    - apply after_bind. eapply after_mono; [by eapply Hstep| |done].
      intros h' s' HI'. cbv beta. apply (IH (seen ++ [a])); [|done].
      by rewrite <- app_assoc. }
  intros s h HI. by apply (Hgen l []).
Qed.

Ltac sales_fields :=
  cbn [customers_map next_cust next_sale]; tables.

Lemma ingest_customer_inv v h0 cs ss lns sv c (h : list event) :
  sales_inv v h0 cs ss lns h sv →
  after h (ingest_customer sv c)
    (λ h' sv', sales_inv v h0 (cs ++ [c]) ss lns h' sv') (λ _, False).
Proof.
  intros []. unfold ingest_customer.
  destruct (customers_map sv !! cd_email c) as [cid|] eqn:Hl.
  - assert (cd_email c ∈ cd_email <$> first_customers cs) as Hin.
    { destruct (decide (cd_email c ∈ cd_email <$> first_customers cs)) as [|Hn]; [done|].
      apply (numbers_None _ _ _ si_customers_map0) in Hn. congruence. }
    apply after_ret. unfold first_customers in *.
    constructor; unfold first_customers;
      rewrite ?first_by_snoc, ?decide_True by done; done.
  - apply (numbers_None _ _ _ si_customers_map0) in Hl.
    apply after_bind, after_call, after_ret. unfold first_customers in *.
    constructor; unfold first_customers;
      rewrite ?first_by_snoc, ?decide_False by done; sales_fields; try done.
    + rewrite imap_snoc, si_customer_rows0, si_next_cust0. done.
    + rewrite length_app, si_next_cust0. simpl. lia.
    + rewrite fmap_app, si_next_cust0, <- (length_fmap cd_email).
      by apply numbers_insert.
Qed.

Lemma ingest_line_inv v h0 cs ss lns sv sale_id line_no ln (h : list event) :
  sales_inv v h0 cs ss lns h sv →
  after h (ingest_line v sale_id line_no ln)
    (λ h' _, sales_inv v h0 cs ss (lns ++ [ln]) h' sv) (λ _, False).
Proof.
  intros []. unfold ingest_line.
  destruct (product_map v !! pd_name (ld_product ln)) as [prod_id|] eqn:Hl.
  - apply after_bind, after_call, after_ret.
    constructor; unfold known_lines; rewrite ?filter_app, ?filter_cons_True, ?Hl by eauto;
      tables; try done.
    rewrite !length_app, si_saleline_rows0. done.
  - apply after_ret.
    constructor; unfold known_lines;
      rewrite ?filter_app, ?filter_cons_False, ?Hl by (rewrite Hl; by intros [??]);
      rewrite ?app_nil_r; done.
Qed.

Lemma ingest_sale_inv v h0 seen sv sale (h : list event) :
  sales_done v h0 seen h sv →
  after h (ingest_sale v sv sale)
    (λ h' sv', sales_done v h0 (seen ++ [sale]) h' sv')
    (λ h', ¬ resolvable v sale ∧
           ∃ sv', sales_inv v h0 (sl_customer <$> (seen ++ [sale])) seen
                    (flat_map sl_lines seen) h' sv').
Proof.
  intros Hinv. unfold ingest_sale, sales_done.
  rewrite fmap_app, flat_map_app. cbn [fmap list_fmap flat_map]. rewrite app_nil_r.
  apply after_bind.
  eapply after_mono; [eapply ingest_customer_inv; exact Hinv| |done].
  intros h1 sv1 Hinv1. cbv beta in *.
  apply after_bind, after_raise_from. unfold getitem at 1.
  destruct (store_map v !! sl_store_name sale) as [store_id|] eqn:Hst.
  2:{ split; [|by eexists]. intros (? & ? & ? & ?). congruence. }
  apply after_bind, after_raise_from. unfold getitem at 1.
  destruct (employee_map v !! _) as [employee_id|] eqn:Hemp.
  2:{ split; [|by eexists]. intros (? & ? & ? & ?). congruence. }
  apply after_bind, after_raise_from. unfold getitem at 1. cbn [customers_map].
  assert (cd_email (sl_customer sale) ∈
            cd_email <$> first_customers ((sl_customer <$> seen) ++ [sl_customer sale]))
    as Hin.
  { unfold first_customers. rewrite first_by_keys.
    apply first_seen_elem_of. rewrite fmap_app. set_solver. }
  rewrite (numbers_Some _ _ _ (si_customers_map _ _ _ _ _ _ _ Hinv1)) by done.
  apply after_bind, after_call, after_bind.
  eapply after_mono;
    [apply (after_foldM _ (λ lns h' _,
       sales_inv v h0 ((sl_customer <$> seen) ++ [sl_customer sale]) (seen ++ [sale])
         (flat_map sl_lines seen ++ lns) h'
         {| customers_map := customers_map sv1; next_cust := next_cust sv1;
            next_sale := next_sale sv1 + 1 |}) (λ _, False)) with (seen := [])| |done].
  - intros lns ln line_no h' Hinv'. rewrite app_assoc. by apply ingest_line_inv.
  - destruct Hinv1. rewrite app_nil_r. constructor; sales_fields; try done.
    + rewrite length_app, si_next_sale0. simpl. lia.
    + rewrite !length_app, si_sale_rows0. done.
  - intros h2 n Hinv2. cbv beta in *. by apply after_ret.
Qed.

Lemma ingest_sales_spec v (h0 : list event) (sales_docs : list sale_doc) :
  rows_of "customer" h0 = [] → rows_of "sale" h0 = [] → rows_of "saleline" h0 = [] →
  after h0 (foldM (ingest_sale v) sales_vars_init sales_docs)
    (λ h' sv', sales_done v h0 sales_docs h' sv') (sales_stopped v h0 sales_docs).
Proof.
  intros Hc Hs Hl.
  apply (after_foldM_within _ (λ seen h' sv', sales_done v h0 seen h' sv')).
  - intros seen sale rest sv h Hsplit Hinv.
    eapply after_mono; [by apply ingest_sale_inv|done|].
    intros h' [Hres [sv' Hinv']]. by exists seen, sale, rest, sv'.
  - constructor; rewrite ?Hc, ?Hs, ?Hl; done.
Qed.

Lemma rows_of_commit table (h : list event) :
  rows_of table (h ++ [PgCommit]) = rows_of table h.
Proof. rewrite rows_of_app. simpl. by rewrite app_nil_r. Qed.

(** The whole of [load_postgres_from_json]: the catalog loop always runs
    to its end; the sales loop either runs to its end, and the commit
    follows, or stops at the first sale that does not resolve. *)
Lemma load_postgres_from_json_spec ddl_file (catalog : list store_doc)
    (sales_docs : list sale_doc) :
  ∃ v h0,
    catalog_done catalog h0 v ∧
    ((∃ sv h,
        load_postgres_from_json ddl_file catalog sales_docs = (h ++ [PgCommit], inr tt) ∧
        sales_done v h0 sales_docs h sv) ∨
     (∃ e h,
        load_postgres_from_json ddl_file catalog sales_docs = (h, inl e) ∧
        sales_stopped v h0 sales_docs h)).
Proof.
  destruct (ingest_catalog_spec ddl_file catalog) as (es & v & Hcat & Hdone).
  exists v, ([PgConnect JsonDb; PgExecute ddl_file] ++ es). split; [done|].
  pose proof (ingest_sales_spec v ([PgConnect JsonDb; PgExecute ddl_file] ++ es)
    sales_docs (ci_no_customer _ _ _ _ _ _ _ Hdone) (ci_no_sale _ _ _ _ _ _ _ Hdone)
    (ci_no_saleline _ _ _ _ _ _ _ Hdone)) as Hsales.
  unfold after in Hsales. unfold load_postgres_from_json.
  rewrite Hcat. simpl.
  destruct (foldM (ingest_sale v) sales_vars_init sales_docs) as [ss [e|sv]];
    simpl in *.
  - right. exists e. eexists. split; [done|]. done.
  - left. exists sv. eexists. split; [|exact Hsales].
    by rewrite app_assoc.
Qed.

(** ** Id assignment *)

Lemma products_in_all_inventory (ds : list store_doc) :
  products_in (all_inventory (tagged ds)) = catalog_products ds.
Proof.
  induction ds as [|d ds IH] using rev_ind; [done|].
  rewrite tagged_snoc, all_inventory_snoc. unfold products_in, catalog_products in *.
  rewrite fmap_app, IH, flat_map_app. simpl. rewrite app_nil_r.
  by rewrite <- list_fmap_compose.
Qed.

Lemma NoDup_take_of {A} (l : list A) k : NoDup l → NoDup (take k l).
Proof.
  intros Hl. rewrite <- (take_drop k l) in Hl. by apply NoDup_app in Hl as (? & _).
Qed.

Lemma store_id_at_NoDup (ds : list store_doc) k :
  NoDup (sd_store_name <$> ds) → k ≤ length ds → store_id_at (take k ds) = S k.
Proof.
  intros Hnd Hk. unfold store_id_at.
  rewrite size_list_to_set, length_fmap, length_take by (rewrite fmap_take; by apply NoDup_take_of).
  lia.
Qed.

(** Categories, products and customers get their ids by first encounter:
    whatever the catalog and the sales documents, the k-th distinct
    category name of the catalog gets category_id k, the k-th distinct
    product name gets product_id k, the k-th distinct customer email among
    the sales reached gets customer_id k (all the sales when the run does
    not raise), and a name already present in [category_map],
    [product_map] or [customers_map] is not assigned again.  When the store
    names of the catalog are pairwise distinct, the k-th store document
    gets store_id k. *)
Theorem ids_follow_first_encounter ddl_file (catalog : list store_doc)
    (sales_docs : list sale_doc) :
  let run := load_postgres_from_json ddl_file catalog sales_docs in
  let prods := catalog_products catalog in
  rows_of "category" run.1 = imap category_row (first_seen (pd_category <$> prods)) ∧
  (rows_of "product" run.1
     = imap (product_row (first_seen (pd_category <$> prods))) (first_products prods) ∧
   pd_name <$> first_products prods = first_seen (pd_name <$> prods)) ∧
  (∃ reached,
     reached `prefix_of` sales_docs ∧
     (run.2 = inr tt → reached = sales_docs) ∧
     rows_of "customer" run.1
       = imap customer_row (first_customers (sl_customer <$> reached)) ∧
     cd_email <$> first_customers (sl_customer <$> reached)
       = first_seen (cd_email <$> (sl_customer <$> reached))) ∧
  (NoDup (sd_store_name <$> catalog) →
   rows_of "store" run.1 = imap (λ k d, store_row (S k, d)) catalog) ∧
  (∀ v c k, category_map v !! c = Some k →
     ingest_category (num:=num) v c = ([], inr v)) ∧
  (∀ v (p : product_doc) k, product_map v !! pd_name p = Some k →
     ingest_product v p = ([], inr v)) ∧
  (∀ sv c k, customers_map sv !! cd_email c = Some k →
     ingest_customer (num:=num) sv c = ([], inr sv)).
Proof.
  intros run prods.
  destruct (load_postgres_from_json_spec ddl_file catalog sales_docs)
    as (v & h0 & Hcat & Hsales).
  unfold catalog_done in Hcat. rewrite products_in_all_inventory in Hcat.
  fold prods in Hcat. destruct Hcat.
  assert (rows_of "store" run.1 = rows_of "store" h0 ∧
          rows_of "category" run.1 = rows_of "category" h0 ∧
          rows_of "product" run.1 = rows_of "product" h0 ∧
          ∃ reached,
            reached `prefix_of` sales_docs ∧
            (run.2 = inr tt → reached = sales_docs) ∧
            rows_of "customer" run.1
              = imap customer_row (first_customers (sl_customer <$> reached)))
    as (Hs & Hc & Hp & Hcust).
  { destruct Hsales as [(sv & h & Hrun & [])|(e & h & Hrun & Hstop)];
      subst run; rewrite Hrun; cbn [fst snd]; rewrite ?rows_of_commit.
    - split_and!; [done..|]. by exists sales_docs.
    - destruct Hstop as (seen & sale & rest & sv & -> & _ & []).
      split_and!; [done..|]. exists (seen ++ [sale]). split_and!; [|done..].
      exists rest. by rewrite <- app_assoc. }
  rewrite Hs, Hc, Hp. split_and!.
  - done.
  - done.
  - apply first_by_keys.
  - destruct Hcust as (reached & ? & ? & ?). exists reached. split_and!; try done.
    apply first_by_keys.
  - intros Hnd. rewrite ci_store_rows0. unfold tagged. rewrite fmap_imap.
    apply imap_ext. intros k d Hk%lookup_lt_Some. simpl.
    rewrite store_id_at_NoDup by (done || lia). done.
  - intros v' c k Hl. unfold ingest_category. by rewrite Hl.
  - intros v' p k Hl. unfold ingest_product. by rewrite Hl.
  - intros sv c k Hl. unfold ingest_customer. by rewrite Hl.
Qed.

(** ** Exceptions reach the caller *)

Lemma exec_calls_app (fails : client) (todo todo' served0 : list event) :
  exec_calls fails served0 (todo ++ todo') =
    match exec_calls fails served0 todo with
    | (served', Some msg) => (served', Some msg)
    | (served', None) => exec_calls fails served' todo'
    end.
Proof.
  revert served0. induction todo as [|ev todo IH]; intros served0; simpl; [done|].
  destruct (fails served0 ev); [done|]. apply IH.
Qed.

Lemma exec_bind {A B} (fails : client) served0 (m : M A) (f : A → M B) :
  exec fails served0 (m ≫= f) =
    match exec fails served0 m with
    | (served', inl e) => (served', inl e)
    | (served', inr a) => exec fails served' (f a)
    end.
Proof.
  unfold exec. rewrite bind_calls, bind_outcome, exec_calls_app.
  destruct (exec_calls fails served0 m.1) as [served' [msg|]]; [done|].
  destruct m.2 as [e|a]; [done|]. done.
Qed.

Lemma exec_refused {A} (fails : client) served0 (m : M A) done ev rest msg :
  m.1 = done ++ ev :: rest →
  (∀ earlier ev' later, done = earlier ++ ev' :: later →
     fails (served0 ++ earlier) ev' = None) →
  fails (served0 ++ done) ev = Some msg →
  exec fails served0 m = (served0 ++ done, inl (ClientError msg)).
Proof.
  intros Hm Hok Hfail. unfold exec. rewrite Hm, exec_calls_app.
  pose proof (exec_all fails served0 (done, inr tt)) as Hall.
  unfold exec in Hall. simpl in Hall.
  destruct (exec_calls fails served0 done) as [served' [msg'|]].
  - by specialize (Hall Hok).
  - specialize (Hall Hok). injection Hall as ->. simpl. by rewrite Hfail.
Qed.

Lemma timed_perform_outcome {A} label (fn : files → M A) w w' r :
  timed label (perform fn) w = (w', r) →
  exec (client_fails w) (served w) (fn (inputs w))
    = (served w', match r with inl e => inl e | inr (_, a) => inr a end) ∧
  inputs w' = inputs w ∧ client_fails w' = client_fails w ∧ OUT_CSV w' = OUT_CSV w.
Proof.
  unfold timed, perform, perf_counter, mbind, W_bind, mret, W_ret. simpl.
  destruct (exec (client_fails w) (served w) (fn (inputs w))) as [served' [e|a]];
    by intros [= <- <-].
Qed.

Lemma main_outcome w w' r :
  main w = (w', r) →
  exec (client_fails w) (served w) (all_paths (inputs w)) = (served w', r) ∧
  (r ≠ inr tt → OUT_CSV w' = OUT_CSV w).
Proof.
  unfold main, all_paths.
  unfold timed_load_postgres_sql, timed_load_postgres_from_json,
    timed_load_mongo_catalog, timed_load_mongo_sales.
  unfold mbind at 1, W_bind at 1.
  destruct (timed _ _ w) as [w1 r1] eqn:H1.
  apply timed_perform_outcome in H1 as (He1 & Hf1 & Hc1 & Ho1).
  rewrite exec_bind, He1.
  destruct r1 as [e|[dt1 []]]; [by intros [= <- <-]|]. cbv beta iota.
  unfold mbind at 1, W_bind at 1.
  destruct (timed _ _ w1) as [w2 r2] eqn:H2.
  apply timed_perform_outcome in H2 as (He2 & Hf2 & Hc2 & Ho2).
  rewrite Hf1, Hc1 in He2. rewrite exec_bind, He2.
  destruct r2 as [e|[dt2 []]]; [intros [= <- <-]; by rewrite Ho2|]. cbv beta iota.
  unfold mbind at 1, W_bind at 1.
  destruct (timed _ _ w2) as [w3 r3] eqn:H3.
  apply timed_perform_outcome in H3 as (He3 & Hf3 & Hc3 & Ho3).
  rewrite Hf2, Hc2, Hf1, Hc1 in He3. rewrite exec_bind, He3.
  destruct r3 as [e|[dt3 []]]; [intros [= <- <-]; by rewrite Ho3, Ho2|]. cbv beta iota.
  unfold mbind at 1, W_bind at 1.
  destruct (timed _ _ w3) as [w4 r4] eqn:H4.
  apply timed_perform_outcome in H4 as (He4 & Hf4 & Hc4 & Ho4).
  rewrite Hf3, Hc3, Hf2, Hc2, Hf1, Hc1 in He4. rewrite He4.
  destruct r4 as [e|[dt4 []]]; [intros [= <- <-]; by rewrite Ho4, Ho3, Ho2|].
  unfold write_csv. by intros [= <- <-].
Qed.

Lemma all_employees_length (ds : list store_doc) :
  length (all_employees (tagged ds))
    = length (flat_map (λ d, default [] (sd_employees d)) ds).
Proof.
  induction ds as [|d ds IH] using rev_ind; [done|].
  rewrite tagged_snoc, all_employees_snoc, flat_map_app, !length_app.
  rewrite IH. simpl. by rewrite length_fmap, app_nil_r.
Qed.

Lemma all_inventory_length (ds : list store_doc) :
  length (all_inventory (tagged ds))
    = length (flat_map (λ d, default [] (sd_inventory d)) ds).
Proof.
  induction ds as [|d ds IH] using rev_ind; [done|].
  rewrite tagged_snoc, all_inventory_snoc, flat_map_app, !length_app.
  rewrite IH. simpl. by rewrite length_fmap, app_nil_r.
Qed.

Lemma tagged_length (ds : list store_doc) : length (tagged ds) = length ds.
Proof. apply length_imap. Qed.

Lemma known_lines_in_catalog v (catalog : list store_doc) (sales_docs : list sale_doc) :
  numbers (product_map v) (pd_name <$> first_products (catalog_products catalog)) →
  known_lines v (flat_map sl_lines sales_docs) = lines_in_catalog catalog sales_docs.
Proof.
  intros Hn. unfold known_lines, lines_in_catalog. apply list_filter_iff.
  intros ln. rewrite (Hn (pd_name (ld_product ln))).
  assert (pd_name (ld_product ln) ∈ pd_name <$> first_products (catalog_products catalog)
          ↔ pd_name (ld_product ln) ∈ pd_name <$> catalog_products catalog) as <-.
  { unfold first_products. by rewrite first_by_keys, first_seen_elem_of. }
  case_decide; split; try done.
Qed.

(** C4, amended. No exception is caught anywhere: if the client libraries
    refuse a call of any of the four paths, [main] ends with that error
    right there, having served only the calls before it and without
    writing its results, and a [KeyError] of the ingestion itself ends
    [main] in the same way.  Every store document, employee and inventory
    entry of the catalog is inserted as one row and so is every sale of a
    run that does not raise; only a sale line whose product name has no
    entry in [product_map] is skipped without raising. *)
Theorem errors_propagate_and_only_unknown_lines_are_skipped :
  (∀ w done ev rest msg,
     (all_paths (inputs w)).1 = done ++ ev :: rest →
     (∀ earlier ev' later, done = earlier ++ ev' :: later →
        client_fails w (served w ++ earlier) ev' = None) →
     client_fails w (served w ++ done) ev = Some msg →
     (main w).2 = inl (ClientError msg) ∧
     served (main w).1 = served w ++ done ∧
     OUT_CSV (main w).1 = OUT_CSV w) ∧
  (∀ w e,
     (all_paths (inputs w)).2 = inl e →
     (∀ earlier ev later, (all_paths (inputs w)).1 = earlier ++ ev :: later →
        client_fails w (served w ++ earlier) ev = None) →
     (main w).2 = inl e ∧ OUT_CSV (main w).1 = OUT_CSV w) ∧
  (∀ ddl_file (catalog : list store_doc) (sales_docs : list sale_doc),
     let run := load_postgres_from_json ddl_file catalog sales_docs in
     length (rows_of "store" run.1) = length catalog ∧
     length (rows_of "employee" run.1)
       = length (flat_map (λ d, default [] (sd_employees d)) catalog) ∧
     length (rows_of "inventory" run.1)
       = length (flat_map (λ d, default [] (sd_inventory d)) catalog) ∧
     (run.2 = inr tt →
      length (rows_of "sale" run.1) = length sales_docs ∧
      length (rows_of "saleline" run.1)
        = length (lines_in_catalog catalog sales_docs))).
Proof.
  split_and!.
  - intros w done ev rest msg Hsplit Hok Hfail.
    destruct (main w) as [w' r] eqn:Hmain. cbn [fst snd].
    apply main_outcome in Hmain as [Hexec Hcsv].
    rewrite (exec_refused _ _ _ _ _ _ _ Hsplit Hok Hfail) in Hexec.
    injection Hexec as <- <-. split_and!; [done..|]. by apply Hcsv.
  - intros w e He Hok.
    destruct (main w) as [w' r] eqn:Hmain. cbn [fst snd].
    apply main_outcome in Hmain as [Hexec Hcsv].
    rewrite (exec_all _ _ _ Hok), He in Hexec.
    injection Hexec as _ <-. split; [done|]. by apply Hcsv.
  - intros ddl_file catalog sales_docs run.
    destruct (load_postgres_from_json_spec ddl_file catalog sales_docs)
      as (v & h0 & Hcat & Hsales).
    unfold catalog_done in Hcat. rewrite products_in_all_inventory in Hcat.
    destruct Hcat.
    assert (rows_of "store" run.1 = rows_of "store" h0 ∧
            rows_of "employee" run.1 = rows_of "employee" h0 ∧
            rows_of "inventory" run.1 = rows_of "inventory" h0 ∧
            (run.2 = inr tt →
             length (rows_of "sale" run.1) = length sales_docs ∧
             length (rows_of "saleline" run.1)
               = length (known_lines v (flat_map sl_lines sales_docs))))
      as (-> & -> & -> & Hok).
    { destruct Hsales as [(sv & h & Hrun & [])|(e & h & Hrun & Hstop)];
        subst run; rewrite Hrun; cbn [fst snd]; rewrite ?rows_of_commit.
      - done.
      - destruct Hstop as (seen & sale & rest & sv & -> & _ & []). done. }
    rewrite ci_store_rows0, ci_employee_rows0, ci_inventory_rows0.
    rewrite !length_fmap, length_imap, tagged_length, all_employees_length,
      all_inventory_length.
    split_and!; [done..|]. intros Hrun.
    rewrite <- (known_lines_in_catalog v) by done. by apply Hok.
Qed.

(** ** Drawing random numbers *)

Lemma yields_ret {A} (a : A) (P : A → Prop) : P a → yields (mret a) P.
Proof. intros HP g. by exists a, g. Qed.

Lemma yields_bind {A B} (m : R A) (f : A → R B) (P : A → Prop) (Q : B → Prop) :
  yields m P → (∀ a, P a → yields (f a) Q) → yields (m ≫= f) Q.
Proof.
  intros Hm Hf g. destruct (Hm g) as (a & g1 & Hrun & Ha).
  destruct (Hf a Ha g1) as (b & g2 & Hrun' & Hb).
  exists b, g2. split; [|done]. unfold mbind, R_bind. by rewrite Hrun.
Qed.

Lemma yields_mono {A} (m : R A) (P Q : A → Prop) :
  yields m P → (∀ a, P a → Q a) → yields m Q.
Proof. intros Hm HPQ g. destruct (Hm g) as (a & g' & ? & ?). eauto. Qed.

Lemma yields_draw (P : nat → Prop) : (∀ d, P d) → yields draw P.
Proof. intros HP g. do 2 eexists. split; [done|]. apply HP. Qed.

Lemma yields_lift {A} (r : result A) (P : A → Prop) a :
  r = inr a → P a → yields (lift r) P.
Proof. intros -> HP g. by exists a, g. Qed.

Lemma yields_choice {A} (l : list A) : l ≠ [] → yields (choice l) (λ x, x ∈ l).
Proof.
  intros Hl. unfold choice. destruct l as [|x0 l0]; [done|].
  set (l := x0 :: l0). apply (yields_bind _ _ (λ _, True)); [by apply yields_draw|].
  intros d _.
  assert (d mod length l < length l) as Hlt by (apply Nat.mod_upper_bound; done).
  apply lookup_lt_is_Some in Hlt as [x Hx].
  apply (yields_lift _ _ x).
  - unfold getindex. by rewrite Hx.
  - by eapply list_elem_of_lookup_2.
Qed.

Lemma yields_randint (a b : Z) :
  (a ≤ b)%Z → yields (randint a b) (λ z, (a ≤ z ≤ b)%Z).
Proof.
  intros Hab. unfold randint. rewrite (proj2 (Z.ltb_ge b a)) by done.
  apply (yields_bind _ _ (λ _, True)); [by apply yields_draw|].
  intros d _. apply yields_ret.
  pose proof (Z.mod_pos_bound (Z.of_nat d) (b - a + 1)). lia.
Qed.

Lemma yields_random_uniform (a b : Z) :
  yields (random_uniform (num:=num) a b) (λ _, True).
Proof.
  unfold random_uniform.
  apply (yields_bind _ _ (λ _, True)); [by apply yields_draw|].
  intros d _. by apply yields_ret.
Qed.

Lemma yields_sample_from {A} (k : nat) :
  ∀ pool : list A, k ≤ length pool →
    yields (sample_from pool k)
      (λ xs, length xs = k ∧ ∃ rest, xs ++ rest ≡ₚ pool).
Proof.
  induction k as [|k IH]; intros pool Hk; simpl.
  - apply yields_ret. split; [done|]. by exists pool.
  - apply (yields_bind _ _ (λ _, True)); [by apply yields_draw|].
    intros d _.
    assert (d mod length pool < length pool) as Hlt
      by (apply Nat.mod_upper_bound; lia).
    apply lookup_lt_is_Some in Hlt as [x Hx].
    apply (yields_bind _ _ (λ y, y = x)).
    { apply (yields_lift _ _ x); [|done]. unfold getindex. by rewrite Hx. }
    intros ? ->.
    eapply yields_bind.
    { apply IH. rewrite length_delete by eauto. lia. }
    intros xs [Hlen [rest Hperm]]. apply yields_ret. split; [simpl; lia|].
    exists rest. simpl. rewrite Hperm. symmetry. by apply delete_Permutation.
Qed.

Lemma yields_sample {A} (population : list A) (k : nat) :
  k ≤ length population →
  yields (sample population k)
    (λ xs, length xs = k ∧ ∃ rest, xs ++ rest ≡ₚ population).
Proof.
  intros Hk. unfold sample.
  rewrite (proj2 (Nat.ltb_ge (length population) k)) by done.
  by apply yields_sample_from.
Qed.

Lemma yields_foldM {A S} (f : S → A → R S) (I : list A → S → Prop) l :
  (∀ seen a rest s, l = seen ++ a :: rest → I seen s → yields (f s a) (I (seen ++ [a]))) →
  ∀ s, I [] s → yields (foldM f s l) (I l).
Proof.
  intros Hstep.
  assert (∀ rest seen s, l = seen ++ rest → I seen s →
            yields (foldM f s rest) (I l)) as Hgen.
  { induction rest as [|a rest IH]; intros seen s Hl HI; simpl.
    - apply yields_ret. by rewrite Hl, app_nil_r.
    - eapply yields_bind; [by eapply Hstep|].
      intros s' HI'. apply (IH (seen ++ [a])); [|done]. by rewrite <- app_assoc. }
  intros s HI. by apply (Hgen l []).
Qed.

Lemma yields_mapM {A B} (f : A → R B) (P : A → B → Prop) l :
  (∀ a, a ∈ l → yields (f a) (P a)) → yields (mapM f l) (λ bs, Forall2 P l bs).
Proof.
  induction l as [|a l IH]; intros Hf; simpl.
  - apply yields_ret. constructor.
  - eapply yields_bind; [apply Hf; set_solver|]. intros b Hb.
    eapply yields_bind; [apply IH; intros; apply Hf; set_solver|]. intros bs Hbs.
    apply yields_ret. by constructor.
Qed.

(** ** The catalog data *)

Lemma Forall2_fmap_eq {A B C} (f : A → C) (g : B → C) (l : list A) (k : list B) :
  Forall2 (λ a b, g b = f a) l k → g <$> k = f <$> l.
Proof.
  induction 1 as [|a b l k Hab _ IH]; [done|].
  rewrite !fmap_cons. by rewrite Hab, IH.
Qed.

Lemma gen_products_ids cfg fake categories :
  categories ≠ [] →
  yields (gen_products cfg fake categories)
    (λ ps, product_id <$> ps = (λ i, i + 1) <$> seq 0 (PRODUCTS cfg)).
Proof.
  intros Hc. unfold gen_products.
  eapply yields_mono.
  - apply (yields_mapM _ (λ i p, product_id p = i + 1)). intros i _.
    eapply yields_bind; [apply yields_random_uniform|]. intros price _.
    eapply yields_bind; [by apply yields_choice|]. intros cat _.
    by apply yields_ret.
  - intros ps Hps. by apply Forall2_fmap_eq.
Qed.

Lemma gen_employees_ids cfg fake :
  0 < STORES cfg →
  yields (gen_employees cfg fake)
    (λ es, employee_id <$> es = (λ i, i + 1) <$> seq 0 (EMPLOYEES cfg) ∧
           e_store_id <$> es
             = (λ i, (i + 1) mod STORES cfg + 1) <$> seq 0 (EMPLOYEES cfg)).
Proof.
  intros Hs. unfold gen_employees.
  eapply yields_mono.
  - apply (yields_mapM _ (λ i e,
      employee_id e = i + 1 ∧ e_store_id e = (i + 1) mod STORES cfg + 1)).
    intros i _.
    eapply yields_bind; [by apply yields_choice|]. intros position _.
    eapply yields_bind.
    { apply (yields_lift _ (λ r, r = (i + 1) mod STORES cfg) ((i + 1) mod STORES cfg));
        [|done]. unfold pymod. destruct (STORES cfg); [lia|done]. }
    intros r ->. by apply yields_ret.
  - intros es Hes. split.
    + apply Forall2_fmap_eq. eapply Forall2_impl; [done|]. by intros ?? [??].
    + apply Forall2_fmap_eq. eapply Forall2_impl; [done|]. by intros ?? [??].
Qed.

Lemma gen_inventory_yields cfg stores (products : list product) :
  PRODUCTS cfg / 2 ≤ length products →
  yields (gen_inventory cfg stores products) (λ _, True).
Proof.
  intros Hlen. unfold gen_inventory.
  apply (yields_foldM _ (λ _ _, True)); [|done].
  intros seen st rest inv _ _.
  eapply yields_bind; [by apply yields_sample|]. intros chosen _.
  eapply yields_bind.
  { apply (yields_mapM _ (λ _ _, True)). intros prod _.
    eapply yields_bind; [by apply yields_randint|]. intros q _. by apply yields_ret. }
  intros rows _. by apply yields_ret.
Qed.

Lemma succ_seq n : (λ i, i + 1) <$> seq 0 n = seq 1 n.
Proof.
  rewrite <- fmap_S_seq. apply list_fmap_ext. intros _ i _. lia.
Qed.

Lemma gen_catalog_ok cfg fake :
  config_ok cfg →
  yields (gen_catalog cfg fake)
    (λ b, catalog_ok cfg b ∧ sales_hdr b = [] ∧ sale_lines b = []).
Proof.
  intros (Hcat & Hst & Hcu & Hmm & Hmp & Hemp). unfold gen_catalog.
  eapply yields_bind.
  { apply gen_products_ids. unfold gen_categories.
    destruct (CATEGORIES cfg); [lia|done]. }
  intros ps Hps.
  eapply yields_bind; [by apply gen_employees_ids|]. intros es [Hids Hstores].
  assert (length ps = PRODUCTS cfg) as Hlen.
  { rewrite <- (length_fmap product_id), Hps, length_fmap. apply length_seq. }
  eapply yields_bind.
  { apply gen_inventory_yields. rewrite Hlen. apply Nat.Div0.div_le_upper_bound. lia. }
  intros inv _. apply yields_ret. split; [|done].
  unfold catalog_ok. cbn [stores employees customers products].
  split_and!.
  - unfold gen_stores. destruct (STORES cfg); [lia|done].
  - intros st Hin.
    assert (store_id st ∈ seq 1 (STORES cfg)) as Hid.
    { rewrite <- succ_seq. unfold gen_stores in Hin.
      apply list_elem_of_fmap in Hin as (i & -> & Hi). simpl.
      apply list_elem_of_fmap. eauto. }
    rewrite Forall_forall in Hemp. apply Hemp in Hid.
    rewrite <- Hstores in Hid. apply list_elem_of_fmap in Hid as (e & He & Hin').
    intros Hnil.
    assert (e ∈ filter (λ e, e_store_id e = store_id st) es) as Hf
      by (apply list_elem_of_filter; done).
    rewrite Hnil in Hf. by apply elem_of_nil in Hf.
  - unfold gen_customers. rewrite length_fmap. apply length_seq.
  - done.
  - rewrite Hps, succ_seq. apply NoDup_seq.
  - rewrite Hids, succ_seq. apply NoDup_seq.
Qed.

(** ** The sales loops *)

Lemma running_total_snoc (lines : list sale_line) l :
  running_total (lines ++ [l]) = num_add (running_total lines) (l_line_total l).
Proof. unfold running_total. by rewrite fmap_app, foldl_app. Qed.

Lemma gen_lines_spec sale_id (lines : list sale_line) (chosen : list product) :
  yields (gen_lines sale_id lines chosen)
    (λ r, ∃ new,
       r = (lines ++ new, running_total new) ∧
       l_product_id <$> new = product_id <$> chosen ∧
       Forall (line_ok sale_id) new).
Proof.
  unfold gen_lines.
  eapply yields_mono.
  - apply (yields_foldM _ (λ seen r, ∃ new,
      r = (lines ++ new, running_total new) ∧
      l_product_id <$> new = (λ item, product_id item.2) <$> seen ∧
      Forall (line_ok sale_id) new)).
    + intros seen [line_num prod] rest r _ (new & -> & Hids & Hok).
      unfold gen_line.
      eapply yields_bind; [by apply yields_randint|]. intros qty _.
      apply yields_ret.
      exists (new ++ [{| l_sale_id := sale_id; l_line_number := line_num;
                         l_product_id := product_id prod; l_quantity := qty;
                         l_unit_price := p_price prod;
                         l_line_total := round2 (num_mul_int (p_price prod) qty) |}]).
      split_and!.
      * rewrite running_total_snoc, app_assoc. reflexivity.
      * by rewrite !fmap_app, Hids.
      * apply Forall_app. split; [done|]. by repeat constructor.
    + exists []. by rewrite app_nil_r.
  - intros r (new & -> & Hids & Hok). exists new. split_and!; [done| |done].
    rewrite Hids.
    transitivity (product_id <$> (zip (seq 1 (length chosen)) chosen).*2).
    + by rewrite <- list_fmap_compose.
    + by rewrite snd_zip by by rewrite length_seq.
Qed.

Lemma NoDup_fmap_eq {A B} (f : A → B) (l : list A) x y :
  NoDup (f <$> l) → x ∈ l → y ∈ l → f x = f y → x = y.
Proof.
  induction l as [|a l IH]; [by intros _ ?%elem_of_nil|].
  rewrite fmap_cons, NoDup_cons, !elem_of_cons.
  intros [Ha Hnd] [->|Hx] [->|Hy] Hf; [done| | |by apply IH].
  - exfalso. apply Ha. rewrite Hf. apply list_elem_of_fmap. eauto.
  - exfalso. apply Ha. rewrite <- Hf. apply list_elem_of_fmap. eauto.
Qed.

Lemma lines_of_app (lines new : list sale_line) h :
  lines_of (lines ++ new) h = lines_of lines h ++ lines_of new h.
Proof. apply filter_app. Qed.

Lemma lines_of_other (new : list sale_line) sale_id h :
  Forall (line_ok sale_id) new → h_sale_id h ≠ sale_id → lines_of new h = [].
Proof.
  intros Hnew Hne. unfold lines_of.
  induction Hnew as [|l new [Hl _] _ IH]; [done|].
  rewrite filter_cons_False by congruence. done.
Qed.

Lemma lines_of_same (new : list sale_line) sale_id h :
  Forall (line_ok sale_id) new → h_sale_id h = sale_id → lines_of new h = new.
Proof.
  intros Hnew Heq. unfold lines_of.
  induction Hnew as [|l new [Hl _] _ IH]; [done|].
  rewrite filter_cons_True by congruence. by rewrite IH.
Qed.

Lemma lines_of_earlier (lines : list sale_line) (ids : list nat) h :
  (∀ l, l ∈ lines → l_sale_id l ∈ ids) → h_sale_id h ∉ ids → lines_of lines h = [].
Proof.
  intros Hids Hh. unfold lines_of.
  induction lines as [|l lines IH]; [done|].
  rewrite filter_cons_False.
  - apply IH. intros l' Hl'. apply Hids. set_solver.
  - intros Heq. apply Hh. rewrite <- Heq. apply Hids. set_solver.
Qed.

(** Adding a sale that has been generated as both loops do keeps the
    sales consistent. *)
Lemma sales_ok_snoc cfg (b : base_data) (ids : list nat) hdr lines sale_id st emp cust
    (n_lines : Z) (chosen : list product) new ts :
  catalog_ok cfg b →
  sales_ok cfg b ids hdr lines →
  sale_id ∉ ids →
  emp ∈ filter (λ e, e_store_id e = store_id st) (employees b) →
  (Z.of_nat (MIN_LINES cfg) ≤ n_lines ≤ Z.of_nat (MAX_LINES cfg))%Z →
  (length chosen = Z.to_nat n_lines ∧ ∃ rest, chosen ++ rest ≡ₚ products b) →
  l_product_id <$> new = product_id <$> chosen →
  Forall (line_ok sale_id) new →
  sales_ok cfg b (ids ++ [sale_id])
    (hdr ++ [{| h_sale_id := sale_id; h_timestamp := ts;
                h_customer_id := customer_id cust; h_store_id := store_id st;
                h_employee_id := employee_id emp;
                h_total_amount := round2 (running_total new) |}])
    (lines ++ new).
Proof.
  intros (_ & _ & _ & _ & Hpid & Heid) (Hids & Hlines & Hhdr) Hnew
    [Hstore Hemp]%list_elem_of_filter Hn [Hlen [rest Hperm]] Hprod Hok.
  split_and!.
  - by rewrite fmap_app, Hids.
  - intros l [Hl|Hl]%elem_of_app.
    + apply elem_of_app. left. by apply Hlines.
    + apply elem_of_app. right. rewrite Forall_forall in Hok.
      destruct (Hok l Hl) as [-> _]. set_solver.
  - intros h [Hh|Hh%list_elem_of_singleton]%elem_of_app; [|subst h].
    + destruct (Hhdr h Hh) as [Hsold (Ht & Hl & Hlen' & Hnd)]. split; [done|].
      assert (h_sale_id h ≠ sale_id) as Hne.
      { intros Heq. apply Hnew. rewrite <- Hids, <- Heq.
        apply list_elem_of_fmap. eauto. }
      unfold well_totalled.
      by rewrite lines_of_app, (lines_of_other new sale_id), app_nil_r.
    + split.
      * split; [by exists emp|]. cbn [h_employee_id h_store_id].
        intros e He Heq. by rewrite (NoDup_fmap_eq employee_id _ e emp Heid He Hemp Heq).
      * unfold well_totalled. cbn [h_sale_id h_total_amount].
        rewrite lines_of_app, (lines_of_earlier lines ids), (lines_of_same new sale_id)
          by done.
        cbn [app]. split_and!; [done..| | |].
        -- rewrite <- (length_fmap l_product_id), Hprod, length_fmap. lia.
        -- rewrite <- (length_fmap l_product_id), Hprod, length_fmap. lia.
        -- rewrite Hprod. rewrite <- Hperm, fmap_app in Hpid.
           by apply NoDup_app in Hpid as (? & _).
Qed.

Lemma yields_customer cfg zipf (b : base_data) i :
  0 < CUSTOMERS cfg → length (customers b) = CUSTOMERS cfg →
  yields (lift (getindex (customers b) (zipf_ids cfg zipf i))) (λ _, True).
Proof.
  intros Hpos Hlen.
  assert (zipf_ids cfg zipf i < length (customers b)) as Hlt.
  { rewrite Hlen. unfold zipf_ids. apply Nat.mod_upper_bound. lia. }
  apply lookup_lt_is_Some in Hlt as [c Hc].
  apply (yields_lift _ _ c); [|done]. unfold getindex. by rewrite Hc.
Qed.

Lemma json_gen_sale_ok cfg zipf (b : base_data) (ids : list nat) hdr lines sale_id :
  config_ok cfg → catalog_ok cfg b →
  sales_ok cfg b ids hdr lines → sale_id ∉ ids →
  yields (json_gen_sale cfg zipf b (hdr, lines) sale_id)
    (λ r, sales_ok cfg b (ids ++ [sale_id]) r.1 r.2).
Proof.
  intros (_ & _ & Hcu & Hmm & Hmp & _) Hcat Hok Hnew.
  pose proof Hcat as (Hst & Hemp & Hlc & Hlp & _ & _).
  unfold json_gen_sale.
  eapply yields_bind; [by apply yields_choice|]. intros st Hin.
  eapply yields_bind; [by apply yields_choice, Hemp|]. intros emp Hemp'.
  eapply yields_bind; [by apply yields_customer|]. intros cust _.
  eapply yields_bind; [apply yields_randint; lia|]. intros n_lines Hn. cbv beta in Hn.
  eapply yields_bind; [apply yields_sample; lia|]. intros chosen Hchosen.
  eapply yields_bind; [apply gen_lines_spec|]. intros r (new & -> & Hprod & Hlines).
  eapply yields_bind; [by apply yields_randint|]. intros ts _.
  apply yields_ret. cbn [fst snd]. cbv beta in *. by eapply sales_ok_snoc.
Qed.

Lemma sql_gen_sale_ok cfg zipf (b : base_data) (ids : list nat) hdr lines sale_id i :
  config_ok cfg → catalog_ok cfg b →
  sales_ok cfg b ids hdr lines → sale_id ∉ ids →
  yields (sql_gen_sale cfg zipf b (sale_id, hdr, lines) i)
    (λ r, r.1.1 = sale_id + 1 ∧ sales_ok cfg b (ids ++ [sale_id]) r.1.2 r.2).
Proof.
  intros (_ & _ & Hcu & Hmm & Hmp & _) Hcat Hok Hnew.
  pose proof Hcat as (Hst & Hemp & Hlc & Hlp & _ & _).
  unfold sql_gen_sale.
  eapply yields_bind; [by apply yields_randint|]. intros ts _.
  eapply yields_bind; [by apply yields_choice|]. intros st Hin.
  eapply yields_bind; [by apply yields_choice, Hemp|]. intros emp Hemp'.
  eapply yields_bind; [by apply yields_customer|]. intros cust _.
  eapply yields_bind; [apply yields_randint; lia|]. intros n_lines Hn. cbv beta in Hn.
  eapply yields_bind; [apply yields_sample; lia|]. intros chosen Hchosen.
  eapply yields_bind; [apply gen_lines_spec|]. intros r (new & -> & Hprod & Hlines).
  apply yields_ret. cbn [fst snd]. cbv beta in *. split; [done|].
  by eapply sales_ok_snoc.
Qed.

(** Both generators return, for every seed, data in which all [SALES]
    sales are consistent. *)
Lemma json_generator_ok cfg fake zipf :
  config_ok cfg →
  yields (json_generator cfg fake zipf)
    (λ b, sales_ok cfg b (seq 1 (SALES cfg)) (sales_hdr b) (sale_lines b)).
Proof.
  intros Hcfg. unfold json_generator.
  eapply yields_bind; [by apply gen_catalog_ok|]. intros b (Hcat & _ & _).
  eapply yields_bind.
  - apply (yields_foldM _ (λ seen r, sales_ok cfg b seen r.1 r.2)).
    + intros seen sale_id rest [hdr lines] Hsplit Hok.
      apply json_gen_sale_ok; [done..|].
      pose proof (NoDup_seq 1 (SALES cfg)) as Hnd. rewrite Hsplit in Hnd.
      apply NoDup_app in Hnd as (_ & Hnd & _). intros Hin. apply (Hnd _ Hin). set_solver.
    + split_and!; [done| |]; by intros ? ?%elem_of_nil.
  - intros [hdr lines] (Hids & Hlines & Hhdr). apply yields_ret.
    split_and!; [done..|]. intros h Hh. destruct (Hhdr h Hh) as [Hs Hw].
    split; [|done]. exact Hs.
Qed.

Lemma sql_generator_ok cfg fake zipf :
  config_ok cfg →
  yields (sql_generator cfg fake zipf)
    (λ b, sales_ok cfg b (seq 1 (SALES cfg)) (sales_hdr b) (sale_lines b)).
Proof.
  intros Hcfg. unfold sql_generator.
  eapply yields_bind; [by apply gen_catalog_ok|]. intros b (Hcat & _ & _).
  eapply yields_bind.
  - apply (yields_foldM _ (λ seen r,
      r.1.1 = S (length seen) ∧ sales_ok cfg b (seq 1 (length seen)) r.1.2 r.2)).
    + intros seen i rest [[next hdr] lines] Hsplit [Hnext Hok]. cbn [fst snd] in *.
      subst next. eapply yields_mono.
      * apply (sql_gen_sale_ok _ _ _ (seq 1 (length seen))); [done..|].
        rewrite elem_of_seq. lia.
      * intros r [Hr Hok']. rewrite length_app, seq_app. simpl.
        split; [lia|done].
    + split; [done|]. split_and!; [done| |]; by intros ? ?%elem_of_nil.
  - intros [[next hdr] lines] (_ & Hids & Hlines & Hhdr). apply yields_ret.
    cbn [fst snd] in *. rewrite length_seq in *.
    split_and!; [done..|]. intros h Hh. destruct (Hhdr h Hh) as [Hs Hw].
    split; [|done]. exact Hs.
Qed.

Lemma sales_ok_length cfg (b : base_data) (ids : list nat) hdr lines :
  sales_ok cfg b ids hdr lines → length hdr = length ids.
Proof. intros [<- _]. by rewrite length_fmap. Qed.

(** C8. In both generators every generated sale is consistent with its
    store: whatever the seed, the generator returns its [SALES] sales, and
    the employee_id of each one is that of an employee whose store_id is
    the store_id of the sale. *)
Theorem sales_are_made_by_store_employees cfg fake zipf g :
  config_ok cfg →
  (∃ b g', json_generator (num:=num) cfg fake zipf g = inr (b, g') ∧
     length (sales_hdr b) = SALES cfg ∧
     ∀ h, h ∈ sales_hdr b → sold_by_store_employee b h) ∧
  (∃ b g', sql_generator (num:=num) cfg fake zipf g = inr (b, g') ∧
     length (sales_hdr b) = SALES cfg ∧
     ∀ h, h ∈ sales_hdr b → sold_by_store_employee b h).
Proof.
  intros Hcfg. split.
  - destruct (json_generator_ok cfg fake zipf Hcfg g) as (b & g' & Hrun & Hok).
    exists b, g'. split_and!; [done| |].
    + rewrite (sales_ok_length _ _ _ _ _ Hok). apply length_seq.
    + intros h Hh. by apply Hok.
  - destruct (sql_generator_ok cfg fake zipf Hcfg g) as (b & g' & Hrun & Hok).
    exists b, g'. split_and!; [done| |].
    + rewrite (sales_ok_length _ _ _ _ _ Hok). apply length_seq.
    + intros h Hh. by apply Hok.
Qed.

(** C9. In both generators, whatever the seed, the total_amount of every
    generated sale is the running sum of the line_total of its own lines,
    rounded to 2 decimals, every line_total is the rounded product of unit
    price and quantity, and the sale has between [MIN_LINES] and
    [MAX_LINES] lines, over distinct products. *)
Theorem sales_are_well_totalled cfg fake zipf g :
  config_ok cfg →
  (∃ b g', json_generator (num:=num) cfg fake zipf g = inr (b, g') ∧
     length (sales_hdr b) = SALES cfg ∧
     ∀ h, h ∈ sales_hdr b → well_totalled cfg (sale_lines b) h) ∧
  (∃ b g', sql_generator (num:=num) cfg fake zipf g = inr (b, g') ∧
     length (sales_hdr b) = SALES cfg ∧
     ∀ h, h ∈ sales_hdr b → well_totalled cfg (sale_lines b) h).
Proof.
  intros Hcfg. split.
  - destruct (json_generator_ok cfg fake zipf Hcfg g) as (b & g' & Hrun & Hok).
    exists b, g'. split_and!; [done| |].
    + rewrite (sales_ok_length _ _ _ _ _ Hok). apply length_seq.
    + intros h Hh. by apply Hok.
  - destruct (sql_generator_ok cfg fake zipf Hcfg g) as (b & g' & Hrun & Hok).
    exists b, g'. split_and!; [done| |].
    + rewrite (sales_ok_length _ _ _ _ _ Hok). apply length_seq.
    + intros h Hh. by apply Hok.
Qed.

(** ** Building the documents *)

Lemma dict_of_lookup `{Countable K} {V} (pairs : list (K * V)) k v :
  NoDup pairs.*1 → dict_of pairs !! k = Some v ↔ (k, v) ∈ pairs.
Proof.
  induction pairs as [|[k' v'] pairs IH] using rev_ind; intros Hnd.
  - unfold dict_of. simpl. rewrite lookup_empty. split; [done|]. by intros ?%elem_of_nil.
  - rewrite fmap_app in Hnd. apply NoDup_app in Hnd as (Hnd & Hk' & _).
    rewrite dict_of_snoc, lookup_insert_Some, elem_of_app, list_elem_of_singleton, IH by done.
    split.
    + intros [[-> ->]|[_ ?]]; [by right|by left].
    + intros [Hin|[= -> ->]]; [|by left]. right. split; [|done].
      intros ->. apply (Hk' k); [|simpl; set_solver].
      apply list_elem_of_fmap. by exists (k, v).
Qed.

Lemma dict_of_keyed `{Countable K} {A} (key : A → K) (l : list A) k x :
  NoDup (key <$> l) →
  dict_of ((λ x, (key x, x)) <$> l) !! k = Some x ↔ x ∈ l ∧ key x = k.
Proof.
  intros Hnd. rewrite dict_of_lookup.
  - rewrite list_elem_of_fmap. split.
    + by intros (y & [= -> ->] & Hy).
    + intros [Hx <-]. by exists x.
  - by rewrite <- list_fmap_compose.
Qed.

Lemma mapM_inr {A B} (f : A → result B) (g : A → B) (l : list A) :
  (∀ x, x ∈ l → f x = inr (g x)) → mapM f l = inr (g <$> l).
Proof.
  induction l as [|x l IH]; intros Hf; [done|]. simpl.
  rewrite (Hf x) by set_solver. simpl. rewrite IH by (intros; apply Hf; set_solver).
  done.
Qed.

Lemma prod_by_id_lookup (b : base_data) p :
  base_ok b → p ∈ products b → prod_by_id b !! product_id p = Some p.
Proof.
  intros Hb Hp. unfold prod_by_id. apply dict_of_keyed; [by destruct Hb|done].
Qed.

Lemma cat_by_id_lookup (b : base_data) p :
  base_ok b → p ∈ products b →
  ∃ name, cat_by_id b !! p_category_id p = Some name ∧
          (p_category_id p, name) ∈ categories b.
Proof.
  intros Hb Hp. pose proof (bo_product_category b Hb p Hp) as Hc.
  apply list_elem_of_fmap in Hc as ([cid name] & Hcid & Hin). simpl in Hcid. subst cid.
  exists name. split; [|done]. unfold cat_by_id.
  apply dict_of_lookup; [by destruct Hb|done].
Qed.

Lemma product_doc_at_id (b : base_data) p :
  base_ok b → p ∈ products b → product_doc_at b (product_id p) = product_doc_of b p.
Proof.
  intros Hb Hp. unfold product_doc_at, product_doc_of, product_name, category_name.
  rewrite (prod_by_id_lookup b p) by done. simpl.
  by destruct (cat_by_id_lookup b p Hb Hp) as (name & -> & _).
Qed.

Lemma embed_product_ok (b : base_data) pid :
  base_ok b → pid ∈ product_id <$> products b →
  embed_product b pid = inr (product_doc_at b pid).
Proof.
  intros Hb (p & -> & Hp)%list_elem_of_fmap.
  rewrite product_doc_at_id by done.
  unfold embed_product, getitem. rewrite (prod_by_id_lookup b p) by done. simpl.
  destruct (cat_by_id_lookup b p Hb Hp) as (name & Hl & _). rewrite Hl. simpl.
  unfold product_doc_of, category_name. by rewrite Hl.
Qed.

Lemma store_docs_ok (b : base_data) :
  base_ok b → store_docs b = inr (store_doc_of b <$> stores b).
Proof.
  intros Hb. unfold store_docs. apply mapM_inr. intros st Hst.
  unfold build_store_doc.
  rewrite (mapM_inr _ (inventory_doc_of b)).
  - done.
  - intros i [_ Hi]%list_elem_of_filter.
    rewrite embed_product_ok by (done || by apply (bo_inventory_product b Hb)).
    done.
Qed.

Lemma group_lines_lookup (lines : list sale_line) k :
  group_lines lines !! k =
    match filter (λ l, l_sale_id l = k) lines with
    | [] => None
    | ls => Some ls
    end.
Proof.
  induction lines as [|x lines IH] using rev_ind; [done|].
  unfold group_lines in *. rewrite foldl_snoc, filter_app.
  destruct (decide (l_sale_id x = k)) as [<-|Hne].
  - rewrite lookup_insert_eq, IH, filter_cons_True by done. rewrite filter_nil.
    by destruct (filter _ lines).
  - rewrite lookup_insert_ne, IH, filter_cons_False by done.
    by rewrite filter_nil, app_nil_r.
Qed.

Lemma mapM_inr_Forall2 {A B} (f : A → result B) (P : A → B → Prop) (l : list A) :
  (∀ x, x ∈ l → ∃ y, f x = inr y ∧ P x y) →
  ∃ k, mapM f l = inr k ∧ Forall2 P l k.
Proof.
  induction l as [|x l IH]; intros Hf.
  - exists []. by split; [|constructor].
  - destruct (Hf x) as (y & Hy & HP); [set_solver|].
    destruct IH as (k & Hk & HF); [intros; apply Hf; set_solver|].
    exists (y :: k). simpl. rewrite Hy. simpl. rewrite Hk. simpl.
    by split; [|constructor].
Qed.

Lemma keyed_lookup_elem `{Countable K} {A} (key : A → K) (l : list A) k :
  NoDup (key <$> l) → k ∈ key <$> l →
  ∃ x, x ∈ l ∧ key x = k ∧ dict_of ((λ x, (key x, x)) <$> l) !! k = Some x.
Proof.
  intros Hnd (x & -> & Hx)%list_elem_of_fmap. exists x. split_and!; [done..|].
  by apply dict_of_keyed.
Qed.

Lemma sale_docs_ok strftime (b : base_data) :
  base_ok b →
  ∃ sales, sale_docs strftime b = inr sales ∧
           Forall2 (sale_doc_for b) (sales_hdr b) sales.
Proof.
  intros Hb. unfold sale_docs. apply mapM_inr_Forall2. intros h Hh.
  destruct (keyed_lookup_elem store_id (stores b) (h_store_id h))
    as (st & Hst & Hsid & Hsl); [by destruct Hb|by apply (bo_sale_store b Hb)|].
  destruct (bo_sale_employee b Hb h Hh) as [(e & He & Heid) _].
  assert (emp_by_id b !! h_employee_id h = Some e) as Hel.
  { apply dict_of_keyed; [by destruct Hb|done]. }
  destruct (keyed_lookup_elem customer_id (customers b) (h_customer_id h))
    as (c & Hc & Hcid & Hcl); [by destruct Hb|by apply (bo_sale_customer b Hb)|].
  assert (∃ ls, lines_by_sale b !! h_sale_id h = Some ls ∧
                ∀ ln, ln ∈ ls → ln ∈ sale_lines b) as (ls & Hg & Hls).
  { pose proof (bo_sale_lines b Hb h Hh) as Hlines.
    pose proof (group_lines_lookup (sale_lines b) (h_sale_id h)) as Hg.
    unfold lines_of in Hlines. unfold lines_by_sale.
    exists (filter (λ l, l_sale_id l = h_sale_id h) (sale_lines b)). split.
    - rewrite Hg. by destruct (filter _ (sale_lines b)).
    - by intros ln [_ ?]%list_elem_of_filter. }
  unfold build_sale_doc, getitem.
  fold (store_by_id b). unfold store_by_id at 1. rewrite Hsl. simpl.
  rewrite Hel. simpl. unfold cust_by_id at 1. rewrite Hcl. simpl.
  rewrite Hg. simpl.
  rewrite (mapM_inr _ (λ ln, {| ld_product := product_doc_at b (l_product_id ln);
                               ld_quantity := l_quantity ln;
                               ld_line_total := l_line_total ln |})).
  - simpl. eexists. split; [done|]. exists st, e, c. by split_and!.
  - intros ln Hln. rewrite embed_product_ok; [done..|].
    by apply (bo_line_product b Hb), Hls.
Qed.

(** ** Grouping by store *)


Lemma regroup_none {A B} (key : A → nat) (f : nat → A → B) (l : list A) x
    (ks : list nat) :
  key x ∉ ks →
  flat_map (λ k, f k <$> filter (λ y, key y = k) (x :: l)) ks
    = flat_map (λ k, f k <$> filter (λ y, key y = k) l) ks.
Proof.
  induction ks as [|k ks IH]; intros Hx; [done|]. simpl.
  rewrite filter_cons_False by set_solver. rewrite IH by set_solver. done.
Qed.

Lemma regroup_one {A B} (key : A → nat) (f : nat → A → B) (l : list A) x
    (ks : list nat) :
  NoDup ks → key x ∈ ks →
  flat_map (λ k, f k <$> filter (λ y, key y = k) (x :: l)) ks
    ≡ₚ f (key x) x :: flat_map (λ k, f k <$> filter (λ y, key y = k) l) ks.
Proof.
  induction ks as [|k ks IH]; intros Hnd Hx; [by apply elem_of_nil in Hx|].
  apply NoDup_cons in Hnd as [Hk Hnd]. simpl.
  destruct (decide (key x = k)) as [Heq|Hne].
  - rewrite filter_cons_True by done. rewrite regroup_none by congruence.
    by rewrite Heq.
  - rewrite filter_cons_False by done. rewrite IH by set_solver.
    by rewrite Permutation_middle.
Qed.

Lemma regroup {A B} (key : A → nat) (f : nat → A → B) (l : list A) (ks : list nat) :
  NoDup ks → (∀ x, x ∈ l → key x ∈ ks) →
  flat_map (λ k, f k <$> filter (λ y, key y = k) l) ks ≡ₚ (λ x, f (key x) x) <$> l.
Proof.
  intros Hnd. induction l as [|x l IH]; intros Hks.
  - clear Hks. induction ks as [|k ks IH]; [done|]. simpl.
    apply IH. by apply NoDup_cons in Hnd as [_ ?].
  - rewrite regroup_one by (done || apply Hks; set_solver).
    rewrite fmap_cons. f_equiv. apply IH. intros y Hy. apply Hks. set_solver.
Qed.




(** ** The catalog documents of relational base data *)













(** ** The sale documents of relational base data *)


Lemma Forall2_elem_of_r {A B} (P : A → B → Prop) l k y :
  Forall2 P l k → y ∈ k → ∃ x, x ∈ l ∧ P x y.
Proof.
  intros HF (i & Hi)%list_elem_of_lookup.
  destruct (Forall2_lookup_r _ _ _ _ _ HF Hi) as (x & Hx & HP).
  exists x. split; [|done]. by eapply list_elem_of_lookup_2.
Qed.




Lemma dict_of_is_Some `{Countable K} {V} (pairs : list (K * V)) k :
  k ∈ pairs.*1 → is_Some (dict_of pairs !! k).
Proof.
  induction pairs as [|[k' v'] pairs IH] using rev_ind; [by intros ?%elem_of_nil|].
  rewrite fmap_app, elem_of_app, dict_of_snoc. intros Hk.
  destruct (decide (k' = k)) as [->|Hne].
  - rewrite lookup_insert_eq. eauto.
  - rewrite lookup_insert_ne by done. apply IH. set_solver.
Qed.



(** ** Batches *)

Lemma chunks_step {A} (it : list A) size :
  chunks it size =
    match take size it with
    | [] => []
    | batch => batch :: chunks (drop size it) size
    end.
Proof. funelim (chunks it size); by rewrite e. Qed.

Lemma ceil_div_succ n size :
  0 < n → 0 < size → (n + size - 1) / size = S ((n - size + size - 1) / size).
Proof.
  intros Hn Hs. destruct (decide (n ≤ size)) as [Hle|Hgt].
  - replace (n - size) with 0 by lia. rewrite (Nat.div_small (0 + size - 1)) by lia.
    symmetry. apply (Nat.div_unique _ _ 1 (n - 1)); lia.
  - replace (n + size - 1) with ((n - size + size - 1) + 1 * size) by lia.
    rewrite Nat.div_add by lia. lia.
Qed.

Lemma chunks_slices {A} size (it : list A) :
  0 < size →
  chunks it size
    = (λ k, take size (drop (k * size) it)) <$> seq 0 ((length it + size - 1) / size).
Proof.
  intros Hs. remember (length it) as n eqn:Hn. revert it Hn.
  induction n as [n IH] using lt_wf_ind. intros it ->.
  rewrite chunks_step. destruct it as [|x it].
  - rewrite take_nil. simpl. by rewrite Nat.div_small by lia.
  - destruct size as [|size]; [lia|]. rewrite firstn_cons.
    rewrite (ceil_div_succ (length (x :: it))) by (simpl; lia).
    cbn [seq fmap list_fmap]. f_equal.
    rewrite (IH (length (drop (S size) (x :: it)))) by (rewrite ?length_drop; simpl; lia || done).
    rewrite length_drop. rewrite <- fmap_S_seq, <- list_fmap_compose.
    apply list_fmap_ext. intros _ k _. simpl. rewrite drop_drop. done.
Qed.

Lemma chunks_lookup {A} size (it : list A) i batch :
  0 < size → chunks it size !! i = Some batch →
  batch = take size (drop (i * size) it) ∧ i * size < length it.
Proof.
  intros Hs. rewrite chunks_slices by done. rewrite list_lookup_fmap.
  intros Hl. destruct (seq 0 _ !! i) as [k|] eqn:Hk; [|done].
  apply lookup_seq in Hk as [-> Hlt]. simpl in Hl. injection Hl as <-. split; [done|].
  assert ((length it + size - 1) / size * size ≤ length it + size - 1) as Hle.
  { rewrite Nat.mul_comm. apply Nat.Div0.mul_div_le. }
  nia.
Qed.

Lemma chunks_length {A} size (it : list A) :
  0 < size → length (chunks it size) = (length it + size - 1) / size.
Proof. intros Hs. by rewrite chunks_slices, length_fmap, length_seq. Qed.

Lemma chunks_concat {A} size (it : list A) : 0 < size → concat (chunks it size) = it.
Proof.
  intros Hs. remember (length it) as n eqn:Hn. revert it Hn.
  induction n as [n IH] using lt_wf_ind. intros it ->.
  rewrite chunks_step. destruct (take size it) as [|x batch] eqn:Ht.
  - destruct it; [done|]. by destruct size; [lia|].
  - simpl. rewrite (IH (length (drop size it))); [|rewrite length_drop|done].
    + rewrite app_comm_cons, <- Ht. apply take_drop.
    + destruct it; [by rewrite take_nil in Ht|]. simpl. lia.
Qed.

Lemma chunks_Forall {A} size (it : list A) :
  0 < size → Forall (λ batch, 1 ≤ length batch ≤ size) (chunks it size).
Proof.
  intros Hs. apply Forall_lookup. intros i batch Hb.
  apply chunks_lookup in Hb as [-> Hlt]; [|done].
  rewrite length_take, length_drop. lia.
Qed.

(** Slicing [docs[i:i+size]] at every [i] of [range(0, len(docs), size)]
    gives the batches of [chunks]. *)
Lemma slices_chunks {A} size (docs : list A) :
  0 < size →
  (λ i, take size (drop i docs)) <$> range_step (length docs) size = chunks docs size.
Proof.
  intros Hs. rewrite chunks_slices by done. unfold range_step.
  by rewrite <- list_fmap_compose.
Qed.

Lemma chunks_empty {A} (it : list A) size : chunks it size = [] ↔ it = [] ∨ size = 0.
Proof.
  rewrite chunks_step. split.
  - destruct (take size it) eqn:Ht; [|done]. intros _.
    destruct it; [by left|]. destruct size; [by right|done].
  - intros [->| ->]; [by rewrite take_nil|done].
Qed.

(** ** The MongoDB paths *)

Lemma foldM_calls {A} (ev : A → event) (l : list A) :
  foldM (λ _ x, call (ev x)) tt l = (ev <$> l, inr tt).
Proof.
  induction l as [|x l IH]; [done|]. cbn [foldM].
  apply injective_projections; [rewrite bind_calls|rewrite bind_outcome];
    cbn [call fst snd]; by rewrite IH.
Qed.

Lemma load_mongo_sales_calls (docs : list sale_doc) :
  load_mongo_sales docs
    = ([MongoClient; MongoDrop "sales"]
         ++ ((λ chunk, MongoInsertMany "sales" (SalesDocs chunk)) <$> chunks docs CHUNK)
         ++ [MongoClose],
       inr tt).
Proof.
  unfold load_mongo_sales. rewrite slices_chunks by (unfold CHUNK; lia).
  rewrite (foldM_calls (λ chunk, MongoInsertMany "sales" (SalesDocs chunk))).
  done.
Qed.

Lemma sales_collection_inserts (h : list event) (batches : list (list sale_doc)) :
  sales_collection (h ++ ((λ chunk, MongoInsertMany "sales" (SalesDocs chunk)) <$> batches))
    = sales_collection h ++ concat batches.
Proof.
  unfold sales_collection. rewrite foldl_app. generalize (foldl
    (λ held ev,
       match ev with
       | MongoDrop coll => if decide (coll = "sales") then [] else held
       | MongoInsertMany coll (SalesDocs docs) =>
           if decide (coll = "sales") then held ++ docs else held
       | _ => held
       end) [] h) as held.
  induction batches as [|b bs IH]; intros held; simpl; [by rewrite app_nil_r|].
  rewrite IH. by rewrite <- app_assoc.
Qed.

(** [chunks] loses and repeats nothing: for a positive size the batches,
    one after another, are the input, and every batch holds between one
    and [size] elements. *)
Theorem chunks_partition {A} (it : list A) size :
  0 < size →
  concat (chunks it size) = it ∧
  Forall (λ batch, 1 ≤ length batch ≤ size) (chunks it size).
Proof. intros Hs. split; [by apply chunks_concat|by apply chunks_Forall]. Qed.

(** For a positive size [chunks] yields the length of the input divided by
    [size], rounded up, batches; the i-th batch is the slice of [size]
    elements that starts at [i * size], and every batch but the last is
    full. *)
Theorem chunks_are_full_but_the_last {A} (it : list A) size :
  0 < size →
  length (chunks it size) = (length it + size - 1) / size ∧
  ∀ i batch, chunks it size !! i = Some batch →
    batch = take size (drop (i * size) it) ∧
    (S i < length (chunks it size) → length batch = size).
Proof.
  intros Hs. split; [by apply chunks_length|].
  intros i batch Hb. destruct (chunks_lookup _ _ _ _ Hs Hb) as [-> Hlt].
  split; [done|]. intros Hnext.
  destruct (lookup_lt_is_Some_2 _ _ Hnext) as [next Hn].
  apply chunks_lookup in Hn as [_ Hn]; [|done].
  rewrite length_take, length_drop. simpl in Hn. lia.
Qed.

(** [chunks] yields no batch exactly when the input is empty or the size
    is zero: with size zero the elements of the input are dropped. *)
Theorem chunks_yields_nothing {A} (it : list A) size :
  chunks it size = [] ↔ it = [] ∨ size = 0.
Proof. apply chunks_empty. Qed.

(** [write_batches] writes one INSERT statement per batch of at most
    [BATCH_SIZE] rows: together the batches hold every row once, in order,
    no statement is written for an empty batch, and a table without rows
    gets no statement. *)
Theorem write_batches_statements str_float strftime_sql
    (data : list (list (sqlval (num:=num)))) table columns :
  ∃ batches,
    write_batches str_float strftime_sql data table columns
      = build_insert str_float strftime_sql table columns <$> batches ∧
    concat batches = data ∧
    Forall (λ batch, 1 ≤ length batch ≤ 1000) batches ∧
    length batches = (length data + 999) / 1000.
Proof.
  exists (chunks data BATCH_SIZE). split_and!.
  - done.
  - apply chunks_concat. unfold BATCH_SIZE. lia.
  - apply (chunks_Forall BATCH_SIZE). unfold BATCH_SIZE. lia.
  - rewrite chunks_length by (unfold BATCH_SIZE; lia). unfold BATCH_SIZE. f_equal. lia.
Qed.

(** [load_mongo_sales] creates a client, drops the collection, inserts the
    documents in batches and closes the client: the batches, one after
    another, are the documents, every batch holds between 1 and [CHUNK]
    documents, and there are [len(docs) / CHUNK], rounded up, of them, so
    that no [insert_many] is issued when there are no documents. *)
Theorem load_mongo_sales_inserts_in_batches (docs : list sale_doc) :
  ∃ batches,
    load_mongo_sales docs
      = ([MongoClient; MongoDrop "sales"]
           ++ ((λ chunk, MongoInsertMany "sales" (SalesDocs chunk)) <$> batches)
           ++ [MongoClose],
         inr tt) ∧
    concat batches = docs ∧
    Forall (λ batch, 1 ≤ length batch ≤ 2000) batches ∧
    length batches = (length docs + 1999) / 2000.
Proof.
  exists (chunks docs CHUNK). split_and!.
  - apply load_mongo_sales_calls.
  - apply chunks_concat. unfold CHUNK. lia.
  - apply (chunks_Forall CHUNK). unfold CHUNK. lia.
  - rewrite chunks_length by (unfold CHUNK; lia). unfold CHUNK. f_equal. lia.
Qed.

(** Both MongoDB paths replace the contents of their collection: whatever
    calls were served before, once the calls of [load_mongo_catalog] have
    been served the collection [stores] holds exactly the documents of the
    catalog, and once those of [load_mongo_sales] have been served the
    collection [sales] holds exactly the sales documents, in order. *)
Theorem mongo_loads_replace_collections (served0 : list event)
    (catalog : list store_doc) (docs : list sale_doc) :
  stores_collection (served0 ++ (load_mongo_catalog catalog).1) = catalog ∧
  sales_collection (served0 ++ (load_mongo_sales docs).1) = docs.
Proof.
  split.
  - unfold stores_collection. rewrite foldl_app. done.
  - rewrite load_mongo_sales_calls. cbn [fst].
    rewrite !app_assoc. unfold sales_collection at 1. rewrite foldl_app. cbn [foldl].
    fold (sales_collection ((served0 ++ [MongoClient; MongoDrop "sales"]) ++
      ((λ chunk, MongoInsertMany "sales" (SalesDocs chunk)) <$> chunks docs CHUNK))).
    rewrite sales_collection_inserts. rewrite chunks_concat by (unfold CHUNK; lia).
    unfold sales_collection. by rewrite foldl_app.
Qed.


(** ** Texts *)

Lemma occurs_empty c : ¬ occurs c "".
Proof. unfold occurs. simpl. apply not_elem_of_nil. Qed.

Lemma occurs_String c a s : occurs c (String a s) ↔ c = a ∨ occurs c s.
Proof. unfold occurs. simpl. apply elem_of_cons. Qed.

Lemma append_String a (s t : string) : String a s +:+ t = String a (s +:+ t).
Proof. done. Qed.

Lemma append_empty_l (s : string) : "" +:+ s = s.
Proof. done. Qed.

Lemma occurs_append c s t : occurs c (s +:+ t) ↔ occurs c s ∨ occurs c t.
Proof.
  induction s as [|a s IH]; rewrite ?append_String, ?append_empty_l.
  - split; [by right|]. intros [Hs|Ht]; [by apply occurs_empty in Hs|done].
  - rewrite !occurs_String, IH. tauto.
Qed.

Lemma append_assoc (s t u : string) : (s +:+ t) +:+ u = s +:+ t +:+ u.
Proof. induction s as [|a s IH]; [done|]. by rewrite !append_String, IH. Qed.

Lemma append_empty_r (s : string) : s +:+ "" = s.
Proof. induction s as [|a s IH]; [done|]. by rewrite append_String, IH. Qed.

Lemma replace_char_append old new s t :
  replace_char old new (s +:+ t) = replace_char old new s +:+ replace_char old new t.
Proof.
  induction s as [|a s IH]; [done|]. rewrite append_String. cbn [replace_char].
  destruct (Ascii.eqb a old); rewrite IH; [by rewrite append_assoc|done].
Qed.

Lemma replace_char_removes old new s :
  ¬ occurs old new → ¬ occurs old (replace_char old new s).
Proof.
  intros Hnew. induction s as [|a s IH]; simpl; [apply occurs_empty|].
  destruct (Ascii.eqb_spec a old) as [->|Hne].
  - rewrite occurs_append. tauto.
  - rewrite occurs_String. intros [->|?]; [done|tauto].
Qed.

Lemma replace_char_absent old new s : ¬ occurs old s → replace_char old new s = s.
Proof.
  induction s as [|a s IH]; simpl; [done|]. rewrite occurs_String. intros Hs.
  destruct (Ascii.eqb_spec a old) as [->|Hne]; [tauto|]. rewrite IH; [done|tauto].
Qed.

(** [extract_ts] removes every [Z] of an Extended-JSON date, so that the
    date written by [mongo_date], which ends in the only [Z] of its
    format, loses exactly this last character; a timestamp that is a
    plain string is returned as it is. *)
Theorem extract_ts_drops_every_Z :
  (∀ s, ¬ occurs "Z" (extract_ts (TsDate s))) ∧
  (∀ strftime dt body,
     strftime dt = body +:+ "Z" → ¬ occurs "Z" body →
     extract_ts (mongo_date strftime dt) = body) ∧
  (∀ s, extract_ts (TsPlain s) = s).
Proof.
  split_and!.
  - intros s. simpl. apply replace_char_removes, occurs_empty.
  - intros strftime dt body Hs Hbody. unfold mongo_date. rewrite Hs. simpl.
    rewrite replace_char_append, replace_char_absent by done. simpl.
    apply append_empty_r.
  - done.
Qed.

(** The address of every generated store is one line: the generators
    replace each newline of [fake.address()]. *)
Theorem generated_addresses_are_one_line cfg fake (st : store) :
  st ∈ gen_stores cfg fake → ¬ occurs "010" (s_address st).
Proof.
  unfold gen_stores. intros (i & -> & _)%list_elem_of_fmap. simpl.
  apply replace_char_removes. rewrite !occurs_String.
  intros [?|[?|?%occurs_empty]]; done.
Qed.

(** *** The buffer of [copy_rows] *)

Lemma split_absent sep s : ¬ occurs sep s → split sep s = [s].
Proof.
  induction s as [|a s IH]; simpl; [done|]. rewrite occurs_String. intros Hs.
  destruct (Ascii.eqb_spec a sep) as [->|Hne]; [tauto|]. rewrite IH; [done|tauto].
Qed.

Lemma split_append sep s rest :
  ¬ occurs sep s → split sep (s +:+ String sep rest) = s :: split sep rest.
Proof.
  induction s as [|a s IH]; rewrite ?append_String, ?append_empty_l; cbn [split].
  - intros _. by rewrite Ascii.eqb_refl.
  - rewrite occurs_String. intros Hs.
    destruct (Ascii.eqb_spec a sep) as [->|Hne]; [tauto|]. rewrite IH; [done|tauto].
Qed.

Lemma split_concat sep (fields : list string) :
  fields ≠ [] → Forall (λ f, ¬ occurs sep f) fields →
  split sep (String.concat (String sep "") fields) = fields.
Proof.
  induction fields as [|f fields IH]; [done|]. intros _ Hf.
  apply Forall_cons in Hf as [Hf Hfs]. destruct fields as [|f' fields].
  - simpl. by apply split_absent.
  - change (String.concat (String sep "") (f :: f' :: fields))
      with (f +:+ String sep (String.concat (String sep "") (f' :: fields))).
    rewrite split_append by done. by rewrite IH.
Qed.

Lemma occurs_concat c sep (fields : list string) :
  occurs c (String.concat sep fields) → occurs c sep ∨ ∃ f, f ∈ fields ∧ occurs c f.
Proof.
  induction fields as [|f fields IH]; [by intros ?%occurs_empty|].
  destruct fields as [|f' fields].
  - simpl. intros Hf. right. exists f. split; [set_solver|done].
  - change (String.concat sep (f :: f' :: fields))
      with (f +:+ sep +:+ String.concat sep (f' :: fields)).
    rewrite !occurs_append. intros [Hf|[Hs|Hrest]].
    + right. exists f. split; [set_solver|done].
    + by left.
    + destruct (IH Hrest) as [?|(g & Hg & ?)]; [by left|].
      right. exists g. split; [set_solver|done].
Qed.

Lemma copy_buffer_cons str_float (row : list pyval) rows :
  copy_buffer str_float (row :: rows)
    = String.concat tab (str str_float <$> row) +:+ nl +:+ copy_buffer str_float rows.
Proof.
  unfold copy_buffer. cbn [foldl]. generalize (String.concat tab (str str_float <$> row)).
  intros line. change ("" +:+ line +:+ nl) with (line +:+ nl).
  rewrite <- append_assoc. generalize (line +:+ nl) as buffer.
  assert (∀ rows buffer,
    foldl (λ buffer row, buffer +:+ String.concat tab (str str_float <$> row) +:+ nl)
      buffer rows
    = buffer +:+ foldl (λ buffer row,
        buffer +:+ String.concat tab (str str_float <$> row) +:+ nl) "" rows) as Hacc.
  { clear. induction rows as [|r rows IH]; intros buffer; cbn [foldl].
    - by rewrite append_empty_r.
    - rewrite IH, (IH ("" +:+ _)). by rewrite append_empty_l, !append_assoc. }
  intros buffer. apply Hacc.
Qed.

Lemma copy_buffer_lines str_float (rows : list (list pyval)) :
  Forall (λ row,
    row ≠ [] ∧
    Forall (λ v, ¬ occurs "009" (str str_float v) ∧ ¬ occurs "010" (str str_float v)) row)
    rows →
  read_buffer (copy_buffer str_float rows) = (λ row : list pyval, str str_float <$> row) <$> rows.
Proof.
  unfold read_buffer. intros Hrows.
  assert (split "010" (copy_buffer str_float rows)
          = (String.concat tab <$> ((λ row : list pyval, str str_float <$> row) <$> rows)) ++ [""]) as ->.
  { induction Hrows as [|row rows [Hne Hrow] Hrows IH]; [done|].
    rewrite copy_buffer_cons. unfold nl. rewrite append_String, append_empty_l.
    rewrite split_append; [by rewrite IH|].
    intros [Hs|(f & Hf & Ho)]%occurs_concat.
    - unfold tab in Hs. apply occurs_String in Hs as [?|?%occurs_empty]; done.
    - apply list_elem_of_fmap in Hf as (v & -> & Hv).
      rewrite Forall_forall in Hrow. by apply (Hrow v Hv). }
  rewrite removelast_last. rewrite <- !list_fmap_compose.
  apply list_fmap_ext. intros _ row Hrow%list_elem_of_lookup_2. simpl.
  rewrite Forall_forall in Hrows. destruct (Hrows row Hrow) as [Hne Hvs].
  apply (split_concat "009").
  - by destruct row.
  - apply Forall_fmap. eapply Forall_impl; [done|]. by intros v [? _].
Qed.

(** The buffer that [copy_rows] hands to COPY reads back as the rows:
    when every row has a value and no [str(v)] holds a tab or a newline,
    splitting the buffer at the newlines and its lines at the tabs gives
    the [str(v)] of every row, in order.  The values are written as they
    are, with no escaping. *)
Theorem copy_buffer_reads_back str_float (rows : list (list pyval)) :
  Forall (λ row,
    row ≠ [] ∧
    Forall (λ v, ¬ occurs "009" (str str_float v) ∧ ¬ occurs "010" (str str_float v)) row)
    rows →
  read_buffer (copy_buffer str_float rows) = (λ row : list pyval, str str_float <$> row) <$> rows.
Proof. apply copy_buffer_lines. Qed.

(** *** SQL literals *)

Lemma read_literal_body_escaped s rest :
  (∀ r, rest ≠ String "'" r) →
  read_literal_body (replace_char "'" "''" s +:+ "'" +:+ rest) = Some (s, rest).
Proof.
  intros Hrest. induction s as [|a s IH].
  - cbn [replace_char]. rewrite append_empty_l, append_String, append_empty_l.
    cbn [read_literal_body]. rewrite Ascii.eqb_refl.
    destruct rest as [|c rest]; [done|].
    destruct (Ascii.eqb_spec c "'") as [->|Hne]; [by destruct (Hrest rest)|done].
  - cbn [replace_char]. destruct (Ascii.eqb_spec a "'") as [->|Hne].
    + rewrite append_assoc.
      change ("''" +:+ replace_char "'" "''" s +:+ "'" +:+ rest)
        with (String "'" (String "'" (replace_char "'" "''" s +:+ "'" +:+ rest))).
      cbn [read_literal_body]. rewrite !Ascii.eqb_refl. by rewrite IH.
    + rewrite append_String. cbn [read_literal_body].
      destruct (Ascii.eqb_spec a "'") as [?|_]; [done|]. by rewrite IH.
Qed.

(** [fmt_value] quotes a string so that it reads back: whatever the
    string, the literal written, followed by any text that does not start
    with a quote, is read by PostgreSQL as that string followed by that
    text.  A quote inside the string cannot end the literal. *)
Theorem fmt_value_string_reads_back str_float strftime_sql (s rest : string) :
  (∀ r, rest ≠ String "'" r) →
  read_literal (fmt_value (num:=num) str_float strftime_sql (SqlStr s) +:+ rest)
    = Some (s, rest).
Proof.
  intros Hrest. cbn [fmt_value]. rewrite !append_assoc.
  rewrite append_String, append_empty_l. cbn [read_literal]. rewrite Ascii.eqb_refl.
  by apply read_literal_body_escaped.
Qed.

(** ** The calls of the JSON path, one by one *)

Lemma Forall_copy_one (P : event → Prop) table columns (row : list pyval) :
  P (PgCopy (lower table) columns [row]) →
  Forall P (copy_rows table columns [row]).1.
Proof. intros HP. by repeat constructor. Qed.

Ltac one_row_copies :=
  repeat first
    [ apply Forall_ret
    | apply Forall_raise_from
    | apply Forall_copy_one;
        (split; [apply (bool_decide_unpack _); vm_compute; exact I|reflexivity])
    | apply Forall_foldM; intros ??
    | apply Forall_bind; [|intros ?]
    | match goal with |- Forall _ (match ?x with _ => _ end).1 => destruct x end ].

Lemma ingest_store_one_row v (doc : store_doc) :
  Forall copies_one_row (ingest_store v doc).1.
Proof.
  unfold ingest_store, ingest_employee, ingest_inventory, ingest_category,
    ingest_product. one_row_copies.
Qed.

Lemma ingest_sale_one_row v sv (sale : sale_doc) :
  Forall copies_one_row (ingest_sale v sv sale).1.
Proof. unfold ingest_sale, ingest_customer, ingest_line. one_row_copies. Qed.

(** Between the DDL and the commit, [load_postgres_from_json] issues
    nothing but COPY commands, and every one of them carries exactly one
    row, for one of the eight tables and with one value for each of the
    columns it names: rows are never sent in batches. *)
Theorem load_postgres_from_json_copies_row_by_row ddl_file (catalog : list store_doc)
    (sales_docs : list sale_doc) :
  ∃ copies,
    Forall copies_one_row copies ∧
    (load_postgres_from_json ddl_file catalog sales_docs).1 =
      [PgConnect JsonDb; PgExecute ddl_file] ++ copies ++
      match (load_postgres_from_json ddl_file catalog sales_docs).2 with
      | inr _ => [PgCommit]
      | inl _ => []
      end.
Proof.
  unfold load_postgres_from_json.
  pose proof (Forall_foldM copies_one_row ingest_store catalog
    ingest_store_one_row catalog_vars_init) as Hc.
  destruct (foldM ingest_store catalog_vars_init catalog) as [es1 [e|v]]; simpl in *.
  { exists es1. by rewrite app_nil_r. }
  pose proof (Forall_foldM copies_one_row (ingest_sale v) sales_docs
    (ingest_sale_one_row v) sales_vars_init) as Hs.
  destruct (foldM (ingest_sale v) sales_vars_init sales_docs) as [es2 [e|sv]]; simpl in *.
  - exists (es1 ++ es2). split; [by apply Forall_app|]. by rewrite !app_nil_r.
  - exists (es1 ++ es2). split; [by apply Forall_app|]. by rewrite <- !app_assoc.
Qed.
(** ** Sales that do not resolve *)

Lemma tagged_NoDup (ds : list store_doc) :
  NoDup (sd_store_name <$> ds) → tagged ds = imap (λ k d, (S k, d)) ds.
Proof.
  intros Hnd. unfold tagged. apply imap_ext. intros k d Hk%lookup_lt_Some.
  simpl. by rewrite store_id_at_NoDup by (done || lia).
Qed.

Lemma dict_of_is_Some_inv `{Countable K} {V} (pairs : list (K * V)) k :
  is_Some (dict_of pairs !! k) → k ∈ pairs.*1.
Proof.
  intros Hk%elem_of_dom. rewrite dom_dict_of in Hk. by apply elem_of_list_to_set in Hk.
Qed.

Lemma elem_of_flat_map {A B} (f : A → list B) (l : list A) x :
  x ∈ flat_map f l ↔ ∃ y, y ∈ l ∧ x ∈ f y.
Proof.
  rewrite list_elem_of_In, in_flat_map. split.
  - intros (y & Hy & Hx). exists y. by rewrite !list_elem_of_In.
  - intros (y & Hy & Hx). exists y. by rewrite <- !list_elem_of_In.
Qed.

Lemma resolvable_employed (ds : list store_doc) (h : list event) v (sale : sale_doc) :
  catalog_done ds h v → NoDup (sd_store_name <$> ds) →
  resolvable v sale ↔ employed ds sale.
Proof.
  intros Hcat Hnd.
  pose proof (ci_store_map _ _ _ _ _ _ _ Hcat) as Hsm.
  pose proof (ci_employee_map _ _ _ _ _ _ _ Hcat) as Hem.
  assert (NoDup ((λ td : nat * store_doc, (sd_store_name td.2, td.1)) <$> tagged ds).*1)
    as Hkeys.
  { replace (((λ td : nat * store_doc, (sd_store_name td.2, td.1)) <$> tagged ds).*1)
      with (sd_store_name <$> (tagged ds).*2); [by rewrite tagged_docs|].
    rewrite <- !list_fmap_compose. by apply list_fmap_ext. }
  assert ((imap (λ i (te : nat * employee_doc),
             ((ed_first_name te.2, ed_last_name te.2, te.1), S i))
             (all_employees (tagged ds))).*1
          = (λ te : nat * employee_doc, (ed_first_name te.2, ed_last_name te.2, te.1))
              <$> all_employees (tagged ds)) as Hekeys.
  { rewrite fmap_imap.
    rewrite (imap_ext _ (const (λ te : nat * employee_doc,
      (ed_first_name te.2, ed_last_name te.2, te.1)))) by done.
    apply imap_const. }
  split.
  - intros (sid & eid & Hs & He).
    rewrite Hsm in Hs. apply dict_of_lookup in Hs; [|done].
    apply list_elem_of_fmap in Hs as (td & [= Hname ->] & Htd).
    assert (is_Some (employee_map v !!
              (sl_emp_first_name sale, sl_emp_last_name sale, td.1))) as Hkey by eauto.
    rewrite Hem in Hkey. apply dict_of_is_Some_inv in Hkey. rewrite Hekeys in Hkey.
    apply list_elem_of_fmap in Hkey as (te & [= Hf Hl Ht] & Hte).
    unfold all_employees in Hte. apply elem_of_flat_map in Hte as (td' & Htd' & Hin).
    apply list_elem_of_fmap in Hin as (e & -> & Hein). simpl in *.
    assert (td' = td) as ->.
    { rewrite tagged_NoDup in Htd, Htd' by done.
      apply elem_of_lookup_imap in Htd as (i & d & -> & Hi).
      apply elem_of_lookup_imap in Htd' as (i' & d' & -> & Hi').
      simpl in Ht. injection Ht as <-. congruence. }
    exists td.2, e. split_and!; try done.
    rewrite <- (tagged_docs ds). apply list_elem_of_fmap. by exists td.
  - intros (d & e & Hd & Hname & He & Hf & Hl).
    assert (∃ td, td ∈ tagged ds ∧ td.2 = d) as (td & Htd & <-).
    { rewrite <- (tagged_docs ds) in Hd.
      apply list_elem_of_fmap in Hd as (td & -> & Htd). by exists td. }
    assert (is_Some (employee_map v !!
              (sl_emp_first_name sale, sl_emp_last_name sale, td.1))) as [eid Heid].
    { rewrite Hem. apply dict_of_is_Some. rewrite Hekeys.
      apply list_elem_of_fmap. exists (td.1, e). split; [simpl; congruence|].
      unfold all_employees. apply elem_of_flat_map. exists td.
      split; [done|]. apply list_elem_of_fmap. by exists e. }
    exists td.1, eid. split; [|done].
    rewrite Hsm. apply dict_of_lookup; [done|].
    apply list_elem_of_fmap. exists td. split; [by rewrite Hname|done].
Qed.

Lemma ingest_lines_return v sale_id (lns : list line_doc) :
  ∀ n, ∃ n', (foldM (ingest_line v sale_id) n lns).2 = inr n'.
Proof.
  induction lns as [|ln lns IH]; intros n; cbn [foldM]; [by exists n|].
  rewrite bind_outcome. unfold ingest_line.
  destruct (product_map v !! pd_name (ld_product ln)); simpl; apply IH.
Qed.

Lemma raise_from_outcome {A} (r : result A) : (raise_from (num:=num) r).2 = r.
Proof. done. Qed.

Lemma ingest_sale_outcome v sv (sale : sale_doc) :
  match (ingest_sale v sv sale).2 with
  | inr _ => resolvable v sale
  | inl e => ¬ resolvable v sale ∧ (e = KeyError "store_map" ∨ e = KeyError "employee_map")
  end.
Proof.
  unfold ingest_sale. rewrite bind_outcome.
  assert (∃ sv', (ingest_customer sv (sl_customer sale)).2 = inr sv' ∧
                 is_Some (customers_map sv' !! cd_email (sl_customer sale)))
    as (sv' & -> & [cid Hcid]).
  { unfold ingest_customer.
    destruct (customers_map sv !! cd_email (sl_customer sale)) eqn:Hl; simpl.
    - exists sv. by rewrite Hl.
    - eexists. split; [done|]. simpl. rewrite lookup_insert_eq. by eexists. }
  rewrite bind_outcome, raise_from_outcome. unfold getitem at 1.
  destruct (store_map v !! sl_store_name sale) as [store_id|] eqn:Hst.
  2:{ split; [|by left]. intros (? & ? & ? & ?). congruence. }
  rewrite bind_outcome, raise_from_outcome. unfold getitem at 1.
  destruct (employee_map v !! _) as [employee_id|] eqn:Hemp.
  2:{ split; [|by right]. intros (? & ? & ? & ?). congruence. }
  rewrite bind_outcome, raise_from_outcome. unfold getitem at 1.
  cbn [customers_map]. rewrite Hcid.
  rewrite bind_outcome. cbn [copy_rows call snd].
  rewrite bind_outcome.
  destruct (ingest_lines_return v (next_sale sv') (sl_lines sale) 1) as [n' ->].
  simpl. by exists store_id, employee_id.
Qed.

Lemma foldM_outcome {A S} (f : S → A → M S) (P : A → Prop) (Q : exn → Prop) l :
  (∀ s a, match (f s a).2 with
          | inr _ => P a
          | inl e => ¬ P a ∧ Q e
          end) →
  ∀ s, match (foldM f s l).2 with
       | inr _ => Forall P l
       | inl e => ¬ Forall P l ∧ Q e
       end.
Proof.
  intros Hf. induction l as [|a l IH]; intros s; cbn [foldM]; [by constructor|].
  rewrite bind_outcome. specialize (Hf s a).
  destruct (f s a).2 as [e|s'].
  - destruct Hf as [Hna HQ]. split; [|done]. by intros [? _]%Forall_cons.
  - specialize (IH s'). destruct (foldM f s' l).2 as [e|s''].
    + destruct IH as [Hnl HQ]. split; [|done]. by intros [_ ?]%Forall_cons.
    + by constructor.
Qed.

(** [load_postgres_from_json] runs to its end exactly when every sale
    resolves: for a catalog with pairwise distinct store names, the run
    completes if and only if every sale names a store of the catalog and
    an employee listed in the document of that store; otherwise it ends in
    the [KeyError] of the lookup in [store_map] or in [employee_map].  No
    other lookup of the function can fail. *)
Theorem sales_resolve_or_raise_KeyError ddl_file (catalog : list store_doc)
    (sales_docs : list sale_doc) :
  NoDup (sd_store_name <$> catalog) →
  ((load_postgres_from_json ddl_file catalog sales_docs).2 = inr tt
     ↔ Forall (employed catalog) sales_docs) ∧
  (∀ e, (load_postgres_from_json ddl_file catalog sales_docs).2 = inl e →
     e = KeyError "store_map" ∨ e = KeyError "employee_map").
Proof.
  intros Hnd.
  destruct (ingest_catalog_spec ddl_file catalog) as (es & v & Hcat & Hdone).
  pose proof (foldM_outcome (ingest_sale v) (resolvable v)
    (λ e, e = KeyError "store_map" ∨ e = KeyError "employee_map") sales_docs
    (ingest_sale_outcome v) sales_vars_init) as Hsales.
  assert (Forall (resolvable v) sales_docs ↔ Forall (employed catalog) sales_docs) as Hiff.
  { apply Forall_iff. intros sale. by eapply resolvable_employed. }
  unfold load_postgres_from_json. rewrite !bind_outcome. cbn [call snd].
  rewrite Hcat. cbn [snd]. rewrite bind_outcome.
  destruct (foldM (ingest_sale v) sales_vars_init sales_docs).2 as [e|sv].
  - destruct Hsales as [Hn HQ]. split.
    + split; [done|]. intros HF. by apply Hiff in HF.
    + by intros e' [= <-].
  - split; [|done]. split; [|done]. intros _. by apply Hiff.
Qed.

(** ** The rows of the sales loop *)

Lemma after_and {A} h (m : M A) (Q Q' : list event → A → Prop) (E E' : list event → Prop) :
  after h m Q E → after h m Q' E' →
  after h m (λ h' a, Q h' a ∧ Q' h' a) (λ h', E h' ∧ E' h').
Proof. unfold after. by destruct m.2. Qed.

Lemma customer_emails_snoc (ss : list sale_doc) sale :
  customer_emails (ss ++ [sale]) =
    if decide (cd_email (sl_customer sale) ∈ customer_emails ss) then customer_emails ss
    else customer_emails ss ++ [cd_email (sl_customer sale)].
Proof.
  unfold customer_emails, first_customers. rewrite fmap_app. cbn [fmap list_fmap].
  rewrite first_by_snoc. case_decide; [done|]. by rewrite fmap_app.
Qed.

Lemma customer_emails_elem_of (ss : list sale_doc) sale :
  sale ∈ ss → cd_email (sl_customer sale) ∈ customer_emails ss.
Proof.
  intros Hs. unfold customer_emails, first_customers. rewrite first_by_keys.
  apply first_seen_elem_of. rewrite <- list_fmap_compose.
  apply list_elem_of_fmap. by exists sale.
Qed.

Lemma sale_rows_more_emails stores emps (ss : list sale_doc) (l : list string) :
  imap (sale_row stores emps (customer_emails ss ++ l)) ss
    = imap (sale_row stores emps (customer_emails ss)) ss.
Proof.
  apply imap_ext. intros k sale Hk%list_elem_of_lookup_2. unfold sale_row.
  by rewrite number_of_app by by apply customer_emails_elem_of.
Qed.

Lemma sale_rows_snoc stores emps (ss : list sale_doc) sale :
  imap (sale_row stores emps (customer_emails (ss ++ [sale]))) (ss ++ [sale])
    = imap (sale_row stores emps (customer_emails ss)) ss
        ++ [sale_row stores emps (customer_emails (ss ++ [sale])) (length ss) sale].
Proof.
  rewrite imap_snoc. f_equal. rewrite customer_emails_snoc. case_decide; [done|].
  apply sale_rows_more_emails.
Qed.

Lemma ingest_customer_frame sv (c : customer_doc) (h : list event) :
  after h (ingest_customer sv c)
    (λ h' _, rows_of "sale" h' = rows_of "sale" h ∧
             rows_of "saleline" h' = rows_of "saleline" h)
    (λ _, False).
Proof.
  unfold ingest_customer. destruct (customers_map sv !! cd_email c).
  - by apply after_ret.
  - apply after_bind, after_call, after_ret. by tables.
Qed.

Lemma ingest_line_rows v prods sale_id (lns : list line_doc) ln line_no (h : list event)
    (sales0 lines0 : list (list pyval)) :
  numbers (product_map v) prods →
  rows_of "sale" h = sales0 ∧
  rows_of "saleline" h
    = lines0 ++ imap (saleline_row prods sale_id)
                  (filter (λ ln, pd_name (ld_product ln) ∈ prods) lns) ∧
  line_no = S (length (filter (λ ln, pd_name (ld_product ln) ∈ prods) lns)) →
  after h (ingest_line v sale_id line_no ln)
    (λ h' line_no',
       rows_of "sale" h' = sales0 ∧
       rows_of "saleline" h'
         = lines0 ++ imap (saleline_row prods sale_id)
                       (filter (λ ln, pd_name (ld_product ln) ∈ prods) (lns ++ [ln])) ∧
       line_no' = S (length (filter (λ ln, pd_name (ld_product ln) ∈ prods)
                               (lns ++ [ln]))))
    (λ _, False).
Proof.
  intros Hnum (Hs & Hl & ->). unfold ingest_line. rewrite filter_app.
  destruct (product_map v !! pd_name (ld_product ln)) as [prod_id|] eqn:Hp.
  - assert (pd_name (ld_product ln) ∈ prods) as Hin.
    { destruct (decide (pd_name (ld_product ln) ∈ prods)) as [|Hn]; [done|].
      apply (numbers_None _ _ _ Hnum) in Hn. congruence. }
    rewrite (numbers_Some _ _ _ Hnum Hin) in Hp. injection Hp as <-.
    rewrite filter_cons_True, filter_nil by done.
    apply after_bind, after_call, after_ret. tables.
    split_and!; [done| |rewrite length_app; simpl; lia].
    rewrite imap_snoc, Hl, <- app_assoc. done.
  - apply (numbers_None _ _ _ Hnum) in Hp.
    rewrite filter_cons_False, filter_nil, app_nil_r by done.
    by apply after_ret.
Qed.

Lemma ingest_sale_rows v prods h0 seen sv (sale : sale_doc) (h : list event) :
  numbers (product_map v) prods →
  sales_done v h0 seen h sv → sale_rows_inv v prods seen h →
  after h (ingest_sale v sv sale)
    (λ h' _, sale_rows_inv v prods (seen ++ [sale]) h')
    (λ h', sale_rows_inv v prods seen h').
Proof.
  intros Hnum Hdone Hrows. unfold ingest_sale. apply after_bind.
  eapply after_mono;
    [apply after_and;
      [eapply ingest_customer_inv; exact Hdone
      |apply (ingest_customer_frame sv (sl_customer sale) h)]| |by intros ? [[] _]].
  intros h1 sv1 [Hinv1 [Hs1 Hl1]]. cbv beta in *.
  assert (sale_rows_inv v prods seen h1) as Hrows1.
  { destruct Hrows. constructor; [done|by rewrite Hs1|by rewrite Hl1]. }
  apply after_bind, after_raise_from. unfold getitem at 1.
  destruct (store_map v !! sl_store_name sale) as [store_id|] eqn:Hst; [|done].
  apply after_bind, after_raise_from. unfold getitem at 1.
  destruct (employee_map v !! _) as [employee_id|] eqn:Hemp; [|done].
  apply after_bind, after_raise_from. unfold getitem at 1. cbn [customers_map].
  assert (cd_email (sl_customer sale) ∈ customer_emails (seen ++ [sale])) as Hin.
  { apply customer_emails_elem_of. set_solver. }
  pose proof (si_customers_map _ _ _ _ _ _ _ Hinv1) as Hcm.
  assert (cd_email <$> first_customers ((sl_customer <$> seen) ++ [sl_customer sale])
          = customer_emails (seen ++ [sale])) as Hem.
  { unfold customer_emails. by rewrite fmap_app. }
  rewrite Hem in Hcm.
  rewrite (numbers_Some _ _ _ Hcm) by done.
  apply after_bind, after_call, after_bind.
  eapply after_mono;
    [apply (after_foldM _ (λ lns h' n,
       rows_of "sale" h' = rows_of "sale" h1
         ++ [sale_row (store_map v) (employee_map v) (customer_emails (seen ++ [sale]))
               (length seen) sale] ∧
       rows_of "saleline" h'
         = rows_of "saleline" h1
             ++ imap (saleline_row prods (S (length seen)))
                  (filter (λ ln, pd_name (ld_product ln) ∈ prods) lns) ∧
       n = S (length (filter (λ ln, pd_name (ld_product ln) ∈ prods) lns)))
       (λ _, False)) with (seen := [])| |done].
  - intros lns ln line_no h' Hinv'.
    rewrite (si_next_sale _ _ _ _ _ _ _ Hinv1).
    by apply ingest_line_rows.
  - tables. rewrite (si_next_sale _ _ _ _ _ _ _ Hinv1).
    split_and!; [|done..]. unfold sale_row. rewrite Hst. simpl. by rewrite Hemp.
  - intros h2 n (Hs2 & Hl2 & _). cbv beta. apply after_ret. destruct Hrows1.
    constructor.
    + apply Forall_app. split; [done|]. constructor; [|done].
      by exists store_id, employee_id.
    + by rewrite Hs2, sale_rows_snoc, sr_sale_rows0.
    + rewrite Hl2, imap_snoc, concat_app, sr_saleline_rows0. simpl.
      by rewrite app_nil_r.
Qed.

Lemma ingest_sales_rows v prods (h0 : list event) (sales_docs : list sale_doc) :
  numbers (product_map v) prods →
  rows_of "customer" h0 = [] → rows_of "sale" h0 = [] → rows_of "saleline" h0 = [] →
  after h0 (foldM (ingest_sale v) sales_vars_init sales_docs)
    (λ h' _, sale_rows_inv v prods sales_docs h')
    (λ h', ∃ seen sale rest,
       sales_docs = seen ++ sale :: rest ∧ ¬ resolvable v sale ∧
       sale_rows_inv v prods seen h').
Proof.
  intros Hnum Hc Hs Hl.
  eapply after_mono;
    [apply (after_foldM_within _ (λ seen h' sv',
       sales_done v h0 seen h' sv' ∧ sale_rows_inv v prods seen h')
       (λ h', ∃ seen sale rest,
          sales_docs = seen ++ sale :: rest ∧ ¬ resolvable v sale ∧
          sale_rows_inv v prods seen h'))| |done].
  - intros seen sale rest sv h Hsplit [Hdone Hrows].
    eapply after_mono;
      [apply after_and; [by apply ingest_sale_inv|by eapply ingest_sale_rows]|done|].
    intros h' [[Hres _] Hrows']. by exists seen, sale, rest.
  - split.
    + constructor; rewrite ?Hc, ?Hs, ?Hl; done.
    + constructor; rewrite ?Hs, ?Hl; done.
  - by intros h' sv' [_ ?].
Qed.
(** The rows that [load_postgres_from_json] copies into sale and saleline
    follow the documents: over the sales that the loop reaches (all of
    them when the run completes), the k-th sale gets sale_id k with its
    timestamp passed through [extract_ts], the number of its customer
    email in order of first occurrence, the ids that the catalog loop left
    for its store and its employee, and its total_amount; its lines whose
    product name the catalog knows are numbered from 1 without a gap, each
    with the number of its product, its quantity, the price embedded in
    the line and its line_total. *)
Theorem sale_rows_follow_the_documents ddl_file (catalog : list store_doc)
    (sales_docs : list sale_doc) :
  let run := load_postgres_from_json ddl_file catalog sales_docs in
  ∃ reached,
    reached `prefix_of` sales_docs ∧
    (run.2 = inr tt → reached = sales_docs) ∧
    Forall (resolves (store_ids catalog) (employee_ids catalog)) reached ∧
    rows_of "sale" run.1
      = imap (sale_row (store_ids catalog) (employee_ids catalog)
                (customer_emails reached)) reached ∧
    rows_of "saleline" run.1
      = concat (imap (saleline_rows (product_names catalog)) reached).
Proof.
  intros run.
  destruct (ingest_catalog_spec ddl_file catalog) as (es & v & Hcat & Hdone).
  pose proof (ci_store_map _ _ _ _ _ _ _ Hdone) as Hsm.
  pose proof (ci_employee_map _ _ _ _ _ _ _ Hdone) as Hem.
  pose proof (ci_product_map _ _ _ _ _ _ _ Hdone) as Hpm.
  rewrite products_in_all_inventory in Hpm.
  fold (store_ids catalog) in Hsm. fold (employee_ids catalog) in Hem.
  fold (product_names catalog) in Hpm.
  pose proof (ingest_sales_rows v (product_names catalog)
    ([PgConnect JsonDb; PgExecute ddl_file] ++ es) sales_docs Hpm
    (ci_no_customer _ _ _ _ _ _ _ Hdone) (ci_no_sale _ _ _ _ _ _ _ Hdone)
    (ci_no_saleline _ _ _ _ _ _ _ Hdone)) as Hsales.
  assert (∃ reached h,
            reached `prefix_of` sales_docs ∧
            (run.2 = inr tt → reached = sales_docs) ∧
            (∀ table, rows_of table run.1 = rows_of table h) ∧
            sale_rows_inv v (product_names catalog) reached h)
    as (reached & h & Hpre & Hall & Hrows & Hinv).
  { unfold after in Hsales. subst run. unfold load_postgres_from_json.
    rewrite Hcat. simpl.
    destruct (foldM (ingest_sale v) sales_vars_init sales_docs) as [ss [e|sv]];
      simpl in *.
    - destruct Hsales as (seen & sale & rest & -> & _ & Hinv).
      exists seen. eexists. split_and!; [by eexists|done| |exact Hinv].
      intros table. done.
    - exists sales_docs. eexists. split_and!; [done|done| |exact Hsales].
      intros table. by rewrite app_assoc, rows_of_commit. }
  exists reached. destruct Hinv. rewrite !Hrows. rewrite <- Hsm, <- Hem.
  split_and!; done.
Qed.

(** ** The generated catalog *)

Lemma yields_and {A} (m : R A) (P Q : A → Prop) :
  yields m P → yields m Q → yields m (λ a, P a ∧ Q a).
Proof.
  intros HP HQ g. destruct (HP g) as (a & g' & Hm & Ha).
  destruct (HQ g) as (a' & g'' & Hm' & Ha'). rewrite Hm in Hm'. injection Hm' as <- <-.
  by exists a, g'.
Qed.

Lemma Forall2_elem_of_fmap_r {A B C} (P : A → B → Prop) (f : B → C) (Q : C → Prop) l k :
  Forall2 P l k → (∀ a b, P a b → Q (f b)) → ∀ b, b ∈ k → Q (f b).
Proof.
  intros HF HPQ b Hb. destruct (Forall2_elem_of_r _ _ _ _ HF Hb) as (a & _ & Hab). eauto.
Qed.

Lemma gen_products_shape cfg fake (categories : list (nat * string)) :
  PRODUCTS cfg = 0 ∨ categories ≠ [] →
  yields (gen_products cfg fake categories)
    (λ ps, Forall2 (λ i (p : product),
             product_id p = i + 1 ∧ p_category_id p ∈ categories.*1)
             (seq 0 (PRODUCTS cfg)) ps).
Proof.
  intros Hc. unfold gen_products.
  apply (yields_mapM _ (λ i (p : product),
    product_id p = i + 1 ∧ p_category_id p ∈ categories.*1)).
  intros i Hi. destruct Hc as [Hz|Hc]; [rewrite Hz in Hi; by apply elem_of_nil in Hi|].
  eapply yields_bind; [apply yields_random_uniform|]. intros price _.
  eapply yields_bind; [by apply yields_choice|]. intros cat Hcat. cbv beta in Hcat.
  apply yields_ret. split; [done|]. simpl. apply list_elem_of_fmap. by exists cat.
Qed.

Lemma gen_employees_shape cfg fake :
  EMPLOYEES cfg = 0 ∨ 0 < STORES cfg →
  yields (gen_employees cfg fake)
    (λ es, Forall2 (λ i e,
             employee_id e = i + 1 ∧ e_store_id e ∈ seq 1 (STORES cfg) ∧
             e_position e ∈ positions)
             (seq 0 (EMPLOYEES cfg)) es).
Proof.
  intros Hs. unfold gen_employees.
  apply (yields_mapM _ (λ i e,
    employee_id e = i + 1 ∧ e_store_id e ∈ seq 1 (STORES cfg) ∧
    e_position e ∈ positions)).
  intros i Hi. destruct Hs as [Hz|Hs]; [rewrite Hz in Hi; by apply elem_of_nil in Hi|].
  eapply yields_bind; [by apply yields_choice|]. intros position Hpos. cbv beta in Hpos.
  eapply yields_bind.
  { apply (yields_lift _ (λ r, r = (i + 1) mod STORES cfg) ((i + 1) mod STORES cfg));
      [|done]. unfold pymod. destruct (STORES cfg); [lia|done]. }
  intros r ->. apply yields_ret. split_and!; [done| |done]. simpl.
  apply elem_of_seq. pose proof (Nat.mod_upper_bound (i + 1) (STORES cfg)). lia.
Qed.

Lemma filter_none {A} (P : A → Prop) `{∀ x, Decision (P x)} (l : list A) :
  Forall (λ x, ¬ P x) l → filter P l = [].
Proof.
  induction 1 as [|x l Hx _ IH]; [done|]. by rewrite filter_cons_False.
Qed.

Lemma filter_all {A} (P : A → Prop) `{∀ x, Decision (P x)} (l : list A) :
  Forall P l → filter P l = l.
Proof.
  induction 1 as [|x l Hx _ IH]; [done|]. by rewrite filter_cons_True, IH.
Qed.

Lemma gen_inventory_shape cfg (stores : list store) (products : list product) :
  PRODUCTS cfg / 2 ≤ length products →
  NoDup (store_id <$> stores) → NoDup (product_id <$> products) →
  yields (gen_inventory cfg stores products)
    (λ inv,
       NoDup ((λ i, (i_store_id i, i_product_id i)) <$> inv) ∧
       length inv = length stores * (PRODUCTS cfg / 2) ∧
       (∀ s, s ∈ stores →
          length (filter (λ i, i_store_id i = store_id s) inv) = PRODUCTS cfg / 2) ∧
       ∀ i, i ∈ inv →
         i_store_id i ∈ store_id <$> stores ∧
         i_product_id i ∈ product_id <$> products ∧
         (0 ≤ i_quantity i ≤ 200)%Z).
Proof.
  intros Hlen Hst Hpr. unfold gen_inventory.
  apply (yields_foldM _ (λ seen inv,
    NoDup ((λ i, (i_store_id i, i_product_id i)) <$> inv) ∧
    length inv = length seen * (PRODUCTS cfg / 2) ∧
    (∀ s, s ∈ seen →
       length (filter (λ i, i_store_id i = store_id s) inv) = PRODUCTS cfg / 2) ∧
    ∀ i, i ∈ inv →
      i_store_id i ∈ store_id <$> seen ∧
      i_product_id i ∈ product_id <$> products ∧
      (0 ≤ i_quantity i ≤ 200)%Z)).
  2:{ split_and!; [constructor|done|by intros ? ?%elem_of_nil|].
      by intros ? ?%elem_of_nil. }
  intros seen st rest inv Hsplit (Hnd & Hl & Hper & Hin).
  eapply yields_bind; [by apply yields_sample|]. intros chosen [Hk [others Hperm]].
  eapply yields_bind.
  { apply (yields_mapM _ (λ prod (row : inventory_row),
      i_store_id row = store_id st ∧ i_product_id row = product_id prod ∧
      (0 ≤ i_quantity row ≤ 200)%Z)).
    intros prod _. eapply yields_bind; [by apply yields_randint|]. intros q Hq.
    by apply yields_ret. }
  intros rows Hrows. apply yields_ret.
  assert (i_product_id <$> rows = product_id <$> chosen) as Hids.
  { apply Forall2_fmap_eq. eapply Forall2_impl; [done|]. by intros ?? (_ & ? & _). }
  assert (NoDup (product_id <$> chosen)) as Hndc.
  { rewrite <- Hperm, fmap_app in Hpr. by apply NoDup_app in Hpr as (? & _). }
  assert (store_id st ∉ store_id <$> seen) as Hnew.
  { rewrite Hsplit, fmap_app, fmap_cons in Hst.
    apply NoDup_app in Hst as (_ & Hst & _). intros Hs. apply (Hst _ Hs). set_solver. }
  split_and!.
  - rewrite fmap_app. apply NoDup_app. split_and!; [done| |].
    + intros key (i & -> & Hi)%list_elem_of_fmap (row & Heq & Hrow)%list_elem_of_fmap.
      destruct (Forall2_elem_of_r _ _ _ _ Hrows Hrow) as (prod & _ & Hs & _).
      injection Heq as Heq _. apply Hnew. rewrite <- Hs, <- Heq. by apply Hin.
    + apply (NoDup_fmap_1 snd). rewrite <- list_fmap_compose.
      change (snd ∘ (λ i : inventory_row, (i_store_id i, i_product_id i)))
        with i_product_id. by rewrite Hids.
  - rewrite !length_app, Hl. rewrite <- (length_fmap i_product_id rows), Hids, length_fmap.
    cbn [length]. rewrite Hk. lia.
  - assert (length rows = PRODUCTS cfg / 2) as Hrl.
    { by rewrite <- (length_fmap i_product_id rows), Hids, length_fmap. }
    assert (∀ row, row ∈ rows → i_store_id row = store_id st) as Hrs.
    { intros row Hrow.
      by destruct (Forall2_elem_of_r _ _ _ _ Hrows Hrow) as (prod & _ & Hs & _). }
    intros s [Hs|Hs]%elem_of_app; rewrite filter_app, length_app.
    + assert (store_id s ≠ store_id st) as Hne.
      { intros Heq. apply Hnew. rewrite <- Heq. by apply list_elem_of_fmap_2. }
      rewrite (Hper s Hs), (filter_none _ rows); [simpl; lia|].
      apply Forall_forall. intros row Hrow. by rewrite (Hrs row Hrow).
    + apply list_elem_of_singleton in Hs as ->.
      rewrite (filter_none _ inv), (filter_all _ rows); [done| |].
      * apply Forall_forall. intros row Hrow. by apply Hrs.
      * apply Forall_forall. intros i Hi Heq. apply Hnew. rewrite <- Heq.
        by apply (Hin i Hi).
  - intros i [Hi|Hi]%elem_of_app.
    + destruct (Hin i Hi) as (? & ? & ?). split; [|done].
      rewrite fmap_app. set_solver.
    + destruct (Forall2_elem_of_r _ _ _ _ Hrows Hi) as (prod & Hprod & Hs & Hp & Hq).
      split; [|split; [|done]].
      * rewrite Hs, fmap_app, fmap_cons. set_solver.
      * rewrite Hp. apply list_elem_of_fmap. exists prod. split; [done|].
        rewrite <- Hperm. set_solver.
Qed.

Lemma Forall2_seq_ids {A} (f : A → nat) (P : nat → A → Prop) n (l : list A) :
  Forall2 P (seq 0 n) l → (∀ i a, P i a → f a = i + 1) → f <$> l = seq 1 n.
Proof.
  intros HF HP. rewrite <- succ_seq. apply Forall2_fmap_eq.
  eapply Forall2_impl; [done|]. intros i a Hia. by apply HP.
Qed.

Lemma gen_catalog_keys cfg fake :
  catalog_config_ok cfg →
  yields (gen_catalog cfg fake)
    (λ b, catalog_keys cfg b ∧ inventory_ok cfg b ∧
          categories b = gen_categories cfg fake ∧ stores b = gen_stores cfg fake ∧
          customers b = gen_customers cfg fake ∧
          sales_hdr b = [] ∧ sale_lines b = []).
Proof.
  intros [Hcat Hemp]. unfold gen_catalog.
  assert ((gen_categories cfg fake).*1 = seq 1 (CATEGORIES cfg)) as Hcids.
  { unfold gen_categories. rewrite <- list_fmap_compose. apply succ_seq. }
  assert (store_id <$> gen_stores cfg fake = seq 1 (STORES cfg)) as Hsids.
  { unfold gen_stores. rewrite <- list_fmap_compose. apply succ_seq. }
  eapply yields_bind.
  { apply gen_products_shape. destruct Hcat as [?|Hc]; [by left|right].
    unfold gen_categories. destruct (CATEGORIES cfg); [lia|done]. }
  intros ps Hps.
  eapply yields_bind; [by apply gen_employees_shape|]. intros es Hes.
  assert (product_id <$> ps = seq 1 (PRODUCTS cfg)) as Hpids.
  { apply (Forall2_seq_ids _ _ _ _ Hps). by intros ?? [? _]. }
  assert (length ps = PRODUCTS cfg) as Hlen.
  { rewrite <- (length_fmap product_id), Hpids. apply length_seq. }
  eapply yields_bind.
  { apply gen_inventory_shape.
    - rewrite Hlen. apply Nat.Div0.div_le_upper_bound. lia.
    - rewrite Hsids. apply NoDup_seq.
    - rewrite Hpids. apply NoDup_seq. }
  intros inv (Hnd & Hl & Hper & Hin). apply yields_ret.
  split_and!; try done.
  - constructor; cbn [categories products stores employees customers inventory].
    + done.
    + done.
    + done.
    + apply (Forall2_seq_ids _ _ _ _ Hes). by intros ?? [? _].
    + unfold gen_customers. rewrite <- list_fmap_compose. apply succ_seq.
    + apply (Forall2_elem_of_fmap_r _ (λ p, p) _ _ _ Hps). by intros ?? [_ ?].
    + rewrite Hsids. apply (Forall2_elem_of_fmap_r _ (λ e, e) _ _ _ Hes).
      by intros ?? (_ & ? & _).
    + apply (Forall2_elem_of_fmap_r _ (λ e, e) _ _ _ Hes). by intros ?? (_ & _ & ?).
    + intros i Hi. by apply Hin.
    + intros i Hi. by apply Hin.
  - constructor; cbn [inventory stores].
    + done.
    + rewrite Hl. rewrite <- (length_fmap store_id), Hsids, length_seq. done.
    + done.
    + intros i Hi. by apply Hin.
Qed.
Lemma R_bind_eq {A B} (m : R A) (f : A → R B) g :
  (m ≫= f) g = match m g with
               | inl e => inl e
               | inr (a, g') => f a g'
               end.
Proof. done. Qed.

(** The catalog part of both generators returns, for every seed, a catalog
    whose tables number their rows from 1, in which the category of every
    product, the store of every employee and the store and product of
    every inventory entry exist, and in which every store stocks half of
    the products, none of them twice, in quantities from 0 to 200.  It
    needs a category to choose from when there are products, and a store
    when there are employees. *)
Theorem generated_catalog_is_relational cfg fake g :
  catalog_config_ok cfg →
  ∃ b g', gen_catalog (num:=num) cfg fake g = inr (b, g') ∧
          catalog_keys cfg b ∧ inventory_ok cfg b.
Proof.
  intros Hcfg. destruct (gen_catalog_keys cfg fake Hcfg g) as (b & g' & Hrun & Hk & Hi & _).
  by exists b, g'.
Qed.

(** The catalog part of both generators raises exactly when the constants
    leave a draw without candidates: [IndexError] from
    [random.choice(categories)] when there are products and no category,
    and otherwise [ZeroDivisionError] from [% STORES] when there are
    employees and no store. *)
Theorem catalog_generation_fails_exactly cfg fake g :
  match gen_catalog (num:=num) cfg fake g with
  | inr _ => catalog_config_ok cfg
  | inl e =>
      (e = IndexError ∧ CATEGORIES cfg = 0 ∧ 0 < PRODUCTS cfg) ∨
      (e = ZeroDivisionError ∧ STORES cfg = 0 ∧ 0 < EMPLOYEES cfg ∧
       (PRODUCTS cfg = 0 ∨ 0 < CATEGORIES cfg))
  end.
Proof.
  destruct (decide (PRODUCTS cfg = 0 ∨ 0 < CATEGORIES cfg)) as [Hp|Hp].
  - destruct (decide (EMPLOYEES cfg = 0 ∨ 0 < STORES cfg)) as [He|He].
    + destruct (gen_catalog_keys cfg fake (conj Hp He) g) as (b & g' & -> & _). by split.
    + assert (gen_catalog (num:=num) cfg fake g = inl ZeroDivisionError) as ->.
      { unfold gen_catalog. rewrite R_bind_eq.
        destruct (gen_products_shape cfg fake (gen_categories cfg fake)) with (g := g)
          as (ps & g1 & -> & _).
        { destruct Hp as [?|Hc]; [by left|right]. unfold gen_categories.
          destruct (CATEGORIES cfg); [lia|done]. }
        rewrite R_bind_eq. unfold gen_employees.
        destruct (EMPLOYEES cfg) as [|n] eqn:Hn; [by destruct He; left|].
        destruct (STORES cfg) as [|s] eqn:Hs; [|destruct He; right; lia].
        cbn [seq mapM]. rewrite !R_bind_eq.
        destruct (yields_choice positions) with (g := g1) as (pos & g2 & -> & _); [done|].
        done. }
      right. split_and!; [done|lia|lia|done].
  - assert (gen_catalog (num:=num) cfg fake g = inl IndexError) as ->.
    { unfold gen_catalog, gen_products, gen_categories. rewrite R_bind_eq.
      destruct (PRODUCTS cfg) as [|n] eqn:Hn; [by destruct Hp; left|].
      destruct (CATEGORIES cfg) as [|c] eqn:Hc; [|destruct Hp; right; lia].
      done. }
    left. split_and!; [done|lia|lia].
Qed.

(** ** The generated sales *)

Lemma lines_of_not_sale (new : list sale_line) sale_id h :
  Forall (λ l, l_sale_id l = sale_id) new → h_sale_id h ≠ sale_id → lines_of new h = [].
Proof.
  intros Hnew Hne. unfold lines_of.
  induction Hnew as [|l new Hl _ IH]; [done|].
  rewrite filter_cons_False by congruence. done.
Qed.

Lemma lines_of_sale (new : list sale_line) sale_id h :
  Forall (λ l, l_sale_id l = sale_id) new → h_sale_id h = sale_id → lines_of new h = new.
Proof.
  intros Hnew Heq. unfold lines_of.
  induction Hnew as [|l new Hl _ IH]; [done|].
  rewrite filter_cons_True by congruence. by rewrite IH.
Qed.

Lemma gen_lines_shape sale_id (lines : list sale_line) (chosen : list product) :
  yields (gen_lines sale_id lines chosen)
    (λ r, ∃ new,
       r.1 = lines ++ new ∧
       Forall2 (λ (p : product) (l : sale_line),
                  l_sale_id l = sale_id ∧ l_product_id l = product_id p ∧
                  l_unit_price l = p_price p ∧ (1 ≤ l_quantity l ≤ 5)%Z) chosen new ∧
       l_line_number <$> new = seq 1 (length chosen)).
Proof.
  unfold gen_lines.
  eapply yields_mono.
  - apply (yields_foldM _ (λ seen r, ∃ new,
      r.1 = lines ++ new ∧
      Forall2 (λ (item : nat * product) (l : sale_line),
                 l_line_number l = item.1 ∧
                 l_sale_id l = sale_id ∧ l_product_id l = product_id item.2 ∧
                 l_unit_price l = p_price item.2 ∧ (1 ≤ l_quantity l ≤ 5)%Z) seen new)).
    + intros seen [line_num prod] rest [ls total] _ (new & Hr & Hnew).
      cbn [fst] in Hr. subst ls. unfold gen_line.
      eapply yields_bind; [by apply yields_randint|]. intros qty Hq. cbv beta in Hq.
      apply yields_ret. eexists (new ++ [_]). cbn [fst]. split.
      * by rewrite app_assoc.
      * apply Forall2_app; [done|]. constructor; [|constructor].
        cbn [l_line_number l_sale_id l_product_id l_unit_price l_quantity fst snd].
        split_and!; (done || lia).
    + exists []. split; [by rewrite app_nil_r|constructor].
  - intros r (new & Hr & Hnew). exists new. split; [done|].
    assert (length (seq 1 (length chosen)) = length chosen) as Hlen by apply length_seq.
    split.
    + rewrite <- (snd_zip (seq 1 (length chosen)) chosen) by lia.
      apply Forall2_fmap_l. eapply Forall2_impl; [done|].
      intros item l (_ & ? & ? & ? & ?). done.
    + transitivity ((zip (seq 1 (length chosen)) chosen).*1);
        [|by rewrite fst_zip by lia].
      apply Forall2_fmap_eq. eapply Forall2_impl; [done|]. by intros item l (? & _).
Qed.

Lemma sales_shape_snoc cfg zipf (b : base_data) (ids : list nat) hdr lines sale_id
    (st : store) (emp : employee) (cust : customer) (chosen : list product) new ts total :
  sales_shape cfg zipf b ids hdr lines →
  sale_id ∉ ids →
  st ∈ stores b →
  customers b !! zipf_ids cfg zipf (sale_id - 1) = Some cust →
  (0 ≤ ts ≤ PERIOD)%Z →
  (∃ rest, chosen ++ rest ≡ₚ products b) →
  Forall2 (λ (p : product) (l : sale_line),
             l_sale_id l = sale_id ∧ l_product_id l = product_id p ∧
             l_unit_price l = p_price p ∧ (1 ≤ l_quantity l ≤ 5)%Z) chosen new →
  l_line_number <$> new = seq 1 (length chosen) →
  sales_shape cfg zipf b (ids ++ [sale_id])
    (hdr ++ [{| h_sale_id := sale_id; h_timestamp := ts;
                h_customer_id := customer_id cust; h_store_id := store_id st;
                h_employee_id := employee_id emp; h_total_amount := total |}])
    (lines ++ new).
Proof.
  intros (Hids & Hlines & Hhdr & Hshape & Hkey & Hnum) Hnew Hst Hcust Hts [rest Hperm]
    Hl Hn.
  assert (Forall (λ l, l_sale_id l = sale_id) new) as Hsale.
  { apply Forall_forall. intros l Hin.
    destruct (Forall2_elem_of_r _ _ _ _ Hl Hin) as (p & _ & ? & _). done. }
  assert (length new = length chosen) as Hlen by (symmetry; by eapply Forall2_length).
  split_and!.
  - by rewrite fmap_app, Hids.
  - intros l [Hin|Hin]%elem_of_app.
    + apply elem_of_app. left. by apply Hlines.
    + apply elem_of_app. right. rewrite Forall_forall in Hsale.
      rewrite (Hsale l Hin). set_solver.
  - apply Forall_app. split; [done|]. constructor; [|done].
    split; [done|split].
    + cbn [h_store_id]. apply list_elem_of_fmap. by exists st.
    + by exists cust.
  - apply Forall_app. split; [done|]. apply Forall_forall. intros l Hin.
    destruct (Forall2_elem_of_r _ _ _ _ Hl Hin) as (p & Hp & _ & Hid & Hprice & Hq).
    split; [done|]. exists p. split_and!; [|done..]. rewrite <- Hperm. set_solver.
  - rewrite fmap_app. apply NoDup_app. split_and!; [done| |].
    + intros key (l & -> & Hin)%list_elem_of_fmap (l' & Heq & Hin')%list_elem_of_fmap.
      rewrite Forall_forall in Hsale. injection Heq as Heq _.
      apply Hnew. rewrite <- (Hsale l' Hin'), <- Heq. by apply Hlines.
    + apply (NoDup_fmap_1 snd). rewrite <- list_fmap_compose.
      change (snd ∘ (λ l : sale_line, (l_sale_id l, l_line_number l)))
        with (l_line_number (num:=num)).
      rewrite Hn. apply NoDup_seq.
  - intros h [Hh|Hh%list_elem_of_singleton]%elem_of_app; [|subst h].
    + assert (h_sale_id h ≠ sale_id) as Hne.
      { intros Heq. apply Hnew. rewrite <- Hids, <- Heq.
        apply list_elem_of_fmap. eauto. }
      rewrite lines_of_app, (lines_of_not_sale new sale_id), app_nil_r by done.
      by apply Hnum.
    + rewrite lines_of_app, (lines_of_earlier lines ids), (lines_of_sale new sale_id)
        by done.
      cbn [app]. by rewrite Hn, Hlen.
Qed.

Lemma yields_customer_at cfg zipf (b : base_data) i :
  0 < CUSTOMERS cfg → length (customers b) = CUSTOMERS cfg →
  yields (lift (getindex (customers b) (zipf_ids cfg zipf i)))
    (λ c, customers b !! zipf_ids cfg zipf i = Some c).
Proof.
  intros Hpos Hlen.
  assert (zipf_ids cfg zipf i < length (customers b)) as Hlt.
  { rewrite Hlen. unfold zipf_ids. apply Nat.mod_upper_bound. lia. }
  apply lookup_lt_is_Some in Hlt as [c Hc].
  apply (yields_lift _ _ c); [|done]. unfold getindex. by rewrite Hc.
Qed.

Lemma PERIOD_nonneg : (0 ≤ PERIOD)%Z.
Proof. unfold PERIOD. lia. Qed.

Lemma json_gen_sale_shape cfg zipf (b : base_data) (ids : list nat) hdr lines sale_id :
  config_ok cfg → catalog_ok cfg b →
  sales_shape cfg zipf b ids hdr lines → sale_id ∉ ids →
  yields (json_gen_sale cfg zipf b (hdr, lines) sale_id)
    (λ r, sales_shape cfg zipf b (ids ++ [sale_id]) r.1 r.2).
Proof.
  intros (_ & _ & Hcu & Hmm & Hmp & _) Hcat Hok Hnew.
  pose proof Hcat as (Hst & Hemp & Hlc & Hlp & _ & _).
  unfold json_gen_sale.
  eapply yields_bind; [by apply yields_choice|]. intros st Hin.
  eapply yields_bind; [by apply yields_choice, Hemp|]. intros emp Hemp'.
  eapply yields_bind; [by apply yields_customer_at|]. intros cust Hcust.
  eapply yields_bind; [apply yields_randint; lia|]. intros n_lines Hn. cbv beta in Hn.
  eapply yields_bind; [apply yields_sample; lia|]. intros chosen [_ Hchosen].
  eapply yields_bind; [apply gen_lines_shape|]. intros [ls total] (new & Hr & Hl & Hnum).
  cbn [fst] in Hr. subst ls.
  eapply yields_bind; [apply yields_randint, PERIOD_nonneg|]. intros ts Hts.
  apply yields_ret. cbn [fst snd]. cbv beta in *. by eapply sales_shape_snoc.
Qed.

Lemma sql_gen_sale_shape cfg zipf (b : base_data) (ids : list nat) hdr lines sale_id :
  config_ok cfg → catalog_ok cfg b →
  sales_shape cfg zipf b ids hdr lines → sale_id ∉ ids →
  yields (sql_gen_sale cfg zipf b (sale_id, hdr, lines) (sale_id - 1))
    (λ r, r.1.1 = sale_id + 1 ∧ sales_shape cfg zipf b (ids ++ [sale_id]) r.1.2 r.2).
Proof.
  intros (_ & _ & Hcu & Hmm & Hmp & _) Hcat Hok Hnew.
  pose proof Hcat as (Hst & Hemp & Hlc & Hlp & _ & _).
  unfold sql_gen_sale.
  eapply yields_bind; [apply yields_randint, PERIOD_nonneg|]. intros ts Hts.
  eapply yields_bind; [by apply yields_choice|]. intros st Hin.
  eapply yields_bind; [by apply yields_choice, Hemp|]. intros emp Hemp'.
  eapply yields_bind; [by apply yields_customer_at|]. intros cust Hcust.
  eapply yields_bind; [apply yields_randint; lia|]. intros n_lines Hn. cbv beta in Hn.
  eapply yields_bind; [apply yields_sample; lia|]. intros chosen [_ Hchosen].
  eapply yields_bind; [apply gen_lines_shape|]. intros [ls total] (new & Hr & Hl & Hnum).
  cbn [fst] in Hr. subst ls.
  apply yields_ret. cbn [fst snd]. cbv beta in *. split; [done|].
  by eapply sales_shape_snoc.
Qed.

Lemma config_ok_catalog cfg : config_ok cfg → catalog_config_ok cfg.
Proof. intros (? & ? & _). split; by right. Qed.

Lemma seq_split_head start n (seen rest : list nat) i :
  seq start n = seen ++ i :: rest → i = start + length seen.
Proof.
  intros Hsplit.
  assert (seq start n !! length seen = Some i) as Hl.
  { rewrite Hsplit. by apply list_lookup_middle. }
  by apply lookup_seq in Hl as [-> _].
Qed.

(** What both generators hold before they write their files. *)
Lemma generator_shape cfg fake zipf :
  config_ok cfg →
  yields (json_generator cfg fake zipf)
    (λ b, catalog_keys cfg b ∧ inventory_ok cfg b ∧
          sales_shape cfg zipf b (seq 1 (SALES cfg)) (sales_hdr b) (sale_lines b)) ∧
  yields (sql_generator cfg fake zipf)
    (λ b, catalog_keys cfg b ∧ inventory_ok cfg b ∧
          sales_shape cfg zipf b (seq 1 (SALES cfg)) (sales_hdr b) (sale_lines b)).
Proof.
  intros Hcfg.
  pose proof (yields_and _ _ _ (gen_catalog_ok cfg fake Hcfg)
    (gen_catalog_keys cfg fake (config_ok_catalog cfg Hcfg))) as Hcatalog.
  split.
  - unfold json_generator.
    eapply yields_bind; [exact Hcatalog|].
    intros b [(Hcat & _ & _) (Hkeys & Hinv & _)].
    eapply yields_bind.
    + apply (yields_foldM _ (λ seen r, sales_shape cfg zipf b seen r.1 r.2)).
      * intros seen sale_id rest [hdr lines] Hsplit Hok.
        apply json_gen_sale_shape; [done..|].
        pose proof (NoDup_seq 1 (SALES cfg)) as Hnd. rewrite Hsplit in Hnd.
        apply NoDup_app in Hnd as (_ & Hnd & _). intros Hin. apply (Hnd _ Hin). set_solver.
      * split_and!; [done| |constructor|constructor|constructor|];
          by intros ? ?%elem_of_nil.
    + intros [hdr lines] Hshape. apply yields_ret.
      split_and!; [by destruct Hkeys|by destruct Hinv|exact Hshape].
  - unfold sql_generator.
    eapply yields_bind; [exact Hcatalog|].
    intros b [(Hcat & _ & _) (Hkeys & Hinv & _)].
    eapply yields_bind.
    + apply (yields_foldM _ (λ seen r,
        r.1.1 = S (length seen) ∧ sales_shape cfg zipf b (seq 1 (length seen)) r.1.2 r.2)).
      * intros seen i rest [[next hdr] lines] Hsplit [Hnext Hok]. cbn [fst snd] in *.
        subst next. apply seq_split_head in Hsplit as ->.
        replace (0 + length seen) with (S (length seen) - 1) by lia.
        eapply yields_mono.
        -- apply (sql_gen_sale_shape cfg zipf b (seq 1 (length seen)) hdr lines
                    (S (length seen))); [done..|].
           rewrite elem_of_seq. lia.
        -- intros r [Hr Hok']. rewrite length_app, seq_app. simpl.
           split; [lia|done].
      * split; [done|]. split_and!; [done| |constructor|constructor|constructor|];
          by intros ? ?%elem_of_nil.
    + intros [[next hdr] lines] (_ & Hshape). apply yields_ret. cbn [fst snd] in *.
      rewrite length_seq in Hshape.
      split_and!; [by destruct Hkeys|by destruct Hinv|exact Hshape].
Qed.
Lemma shape_base_ok cfg zipf (b : base_data) (ids : list nat) :
  0 < MIN_LINES cfg →
  catalog_keys cfg b →
  sales_ok cfg b ids (sales_hdr b) (sale_lines b) →
  sales_shape cfg zipf b ids (sales_hdr b) (sale_lines b) →
  base_ok b.
Proof.
  intros Hmin Hk (_ & _ & Hok) (_ & _ & Hhdr & Hlines & _ & _).
  destruct Hk as [Hcat Hprod Hst Hemp Hcust Hpc Hes Hep His Hip].
  rewrite Forall_forall in Hhdr. rewrite Forall_forall in Hlines.
  constructor.
  - rewrite Hcat. apply NoDup_seq.
  - rewrite Hprod. apply NoDup_seq.
  - rewrite Hst. apply NoDup_seq.
  - rewrite Hemp. apply NoDup_seq.
  - rewrite Hcust. apply NoDup_seq.
  - done.
  - done.
  - done.
  - done.
  - intros h Hh. by destruct (Hhdr h Hh) as (_ & ? & _).
  - intros h Hh. by destruct (Hok h Hh).
  - intros h Hh. destruct (Hhdr h Hh) as (_ & _ & c & Hc & <-).
    apply list_elem_of_fmap. exists c. split; [done|]. by eapply list_elem_of_lookup_2.
  - intros h Hh Hnil. destruct (Hok h Hh) as [_ (_ & _ & Hlen & _)].
    rewrite Hnil in Hlen. simpl in Hlen. lia.
  - intros l Hl. destruct (Hlines l Hl) as (_ & p & Hp & <- & _).
    apply list_elem_of_fmap. by exists p.
Qed.

(** In both generators the sales are numbered from 1 to [SALES] in the
    order in which they are generated, whatever the seed; every sale
    happens between [START_DATE] and [END_DATE], in one of the stores, and
    its customer is the one at the index that the Zipf sample of the sale,
    modulo [CUSTOMERS], selects. *)
Theorem generated_sale_headers cfg fake zipf g :
  config_ok cfg →
  (∃ b g', json_generator (num:=num) cfg fake zipf g = inr (b, g') ∧
     h_sale_id <$> sales_hdr b = seq 1 (SALES cfg) ∧
     Forall (header_ok cfg zipf b) (sales_hdr b)) ∧
  (∃ b g', sql_generator (num:=num) cfg fake zipf g = inr (b, g') ∧
     h_sale_id <$> sales_hdr b = seq 1 (SALES cfg) ∧
     Forall (header_ok cfg zipf b) (sales_hdr b)).
Proof.
  intros Hcfg. destruct (generator_shape cfg fake zipf Hcfg) as [Hjson Hsql]. split.
  - destruct (Hjson g) as (b & g' & Hrun & _ & _ & Hids & _ & Hhdr & _). by exists b, g'.
  - destruct (Hsql g) as (b & g' & Hrun & _ & _ & Hids & _ & Hhdr & _). by exists b, g'.
Qed.

(** In both generators every sale line belongs to a generated sale and
    sells between 1 and 5 units of an existing product at the price of
    that product; the lines of a sale are numbered from 1 without a gap, so
    that no two lines share a sale_id and a line_number. *)
Theorem generated_sale_lines cfg fake zipf g :
  config_ok cfg →
  (∃ b g', json_generator (num:=num) cfg fake zipf g = inr (b, g') ∧
     Forall (line_shape b) (sale_lines b) ∧
     (∀ l, l ∈ sale_lines b → l_sale_id l ∈ h_sale_id <$> sales_hdr b) ∧
     NoDup ((λ l, (l_sale_id l, l_line_number l)) <$> sale_lines b) ∧
     ∀ h, h ∈ sales_hdr b →
       l_line_number <$> lines_of (sale_lines b) h
         = seq 1 (length (lines_of (sale_lines b) h))) ∧
  (∃ b g', sql_generator (num:=num) cfg fake zipf g = inr (b, g') ∧
     Forall (line_shape b) (sale_lines b) ∧
     (∀ l, l ∈ sale_lines b → l_sale_id l ∈ h_sale_id <$> sales_hdr b) ∧
     NoDup ((λ l, (l_sale_id l, l_line_number l)) <$> sale_lines b) ∧
     ∀ h, h ∈ sales_hdr b →
       l_line_number <$> lines_of (sale_lines b) h
         = seq 1 (length (lines_of (sale_lines b) h))).
Proof.
  intros Hcfg. destruct (generator_shape cfg fake zipf Hcfg) as [Hjson Hsql]. split.
  - destruct (Hjson g) as (b & g' & Hrun & _ & _ & Hids & Hl & _ & Hshape & Hkey & Hnum).
    exists b, g'. split_and!; [done..| |done|done]. intros l Hin. rewrite Hids. by apply Hl.
  - destruct (Hsql g) as (b & g' & Hrun & _ & _ & Hids & Hl & _ & Hshape & Hkey & Hnum).
    exists b, g'. split_and!; [done..| |done|done]. intros l Hin. rewrite Hids. by apply Hl.
Qed.

Lemma shape_relational cfg zipf (b : base_data) :
  0 < MIN_LINES cfg →
  sales_ok cfg b (seq 1 (SALES cfg)) (sales_hdr b) (sale_lines b) →
  catalog_keys cfg b → inventory_ok cfg b →
  sales_shape cfg zipf b (seq 1 (SALES cfg)) (sales_hdr b) (sale_lines b) →
  relational b.
Proof.
  intros Hmin Hok Hkeys Hinv Hshape. split.
  - by eapply shape_base_ok.
  - by destruct Hinv.
  - destruct Hshape as (-> & _). apply NoDup_seq.
  - by destruct Hshape as (_ & _ & _ & _ & ? & _).
  - destruct Hshape as (Hids & Hlines & _). intros l Hl. rewrite Hids. by apply Hlines.
Qed.

(** Both generators produce relational data when every sale has a line:
    with [MIN_LINES] at least 1, whatever the seed, the keys of every table
    are distinct, every reference of a product, an employee, an inventory
    entry, a sale or a sale line is the key of an existing row, and every
    sale has lines. *)
Theorem generated_data_is_relational cfg fake zipf g :
  config_ok cfg → 0 < MIN_LINES cfg →
  (∃ b g', json_generator (num:=num) cfg fake zipf g = inr (b, g') ∧ relational b) ∧
  (∃ b g', sql_generator (num:=num) cfg fake zipf g = inr (b, g') ∧ relational b).
Proof.
  intros Hcfg Hmin. destruct (generator_shape cfg fake zipf Hcfg) as [Hjson Hsql]. split.
  - destruct (yields_and _ _ _ (json_generator_ok cfg fake zipf Hcfg) Hjson g)
      as (b & g' & Hrun & Hok & Hkeys & Hinv & Hshape).
    exists b, g'. split; [done|]. by eapply shape_relational.
  - destruct (yields_and _ _ _ (sql_generator_ok cfg fake zipf Hcfg) Hsql g)
      as (b & g' & Hrun & Hok & Hkeys & Hinv & Hshape).
    exists b, g'. split; [done|]. by eapply shape_relational.
Qed.

(** ** Building the documents from any base data *)

Lemma mapM_outcome {A B} (f : A → result B) (P : A → Prop) (R : A → B → Prop)
    (Q : exn → Prop) (l : list A) :
  (∀ x, match f x with
        | inr y => P x ∧ R x y
        | inl e => ¬ P x ∧ Q e
        end) →
  match mapM f l with
  | inr k => Forall P l ∧ Forall2 R l k
  | inl e => ¬ Forall P l ∧ Q e
  end.
Proof.
  intros Hf. induction l as [|x l IH]; [by split; constructor|].
  cbn [mapM]. specialize (Hf x). unfold mbind, result_bind at 1.
  destruct (f x) as [e|y].
  - destruct Hf as [Hn HQ]. split; [|done]. by intros [? _]%Forall_cons.
  - destruct Hf as [HP HR]. unfold mbind, result_bind at 1.
    destruct (mapM f l) as [e|k].
    + destruct IH as [Hn HQ]. split; [|done]. by intros [_ ?]%Forall_cons.
    + destruct IH as [HF HF2]. split; by constructor.
Qed.

Lemma embed_product_outcome (b : base_data) pid :
  match embed_product b pid with
  | inr d => embeddable b pid ∧ d = product_doc_at b pid
  | inl e => ¬ embeddable b pid ∧ (e = KeyError "prod_by_id" ∨ e = KeyError "cat_by_id")
  end.
Proof.
  unfold embed_product, embeddable, product_doc_at, product_name, getitem.
  destruct (prod_by_id b !! pid) as [pr|] eqn:Hp; simpl.
  - destruct (cat_by_id b !! p_category_id pr) as [c|] eqn:Hc; simpl.
    + split; [|done]. exists pr. by rewrite Hc.
    + split; [|by right]. intros (pr' & [= <-] & Hs). rewrite Hc in Hs. by destruct Hs.
  - split; [|by left]. by intros (? & ? & _).
Qed.

Lemma build_store_doc_outcome (b : base_data) (st : store) :
  match build_store_doc b st with
  | inr d =>
      (∀ i, i ∈ inventory b → i_store_id i = store_id st → embeddable b (i_product_id i)) ∧
      d = store_doc_of b st
  | inl e =>
      ¬ (∀ i, i ∈ inventory b → i_store_id i = store_id st →
           embeddable b (i_product_id i)) ∧
      (e = KeyError "prod_by_id" ∨ e = KeyError "cat_by_id")
  end.
Proof.
  unfold build_store_doc.
  pose proof (mapM_outcome
    (λ inv, prod ← embed_product b (i_product_id inv);
            mret {| inv_product := prod; inv_quantity := i_quantity inv |})
    (λ inv, embeddable b (i_product_id inv))
    (λ inv d, d = inventory_doc_of b inv)
    (λ e, e = KeyError "prod_by_id" ∨ e = KeyError "cat_by_id")
    (filter (λ i, i_store_id i = store_id st) (inventory b))) as Hm.
  destruct (mapM _ (filter _ (inventory b))) as [e|invs]; simpl.
  - destruct Hm as [Hn HQ].
    + intros inv. pose proof (embed_product_outcome b (i_product_id inv)) as He.
      destruct (embed_product b (i_product_id inv)) as [e'|d]; simpl; [done|].
      destruct He as [? ->]. done.
    + split; [|done]. intros Hall. apply Hn. apply Forall_forall.
      intros i [? ?]%list_elem_of_filter. by apply Hall.
  - destruct Hm as [HF HF2].
    + intros inv. pose proof (embed_product_outcome b (i_product_id inv)) as He.
      destruct (embed_product b (i_product_id inv)) as [e'|d]; simpl; [done|].
      destruct He as [? ->]. done.
    + split.
      * intros i Hi Hs. rewrite Forall_forall in HF. apply HF.
        by apply list_elem_of_filter.
      * unfold store_doc_of. do 2 f_equal.
        apply Forall2_fmap_eq in HF2. by rewrite list_fmap_id in HF2.
Qed.

(** [store_docs] builds the document of every store exactly when every
    inventory entry of a store refers to a product of [prod_by_id] whose
    category is in [cat_by_id]; otherwise it ends in the [KeyError] of one
    of these two dictionaries.  Inventory entries and employees of a store
    that is not in [stores] are left out without an error.  The documents
    come in the order of the stores, each with the employees and the
    inventory entries of its store in their order. *)
Theorem store_docs_needs_every_stocked_product (b : base_data) :
  match store_docs b with
  | inr docs =>
      (∀ st i, st ∈ stores b → i ∈ inventory b → i_store_id i = store_id st →
         embeddable b (i_product_id i)) ∧
      docs = store_doc_of b <$> stores b
  | inl e =>
      ¬ (∀ st i, st ∈ stores b → i ∈ inventory b → i_store_id i = store_id st →
           embeddable b (i_product_id i)) ∧
      (e = KeyError "prod_by_id" ∨ e = KeyError "cat_by_id")
  end.
Proof.
  unfold store_docs.
  pose proof (mapM_outcome (build_store_doc b)
    (λ st, ∀ i, i ∈ inventory b → i_store_id i = store_id st →
             embeddable b (i_product_id i))
    (λ st d, d = store_doc_of b st)
    (λ e, e = KeyError "prod_by_id" ∨ e = KeyError "cat_by_id")
    (stores b) (build_store_doc_outcome b)) as Hm.
  destruct (mapM (build_store_doc b) (stores b)) as [e|docs].
  - destruct Hm as [Hn HQ]. split; [|done]. intros Hall. apply Hn.
    apply Forall_forall. intros st Hst i. by apply Hall.
  - destruct Hm as [HF HF2]. split.
    + intros st i Hst. rewrite Forall_forall in HF. by apply HF.
    + apply Forall2_fmap_eq in HF2. by rewrite list_fmap_id in HF2.
Qed.
Lemma build_sale_doc_outcome strftime (b : base_data) (h : sale_hdr) :
  match build_sale_doc strftime b h with
  | inr d => sale_embeddable b h ∧ sale_doc_of_hdr strftime b h d
  | inl e => ¬ sale_embeddable b h ∧ e ∈ sale_docs_errors
  end.
Proof.
  unfold build_sale_doc, sale_embeddable, sale_doc_of_hdr, sale_docs_errors, getitem.
  destruct (store_by_id b !! h_store_id h) as [st|] eqn:Hst; simpl.
  2:{ split; [|set_solver]. by intros ([? ?] & _). }
  destruct (emp_by_id b !! h_employee_id h) as [emp|] eqn:Hemp; simpl.
  2:{ split; [|set_solver]. by intros (_ & [? ?] & _). }
  destruct (cust_by_id b !! h_customer_id h) as [cust|] eqn:Hcust; simpl.
  2:{ split; [|set_solver]. by intros (_ & _ & [? ?] & _). }
  unfold lines_by_sale. rewrite group_lines_lookup. fold (lines_of (sale_lines b) h).
  generalize (lines_of (sale_lines b) h) as L. intros L.
  destruct (decide (L = [])) as [->|Hne].
  { simpl. split; [|set_solver]. by intros (_ & _ & _ & ? & _). }
  assert (match L with [] => None | x :: l => Some (x :: l) end = Some L) as ->
    by by destruct L.
  pose proof (mapM_outcome
    (λ ln, prod ← embed_product b (l_product_id ln);
           mret {| ld_product := prod; ld_quantity := l_quantity ln;
                   ld_line_total := l_line_total ln |})
    (λ ln, embeddable b (l_product_id ln))
    (λ ln d, d = line_doc_of b ln)
    (λ e, e = KeyError "prod_by_id" ∨ e = KeyError "cat_by_id") L) as Hm.
  simpl.
  destruct (mapM _ L) as [e|lines]; simpl.
  - destruct Hm as [Hn HQ].
    + intros ln. pose proof (embed_product_outcome b (l_product_id ln)) as He.
      destruct (embed_product b (l_product_id ln)) as [e'|d]; simpl; [done|].
      destruct He as [? ->]. done.
    + split; [|destruct HQ as [-> | ->]; set_solver].
      intros (_ & _ & _ & _ & Hall). apply Hn. by apply Forall_forall.
  - destruct Hm as [HF HF2].
    + intros ln. pose proof (embed_product_outcome b (l_product_id ln)) as He.
      destruct (embed_product b (l_product_id ln)) as [e'|d]; simpl; [done|].
      destruct He as [? ->]. done.
    + split.
      * split_and!; [by eexists..|done|]. by apply Forall_forall.
      * exists st, emp, cust. split_and!; [done..|]. simpl. f_equal.
        apply Forall2_fmap_eq in HF2. by rewrite list_fmap_id in HF2.
Qed.

Lemma sale_docs_outcome strftime (b : base_data) :
  match sale_docs strftime b with
  | inr docs =>
      Forall (sale_embeddable b) (sales_hdr b) ∧
      Forall2 (sale_doc_of_hdr strftime b) (sales_hdr b) docs
  | inl e => ¬ Forall (sale_embeddable b) (sales_hdr b) ∧ e ∈ sale_docs_errors
  end.
Proof.
  apply (mapM_outcome (build_sale_doc strftime b) (sale_embeddable b)
    (sale_doc_of_hdr strftime b) (λ e, e ∈ sale_docs_errors)).
  apply build_sale_doc_outcome.
Qed.

Lemma mapM_first_error {A B} (f : A → result B) (l : list A) e :
  mapM f l = inl e →
  ∃ before x after,
    l = before ++ x :: after ∧ Forall (λ y, ∃ z, f y = inr z) before ∧ f x = inl e.
Proof.
  induction l as [|x l IH]; [done|]. cbn [mapM]. unfold mbind, result_bind at 1.
  destruct (f x) as [e'|y] eqn:Hx.
  - intros [= ->]. exists [], x, l. by split_and!.
  - unfold mbind, result_bind at 1. destruct (mapM f l) as [e'|k]; [|done].
    intros [= ->]. destruct (IH eq_refl) as (before & x' & after & -> & Hb & Hx').
    exists (x :: before), x', after. split_and!; [done| |done].
    constructor; [by exists y|done].
Qed.

Lemma embed_product_error (b : base_data) pid e :
  embed_product b pid = inl e → product_error b pid e.
Proof.
  unfold embed_product, product_error, getitem.
  destruct (prod_by_id b !! pid) as [pr|]; simpl.
  - destruct (cat_by_id b !! p_category_id pr) eqn:Hc; simpl; [done|].
    intros [= <-]. right. by exists pr.
  - intros [= <-]. by left.
Qed.

Lemma build_sale_doc_error strftime (b : base_data) (h : sale_hdr) e :
  build_sale_doc strftime b h = inl e → sale_error b h e.
Proof.
  unfold build_sale_doc, sale_error, getitem.
  destruct (store_by_id b !! h_store_id h) as [st|]; simpl; [|by intros [= <-]].
  destruct (emp_by_id b !! h_employee_id h) as [emp|]; simpl; [|by intros [= <-]].
  destruct (cust_by_id b !! h_customer_id h) as [cust|]; simpl; [|by intros [= <-]].
  unfold lines_by_sale. rewrite group_lines_lookup. fold (lines_of (sale_lines b) h).
  generalize (lines_of (sale_lines b) h) as L. intros L.
  destruct (decide (L = [])) as [->|Hne].
  { simpl. intros [= <-]. by left. }
  assert (match L with [] => None | x :: l => Some (x :: l) end = Some L) as ->
    by by destruct L.
  simpl.
  destruct (mapM _ L) as [e'|lines] eqn:Hm; simpl; [|done].
  intros [= ->]. right.
  apply mapM_first_error in Hm as (before & ln & after & -> & Hb & Hln).
  exists before, ln, after. split_and!; [done| |].
  - eapply Forall_impl; [exact Hb|]. intros l [z Hz]. simpl in Hz.
    pose proof (embed_product_outcome b (l_product_id l)) as He.
    destruct (embed_product b (l_product_id l)); [done|]. by destruct He.
  - cbv beta in Hln. apply embed_product_error.
    destruct (embed_product b (l_product_id ln)) as [e'|d]; [|done].
    simpl in Hln. by injection Hln as ->.
Qed.

(** [sale_docs] builds the document of every sale exactly when every sale
    finds its store, its employee and its customer by id, has at least
    one line, and every line refers to a product of [prod_by_id] whose
    category is in [cat_by_id].  Otherwise it stops at the first sale for
    which this fails, with the [KeyError] of the first lookup of this sale
    that finds nothing: [store_by_id], [emp_by_id], [cust_by_id],
    [lines_by_sale] for a sale without lines, and then, for the first line
    that cannot be embedded, [prod_by_id] or [cat_by_id].  A document
    carries the timestamp as an Extended-JSON date, the names found by id,
    the total_amount of the header and the lines of the sale in their
    order. *)
Theorem sale_docs_needs_every_reference strftime (b : base_data) :
  match sale_docs strftime b with
  | inr docs =>
      Forall (sale_embeddable b) (sales_hdr b) ∧
      Forall2 (sale_doc_of_hdr strftime b) (sales_hdr b) docs
  | inl e =>
      ∃ before h after,
        sales_hdr b = before ++ h :: after ∧
        Forall (sale_embeddable b) before ∧
        ¬ sale_embeddable b h ∧
        sale_error b h e
  end.
Proof.
  pose proof (sale_docs_outcome strftime b) as Hout.
  destruct (sale_docs strftime b) as [e|docs] eqn:Hdocs; [|done].
  unfold sale_docs in Hdocs.
  apply mapM_first_error in Hdocs as (before & h & after & Hsplit & Hb & Hh).
  exists before, h, after. split_and!; [done| | |].
  - eapply Forall_impl; [exact Hb|]. intros h' [d Hd].
    pose proof (build_sale_doc_outcome strftime b h') as Ho. rewrite Hd in Ho.
    by destruct Ho.
  - pose proof (build_sale_doc_outcome strftime b h) as Ho. rewrite Hh in Ho.
    by destruct Ho.
  - by eapply build_sale_doc_error.
Qed.

(** ** json/generator.py from the seed to the documents *)

Lemma generated_sale_doc cfg zipf strftime (b : base_data) (ids : list nat) h (d : sale_doc) :
  base_ok b →
  sales_ok cfg b ids (sales_hdr b) (sale_lines b) →
  sales_shape cfg zipf b ids (sales_hdr b) (sale_lines b) →
  h ∈ sales_hdr b → sale_doc_of_hdr strftime b h d →
  sl_total_amount d = round2 (foldl num_add num_zero (ld_line_total <$> sl_lines d)) ∧
  MIN_LINES cfg ≤ length (sl_lines d) ≤ MAX_LINES cfg ∧
  Forall (λ ln : line_doc,
    ld_line_total ln
      = round2 (num_mul_int (pd_price (ld_product ln)) (ld_quantity ln)) ∧
    (1 ≤ ld_quantity ln ≤ 5)%Z) (sl_lines d).
Proof.
  intros Hb (_ & _ & Hok) (_ & _ & _ & Hlines & _) Hh (st & emp & cust & _ & _ & _ & ->).
  destruct (Hok h Hh) as [_ (Htotal & Hline & Hlen & _)]. cbn [sl_total_amount sl_lines].
  split_and!.
  - rewrite Htotal. unfold running_total. by rewrite <- list_fmap_compose.
  - rewrite length_fmap. lia.
  - rewrite length_fmap. lia.
  - apply Forall_fmap. apply Forall_forall. intros ln Hln.
    rewrite Forall_forall in Hline. destruct (Hline ln Hln) as [_ Hlt].
    assert (ln ∈ sale_lines b) as Hin by by apply list_elem_of_filter in Hln as [_ ?].
    rewrite Forall_forall in Hlines.
    destruct (Hlines ln Hin) as (Hq & p & Hp & Hpid & Hprice).
    simpl. split; [|done]. unfold product_doc_at. cbn [pd_price].
    rewrite <- Hpid, (prod_by_id_lookup b p Hb Hp). simpl. by rewrite Hprice.
Qed.

(** json/generator.py runs to its end for every seed when every sale has
    a line: it writes one document per store and one per sale, and in
    every sale document the total_amount is the rounded sum, taken in
    order, of the line_total of the embedded lines, there are between
    [MIN_LINES] and [MAX_LINES] lines, and every line_total is the rounded
    product of the embedded price and a quantity from 1 to 5. *)
Theorem json_generator_writes_consistent_documents cfg fake zipf strftime g :
  config_ok cfg → 0 < MIN_LINES cfg →
  ∃ catalog sales g',
    json_main (num:=num) cfg fake zipf strftime g = inr ((catalog, sales), g') ∧
    length catalog = STORES cfg ∧
    length sales = SALES cfg ∧
    Forall (λ d : sale_doc,
      sl_total_amount d
        = round2 (foldl num_add num_zero (ld_line_total <$> sl_lines d)) ∧
      MIN_LINES cfg ≤ length (sl_lines d) ≤ MAX_LINES cfg ∧
      Forall (λ ln : line_doc,
        ld_line_total ln
          = round2 (num_mul_int (pd_price (ld_product ln)) (ld_quantity ln)) ∧
        (1 ≤ ld_quantity ln ≤ 5)%Z) (sl_lines d)) sales.
Proof.
  intros Hcfg Hmin. destruct (generator_shape cfg fake zipf Hcfg) as [Hjson _].
  destruct (yields_and _ _ _ (json_generator_ok cfg fake zipf Hcfg) Hjson g)
    as (b & g' & Hrun & Hok & Hkeys & _ & Hshape).
  assert (base_ok b) as Hb by by eapply shape_base_ok.
  pose proof (sale_docs_outcome strftime b) as Hsales.
  destruct (sale_docs_ok strftime b Hb) as (sales & Hs & _). rewrite Hs in Hsales.
  destruct Hsales as [_ HF].
  exists (store_doc_of b <$> stores b), sales, g'. split_and!.
  - unfold json_main. rewrite R_bind_eq, Hrun. rewrite R_bind_eq, store_docs_ok by done.
    cbn [lift]. rewrite R_bind_eq, Hs. done.
  - rewrite length_fmap, <- (length_fmap store_id), (ck_stores _ _ Hkeys). apply length_seq.
  - rewrite <- (Forall2_length _ _ _ HF). rewrite (sales_ok_length _ _ _ _ _ Hok).
    apply length_seq.
  - apply Forall_forall. intros d Hd.
    destruct (Forall2_elem_of_r _ _ _ _ HF Hd) as (h & Hh & Hdoc).
    by eapply generated_sale_doc.
Qed.

(** ** How many lines the generators produce *)

Lemma flat_map_length_bounds {A B} (g : A → list B) (ks : list A) lo hi :
  (∀ k, k ∈ ks → lo ≤ length (g k) ≤ hi) →
  length ks * lo ≤ length (flat_map g ks) ≤ length ks * hi.
Proof.
  induction ks as [|k ks IH]; intros Hg; [simpl; lia|].
  cbn [flat_map length]. rewrite length_app.
  destruct (Hg k) as [? ?]; [set_solver|].
  destruct IH as [? ?]; [intros; apply Hg; set_solver|]. lia.
Qed.

Lemma sale_lines_count cfg (b : base_data) (ids : list nat) :
  NoDup ids →
  sales_ok cfg b ids (sales_hdr b) (sale_lines b) →
  length ids * MIN_LINES cfg ≤ length (sale_lines b) ≤ length ids * MAX_LINES cfg.
Proof.
  intros Hnd (Hids & Hlines & Hok).
  pose proof (regroup l_sale_id (λ _ (l : sale_line), l) (sale_lines b) ids Hnd Hlines)
    as Hperm.
  rewrite list_fmap_id in Hperm. rewrite <- Hperm.
  apply flat_map_length_bounds. intros k Hk. rewrite list_fmap_id.
  rewrite <- Hids in Hk. apply list_elem_of_fmap in Hk as (h & -> & Hh).
  destruct (Hok h Hh) as [_ (_ & _ & Hlen & _)]. exact Hlen.
Qed.

(** Both generators produce, for every seed, between [SALES * MIN_LINES]
    and [SALES * MAX_LINES] sale lines. *)
Theorem generated_sale_lines_count cfg fake zipf g :
  config_ok cfg →
  (∃ b g', json_generator (num:=num) cfg fake zipf g = inr (b, g') ∧
     SALES cfg * MIN_LINES cfg ≤ length (sale_lines b) ≤ SALES cfg * MAX_LINES cfg) ∧
  (∃ b g', sql_generator (num:=num) cfg fake zipf g = inr (b, g') ∧
     SALES cfg * MIN_LINES cfg ≤ length (sale_lines b) ≤ SALES cfg * MAX_LINES cfg).
Proof.
  intros Hcfg. split.
  - destruct (json_generator_ok cfg fake zipf Hcfg g) as (b & g' & Hrun & Hok).
    exists b, g'. split; [done|].
    pose proof (sale_lines_count cfg b _ (NoDup_seq 1 (SALES cfg)) Hok) as Hn.
    by rewrite length_seq in Hn.
  - destruct (sql_generator_ok cfg fake zipf Hcfg g) as (b & g' & Hrun & Hok).
    exists b, g'. split; [done|].
    pose proof (sale_lines_count cfg b _ (NoDup_seq 1 (SALES cfg)) Hok) as Hn.
    by rewrite length_seq in Hn.
Qed.
Lemma write_batches_length str_float strftime_sql
    (data : list (list (sqlval (num:=num)))) table columns :
  length (write_batches str_float strftime_sql data table columns)
    = batches_of (length data).
Proof.
  unfold write_batches, batches_of. rewrite length_fmap.
  rewrite chunks_length by (unfold BATCH_SIZE; lia). unfold BATCH_SIZE. f_equal. lia.
Qed.

(** sql/generator.py completes for every seed and writes the DDL, then
    the INSERT statements, then COMMIT.  The number of INSERT statements
    is the number of batches of 1000 rows that the eight tables make,
    where the sale lines number between [SALES * MIN_LINES] and
    [SALES * MAX_LINES]. *)
Theorem sql_generator_writes_the_script str_float strftime_sql cfg fake zipf g :
  config_ok cfg →
  ∃ b g',
    sql_main (num:=num) str_float strftime_sql cfg fake zipf g
      = inr (DDL :: sql_inserts str_float strftime_sql b ++ ["COMMIT;" +:+ nl], g') ∧
    SALES cfg * MIN_LINES cfg ≤ length (sale_lines b) ≤ SALES cfg * MAX_LINES cfg ∧
    length (sql_inserts str_float strftime_sql b)
      = batches_of (CATEGORIES cfg) + batches_of (PRODUCTS cfg)
        + batches_of (STORES cfg) + batches_of (EMPLOYEES cfg)
        + batches_of (CUSTOMERS cfg) + batches_of (STORES cfg * (PRODUCTS cfg / 2))
        + batches_of (SALES cfg) + batches_of (length (sale_lines b)).
Proof.
  intros Hcfg.
  destruct (generator_shape cfg fake zipf Hcfg) as [_ Hshape].
  pose proof (yields_and _ _ _ Hshape (sql_generator_ok cfg fake zipf Hcfg)) as Hgen.
  destruct (Hgen g) as (b & g' & Hrun & (Hkeys & Hinv & Hsales) & Hok).
  exists b, g'. split; [|split].
  - unfold sql_main, mbind, R_bind. rewrite Hrun. reflexivity.
  - pose proof (sale_lines_count cfg b _ (NoDup_seq 1 (SALES cfg)) Hok) as Hn.
    by rewrite length_seq in Hn.
  - destruct Hkeys as [Hcat Hprod Hst Hemp Hcust _ _ _ _ _].
    destruct Hinv as [_ Hilen _ _]. destruct Hsales as (Hids & _).
    apply (f_equal length) in Hcat, Hprod, Hst, Hemp, Hcust, Hids.
    rewrite length_fmap, length_seq in Hcat. rewrite length_fmap, length_seq in Hprod.
    rewrite length_fmap, length_seq in Hst. rewrite length_fmap, length_seq in Hemp.
    rewrite length_fmap, length_seq in Hcust. rewrite length_fmap, length_seq in Hids.
    unfold sql_inserts. rewrite !length_app, !write_batches_length, !length_fmap.
    rewrite Hcat, Hprod, Hst, Hemp, Hcust, Hilen, Hids. lia.
Qed.

(** ** Transactions *)











(** ** What COPY reads from the buffer *)















End Properties.

(** ** The properties on concrete data *)

Lemma ink_line_issues_no_call :
  product_map catalog_vars_init !! "ink" = None ∧
  ingest_line (num:=Z) catalog_vars_init 1 1
    {| ld_product := ink; ld_quantity := 1%Z; ld_line_total := 990%Z |}
  = ([], inr 1).
Proof.
  split; [reflexivity|].
  apply (proj2 (load_postgres_from_json_referential_integrity never_fails [] "" [] [])).
  reflexivity.
Defined.

(** C3 fails on a catalog that repeats a store name: the third document
    does not receive store_id 3. *)
Lemma third_store_gets_id_2 :
  ¬ (∀ k d, catalog_repeated_name !! k = Some d →
       rows_of "store" (load_postgres_from_json "" catalog_repeated_name []).1 !! k
         = Some (store_row (S k, d))).
Proof. intros Hc. specialize (Hc 2 _ eq_refl). vm_compute in Hc. discriminate Hc. Qed.

Lemma ids_of_one_shop :
  NoDup (sd_store_name <$> [shop "A"; shop "B"]) ∧
  rows_of "store" (load_postgres_from_json "" [shop "A"; shop "B"] []).1
    = imap (λ k d, store_row (S k, d)) [shop "A"; shop "B"].
Proof.
  assert (NoDup (sd_store_name <$> [shop "A"; shop "B"])) as Hnd.
  { simpl. apply NoDup_cons. split; [set_solver|apply NoDup_singleton]. }
  split; [exact Hnd|].
  destruct (ids_follow_first_encounter "" [shop "A"; shop "B"] [])
    as (_ & _ & _ & Hstores & _).
  exact (Hstores Hnd).
Defined.

(** C3. [s_id = len(store_map) + 1] counts the distinct store names met so
    far, and [store_map[name] = s_id] overwrites the entry of a name met
    before.  On a catalog whose first two documents carry the same name,
    the second and the third store row both carry store_id 2, whereas the
    employees next to them are numbered 1, 2, 3 by their counter; a sale
    of the store named twice is then booked on store_id 2 and on
    employee 3, the employee of the third store. *)
Lemma repeated_store_name_shares_store_id :
  rows_of "store" (load_postgres_from_json "" catalog_repeated_name []).1
    = [[VInt 1; VStr "A"; VStr ""]; [VInt 2; VStr "A"; VStr ""];
       [VInt 2; VStr "B"; VStr ""]] ∧
  rows_of "employee"
    (load_postgres_from_json "" [shop "A"; shop "A"; shop "B"] [sale_of_ink_and_pens]).1
    = [[VInt 1; VStr "Ana"; VStr "Paz"; VStr ""; VInt 1];
       [VInt 2; VStr "Ana"; VStr "Paz"; VStr ""; VInt 2];
       [VInt 3; VStr "Ana"; VStr "Paz"; VStr ""; VInt 2]] ∧
  rows_of "sale"
    (load_postgres_from_json "" [shop "A"; shop "A"; shop "B"] [sale_of_ink_and_pens]).1
    = [[VInt 1; VStr "2024-01-01T00:00:00"; VInt 1; VInt 2; VInt 3; VNum 1290%Z]].
Proof. vm_compute. done. Qed.

(** C4 as stated fails on a sale of a product that no store stocks: the
    run ends without an exception and the line is not inserted. *)
Lemma unknown_product_line_is_dropped :
  exec never_fails []
    (load_postgres_from_json "" [shop "A"] [sale_of_ink_and_pens])
  = ((load_postgres_from_json "" [shop "A"] [sale_of_ink_and_pens]).1, inr tt) ∧
  length (sl_lines sale_of_ink_and_pens) = 2 ∧
  rows_of "saleline" (load_postgres_from_json "" [shop "A"] [sale_of_ink_and_pens]).1
  = [[VInt 1; VInt 1; VInt 1; VInt 2; VNum 150%Z; VNum 300%Z]].
Proof. vm_compute. done. Qed.

Lemma refused_store_ends_main :
  (main (example_world refuses_stores)).2 = inl (ClientError "duplicate key") ∧
  served (main (example_world refuses_stores)).1
    = [PgConnect SqlDb; PgExecute (SQL_FILE example_files); PgCommit;
       PgConnect JsonDb; PgExecute (DDL_FILE example_files)] ∧
  OUT_CSV (main (example_world refuses_stores)).1 = None.
Proof.
  destruct errors_propagate_and_only_unknown_lines_are_skipped as (Hrefused & _ & _).
  apply (Hrefused (example_world refuses_stores)
    [PgConnect SqlDb; PgExecute (SQL_FILE example_files); PgCommit;
     PgConnect JsonDb; PgExecute (DDL_FILE example_files)]
    (PgCopy "store" ["store_id"; "name"; "address"]
       [[VInt 1; VStr "A"; VStr "Calle 1"]])
    (skipn 6 (all_paths example_files).1)).
  - vm_compute. reflexivity.
  - intros earlier ev' later Heq.
    assert (ev' ∈ [PgConnect SqlDb; PgExecute (SQL_FILE example_files); PgCommit;
                   PgConnect JsonDb; PgExecute (DDL_FILE example_files)]) as Hin.
    { rewrite Heq. set_solver. }
    repeat (apply elem_of_cons in Hin as [->|Hin]; [reflexivity|]).
    by apply elem_of_nil in Hin.
  - reflexivity.
Defined.

Lemma main_example_run :
  main (example_world never_fails) = ((main (example_world never_fails)).1, inr tt) ∧
  OUT_CSV (main (example_world never_fails)).1 = Some
    [ [VStr "step"; VStr "duration_seconds"];
      [VStr "postgres_sql"; VNum 3%Z];
      [VStr "postgres_json"; VNum 11%Z];
      [VStr "mongo_catalog"; VNum 4%Z];
      [VStr "mongo_sales"; VNum 4%Z] ].
Proof.
  assert (main (example_world never_fails)
          = ((main (example_world never_fails)).1, inr tt)) as Hrun.
  { rewrite (surjective_pairing (main (example_world never_fails))) at 1.
    f_equal; vm_compute; reflexivity. }
  split; [exact Hrun|].
  exact (proj1 (main_records_every_step _ _ Hrun)).
Defined.



Lemma constants_ok : config_ok constants.
Proof.
  unfold config_ok. cbn [CATEGORIES STORES CUSTOMERS MIN_LINES MAX_LINES PRODUCTS
    EMPLOYEES constants].
  split_and!; try lia.
  apply (bool_decide_unpack _). vm_compute. exact I.
Defined.

Lemma constants_sales_are_made_by_store_employees :
  config_ok constants ∧
  (∃ b g', json_generator (num:=Z) constants example_faker example_zipf example_rng
             = inr (b, g') ∧
     length (sales_hdr b) = 20000 ∧
     ∀ h, h ∈ sales_hdr b → sold_by_store_employee b h) ∧
  (∃ b g', sql_generator (num:=Z) constants example_faker example_zipf example_rng
             = inr (b, g') ∧
     length (sales_hdr b) = 20000 ∧
     ∀ h, h ∈ sales_hdr b → sold_by_store_employee b h).
Proof.
  split; [exact constants_ok|].
  exact (sales_are_made_by_store_employees constants example_faker example_zipf
           example_rng constants_ok).
Defined.

Lemma constants_sales_are_well_totalled :
  config_ok constants ∧
  (∃ b g', json_generator (num:=Z) constants example_faker example_zipf example_rng
             = inr (b, g') ∧
     length (sales_hdr b) = 20000 ∧
     ∀ h, h ∈ sales_hdr b → well_totalled constants (sale_lines b) h) ∧
  (∃ b g', sql_generator (num:=Z) constants example_faker example_zipf example_rng
             = inr (b, g') ∧
     length (sales_hdr b) = 20000 ∧
     ∀ h, h ∈ sales_hdr b → well_totalled constants (sale_lines b) h).
Proof.
  split; [exact constants_ok|].
  exact (sales_are_well_totalled constants example_faker example_zipf
           example_rng constants_ok).
Defined.

Lemma chunks_of_five_by_two :
  0 < 2 ∧
  concat (chunks [1; 2; 3; 4; 5] 2) = [1; 2; 3; 4; 5] ∧
  Forall (λ batch, 1 ≤ length batch ≤ 2) (chunks [1; 2; 3; 4; 5] 2).
Proof.
  assert (0 < 2) as Hs by lia. split; [exact Hs|].
  exact (chunks_partition [1; 2; 3; 4; 5] 2 Hs).
Defined.

Lemma second_chunk_of_five_by_two :
  0 < 2 ∧ chunks [1; 2; 3; 4; 5] 2 !! 1 = Some [3; 4] ∧
  S 1 < length (chunks [1; 2; 3; 4; 5] 2) ∧
  length [3; 4] = 2.
Proof.
  assert (0 < 2) as Hs by lia.
  assert (chunks [1; 2; 3; 4; 5] 2 !! 1 = Some [3; 4]) as Hb by (vm_compute; reflexivity).
  assert (S 1 < length (chunks [1; 2; 3; 4; 5] 2)) as Hlt by (vm_compute; lia).
  split_and!; [exact Hs|exact Hb|exact Hlt|].
  exact (proj2 (proj2 (chunks_are_full_but_the_last [1; 2; 3; 4; 5] 2 Hs) 1 [3; 4] Hb) Hlt).
Defined.


Lemma extract_ts_of_example_date :
  example_strftime 0%Z = "2024-01-01T00:00:00" +:+ "Z" ∧
  ¬ occurs "Z" "2024-01-01T00:00:00" ∧
  extract_ts (mongo_date example_strftime 0%Z) = "2024-01-01T00:00:00".
Proof.
  assert (¬ occurs "Z" "2024-01-01T00:00:00") as Hbody.
  { unfold occurs. apply (bool_decide_unpack _). vm_compute. exact I. }
  split_and!; [reflexivity|exact Hbody|].
  exact (proj1 (proj2 extract_ts_drops_every_Z) example_strftime 0%Z
           "2024-01-01T00:00:00" eq_refl Hbody).
Defined.

Lemma first_generated_address_is_one_line :
  {| store_id := 1; s_name := "A SA"; s_address := "Calle 1" |}
    ∈ gen_stores constants example_faker ∧
  ¬ occurs "010" "Calle 1".
Proof.
  assert ({| store_id := 1; s_name := "A SA"; s_address := "Calle 1" |}
            ∈ gen_stores constants example_faker) as Hin.
  { vm_compute. apply list_elem_of_here. }
  split; [exact Hin|].
  exact (generated_addresses_are_one_line constants example_faker _ Hin).
Defined.

Lemma copy_buffer_of_a_store_reads_back :
  read_buffer (copy_buffer example_str_float [[VInt 1; VStr "A"; VStr "Calle 1"]])
    = [["1"; "A"; "Calle 1"]].
Proof.
  apply (copy_buffer_reads_back example_str_float [[VInt 1; VStr "A"; VStr "Calle 1"]]).
  repeat constructor; try discriminate;
    unfold occurs; apply (bool_decide_unpack _); vm_compute; exact I.
Defined.

Lemma quoted_name_reads_back :
  read_literal
    (fmt_value example_str_float example_strftime_sql (SqlStr "O'Brien") +:+ ", 3)")
    = Some ("O'Brien", ", 3)").
Proof.
  apply (fmt_value_string_reads_back example_str_float example_strftime_sql
           "O'Brien" ", 3)").
  intros r. discriminate.
Defined.

Lemma sale_of_a_listed_employee_resolves :
  NoDup (sd_store_name <$> [shop "A"]) ∧
  Forall (employed [shop "A"]) [sale_of_ink_and_pens] ∧
  (load_postgres_from_json "" [shop "A"] [sale_of_ink_and_pens]).2 = inr tt.
Proof.
  assert (NoDup (sd_store_name <$> [shop "A"])) as Hnd by apply NoDup_singleton.
  assert (Forall (employed [shop "A"]) [sale_of_ink_and_pens]) as Hemp.
  { constructor; [|constructor].
    exists (shop "A"),
      {| ed_first_name := "Ana"; ed_last_name := "Paz"; ed_position := None |}.
    split_and!; try reflexivity; apply list_elem_of_here. }
  split_and!; [exact Hnd|exact Hemp|].
  exact (proj2 (proj1 (sales_resolve_or_raise_KeyError "" [shop "A"]
                         [sale_of_ink_and_pens] Hnd)) Hemp).
Defined.

Lemma constants_catalog_config_ok : catalog_config_ok constants.
Proof. split; right; cbn [CATEGORIES STORES constants]; lia. Defined.

Lemma constants_catalog_is_relational :
  catalog_config_ok constants ∧
  ∃ b g', gen_catalog (num:=Z) constants example_faker example_rng = inr (b, g') ∧
          catalog_keys constants b ∧ inventory_ok constants b.
Proof.
  split; [exact constants_catalog_config_ok|].
  exact (generated_catalog_is_relational constants example_faker example_rng
           constants_catalog_config_ok).
Defined.

Lemma constants_sale_headers :
  config_ok constants ∧
  (∃ b g', json_generator (num:=Z) constants example_faker example_zipf example_rng
             = inr (b, g') ∧
     h_sale_id <$> sales_hdr b = seq 1 20000 ∧
     Forall (header_ok constants example_zipf b) (sales_hdr b)) ∧
  (∃ b g', sql_generator (num:=Z) constants example_faker example_zipf example_rng
             = inr (b, g') ∧
     h_sale_id <$> sales_hdr b = seq 1 20000 ∧
     Forall (header_ok constants example_zipf b) (sales_hdr b)).
Proof.
  split; [exact constants_ok|].
  exact (generated_sale_headers constants example_faker example_zipf example_rng
           constants_ok).
Defined.

Lemma constants_sale_lines :
  config_ok constants ∧
  (∃ b g', json_generator (num:=Z) constants example_faker example_zipf example_rng
             = inr (b, g') ∧
     Forall (line_shape b) (sale_lines b) ∧
     (∀ l, l ∈ sale_lines b → l_sale_id l ∈ h_sale_id <$> sales_hdr b) ∧
     NoDup ((λ l, (l_sale_id l, l_line_number l)) <$> sale_lines b) ∧
     ∀ h, h ∈ sales_hdr b →
       l_line_number <$> lines_of (sale_lines b) h
         = seq 1 (length (lines_of (sale_lines b) h))) ∧
  (∃ b g', sql_generator (num:=Z) constants example_faker example_zipf example_rng
             = inr (b, g') ∧
     Forall (line_shape b) (sale_lines b) ∧
     (∀ l, l ∈ sale_lines b → l_sale_id l ∈ h_sale_id <$> sales_hdr b) ∧
     NoDup ((λ l, (l_sale_id l, l_line_number l)) <$> sale_lines b) ∧
     ∀ h, h ∈ sales_hdr b →
       l_line_number <$> lines_of (sale_lines b) h
         = seq 1 (length (lines_of (sale_lines b) h))).
Proof.
  split; [exact constants_ok|].
  exact (generated_sale_lines constants example_faker example_zipf example_rng
           constants_ok).
Defined.

Lemma constants_min_lines : 0 < MIN_LINES constants.
Proof. cbn [MIN_LINES constants]. lia. Defined.

Lemma constants_data_is_relational :
  config_ok constants ∧ 0 < MIN_LINES constants ∧
  (∃ b g', json_generator (num:=Z) constants example_faker example_zipf example_rng
             = inr (b, g') ∧ relational b) ∧
  (∃ b g', sql_generator (num:=Z) constants example_faker example_zipf example_rng
             = inr (b, g') ∧ relational b).
Proof.
  split; [exact constants_ok|]. split; [exact constants_min_lines|].
  exact (generated_data_is_relational constants example_faker example_zipf example_rng
           constants_ok constants_min_lines).
Defined.

Lemma constants_documents_are_consistent :
  config_ok constants ∧ 0 < MIN_LINES constants ∧
  ∃ catalog sales g',
    json_main (num:=Z) constants example_faker example_zipf example_strftime example_rng
      = inr ((catalog, sales), g') ∧
    length catalog = 5 ∧
    length sales = 20000 ∧
    Forall (λ d : sale_doc Z,
      sl_total_amount d
        = round2 (foldl num_add num_zero (ld_line_total <$> sl_lines d)) ∧
      1 ≤ length (sl_lines d) ≤ 10 ∧
      Forall (λ ln : line_doc Z,
        ld_line_total ln
          = round2 (num_mul_int (pd_price (ld_product ln)) (ld_quantity ln)) ∧
        (1 ≤ ld_quantity ln ≤ 5)%Z) (sl_lines d)) sales.
Proof.
  split; [exact constants_ok|]. split; [exact constants_min_lines|].
  exact (json_generator_writes_consistent_documents constants example_faker example_zipf
           example_strftime example_rng constants_ok constants_min_lines).
Defined.

Lemma constants_sale_lines_count :
  config_ok constants ∧
  (∃ b g', json_generator (num:=Z) constants example_faker example_zipf example_rng
             = inr (b, g') ∧
     SALES constants * MIN_LINES constants ≤ length (sale_lines b)
       ≤ SALES constants * MAX_LINES constants) ∧
  (∃ b g', sql_generator (num:=Z) constants example_faker example_zipf example_rng
             = inr (b, g') ∧
     SALES constants * MIN_LINES constants ≤ length (sale_lines b)
       ≤ SALES constants * MAX_LINES constants).
Proof.
  split; [exact constants_ok|].
  exact (generated_sale_lines_count constants example_faker example_zipf example_rng
           constants_ok).
Defined.

Lemma constants_script :
  config_ok constants ∧
  ∃ b g',
    sql_main (num:=Z) example_str_float example_strftime_sql constants example_faker
      example_zipf example_rng
      = inr (DDL :: sql_inserts example_str_float example_strftime_sql b
                 ++ ["COMMIT;" +:+ nl], g') ∧
    SALES constants * MIN_LINES constants ≤ length (sale_lines b)
      ≤ SALES constants * MAX_LINES constants ∧
    length (sql_inserts example_str_float example_strftime_sql b)
      = batches_of (CATEGORIES constants) + batches_of (PRODUCTS constants)
        + batches_of (STORES constants) + batches_of (EMPLOYEES constants)
        + batches_of (CUSTOMERS constants)
        + batches_of (STORES constants * (PRODUCTS constants / 2))
        + batches_of (SALES constants) + batches_of (length (sale_lines b)).
Proof.
  split; [exact constants_ok|].
  exact (sql_generator_writes_the_script example_str_float example_strftime_sql
           constants example_faker example_zipf example_rng constants_ok).
Defined.









